(** * novosparc reconstruction helpers: cost matrices for optimal transport,
      spatial archetypes and gene selection.

    A shallow embedding of [novotest/reconstruction/_novosparc.py].

    - Floating-point arrays are modelled with the IEEE special values
      ([NaN], [+inf], [-inf]) and exact rational arithmetic on the finite
      values: rounding is not modelled, the propagation of [NaN] and of
      infinities is.
    - A Python exception is a value of [exn]; text written by [print] is
      collected in order.
    - The numerical collaborators (numpy, networkx) are modelled from their
      documented behaviour; the nearest-neighbour search, the hierarchical
      clustering and the p-value of the correlation test are parameters. *)

From Stdlib Require Import Bool String List ZArith QArith Qreduction Qabs Lia Lqa.
From Stdlib Require Import Reals Qreals.
From Stdlib Require Lra.
Import ListNotations.

Set Implicit Arguments.

(** ** Exceptions and the output stream *)

Inductive exn : Type :=
| ValueError
| IndexError
| NetworkXError.

Inductive res (A : Type) : Type :=
| Ok (a : A)
| Raise (e : exn).
Arguments Ok {A} a.
Arguments Raise {A} e.

(** A computation writes lines to the status stream and then returns a value
    or raises. *)
Definition py (A : Type) : Type := (list string * res A)%type.

Definition ret {A} (a : A) : py A := ([], Ok a).
Definition print (s : string) : py unit := ([s], Ok tt).
Definition lift {A} (r : res A) : py A := ([], r).

Definition bind {A B} (c : py A) (f : A -> py B) : py B :=
  match c with
  | (o, Ok a) => let (o', r) := f a in (o ++ o', r)
  | (o, Raise e) => (o, Raise e)
  end.

Definition rbind {A B} (c : res A) (f : A -> res B) : res B :=
  match c with
  | Ok a => f a
  | Raise e => Raise e
  end.

Declare Scope py_scope.
Delimit Scope py_scope with py.
Notation "x <- c ;; k" := (bind c (fun x => k))
  (at level 61, c at next level, right associativity) : py_scope.
Notation "c ;; k" := (bind c (fun _ => k))
  (at level 61, right associativity) : py_scope.
Notation "x <-- c ;; k" := (rbind c (fun x => k))
  (at level 61, c at next level, right associativity) : py_scope.

Definition result {A} (c : py A) : res A := snd c.

(** ** Floating-point values *)

Module Float.

Inductive t : Type :=
| NaN
| NInf
| PInf
| Fin (q : Q).

(** Finite results are kept in lowest terms, so that equal numbers are
    equal terms. *)
Definition fin (q : Q) : t := Fin (Qred q).

Definition of_nat (n : nat) : t := Fin (inject_Z (Z.of_nat n)).

Definition isnan (x : t) : bool :=
  match x with NaN => true | _ => false end.

Definition isfinite (x : t) : bool :=
  match x with Fin _ => true | _ => false end.

Definition Qltb (a b : Q) : bool :=
  match (a ?= b)%Q with Lt => true | _ => false end.

Definition Qeqb (a b : Q) : bool :=
  match (a ?= b)%Q with Eq => true | _ => false end.

Definition add (x y : t) : t :=
  match x, y with
  | NaN, _ | _, NaN => NaN
  | PInf, NInf | NInf, PInf => NaN
  | PInf, _ | _, PInf => PInf
  | NInf, _ | _, NInf => NInf
  | Fin a, Fin b => fin (a + b)
  end.

Definition sub (x y : t) : t :=
  match x, y with
  | NaN, _ | _, NaN => NaN
  | PInf, PInf | NInf, NInf => NaN
  | PInf, _ | _, NInf => PInf
  | NInf, _ | _, PInf => NInf
  | Fin a, Fin b => fin (a - b)
  end.

(** Division never raises on arrays: [0/0] and [inf/inf] are [NaN], a
    non-zero number over zero is an infinity. *)
Definition div (x y : t) : t :=
  match x, y with
  | NaN, _ | _, NaN => NaN
  | Fin a, Fin b =>
      if Qeqb b 0 then
        match (a ?= 0)%Q with Eq => NaN | Gt => PInf | Lt => NInf end
      else fin (a / b)
  | Fin _, _ => Fin 0
  | PInf, Fin b => if Qltb b 0 then NInf else PInf
  | NInf, Fin b => if Qltb b 0 then PInf else NInf
  | _, _ => NaN
  end.

(** Multiplication: [0 * inf] is [NaN]. *)
Definition mul (x y : t) : t :=
  match x, y with
  | NaN, _ | _, NaN => NaN
  | Fin a, Fin b => fin (a * b)
  | Fin a, PInf | PInf, Fin a =>
      match (a ?= 0)%Q with Eq => NaN | Gt => PInf | Lt => NInf end
  | Fin a, NInf | NInf, Fin a =>
      match (a ?= 0)%Q with Eq => NaN | Gt => NInf | Lt => PInf end
  | PInf, PInf | NInf, NInf => PInf
  | PInf, NInf | NInf, PInf => NInf
  end.

(** [np.sign]: -1, 0 or 1, and [NaN] for [NaN]. *)
Definition sign (x : t) : t :=
  match x with
  | NaN => NaN
  | PInf => Fin 1
  | NInf => Fin (-1)
  | Fin a => match (a ?= 0)%Q with Eq => Fin 0 | Gt => Fin 1 | Lt => Fin (-1) end
  end.

(** Comparisons: every comparison with [NaN] is false, except [!=]. *)
Definition ltb (x y : t) : bool :=
  match x, y with
  | NaN, _ | _, NaN => false
  | _, NInf => false
  | NInf, _ => true
  | PInf, _ => false
  | _, PInf => true
  | Fin a, Fin b => Qltb a b
  end.

Definition eqb (x y : t) : bool :=
  match x, y with
  | NInf, NInf | PInf, PInf => true
  | Fin a, Fin b => Qeqb a b
  | _, _ => false
  end.

Definition gtb (x y : t) : bool := ltb y x.
Definition leb (x y : t) : bool := ltb x y || eqb x y.
Definition neb (x y : t) : bool := negb (eqb x y).

(** [np.minimum], [np.maximum]: element-wise, propagating [NaN]. *)
Definition minimum (x y : t) : t :=
  if isnan x || isnan y then NaN else if ltb y x then y else x.

Definition maximum (x y : t) : t :=
  if isnan x || isnan y then NaN else if ltb x y then y else x.

End Float.

Abbreviation float := Float.t.
Abbreviation NaN := Float.NaN.
Abbreviation PInf := Float.PInf.
Abbreviation NInf := Float.NInf.
Abbreviation Fin := Float.Fin.

(** ** Arrays *)

Abbreviation vector := (list float).
Abbreviation matrix := (list (list float)).

Definition get (A : matrix) (r c : nat) : float := nth c (nth r A []) NaN.

(** [A.shape == (n, n)] *)
Definition square {T} (n : nat) (A : list (list T)) : Prop :=
  length A = n /\ Forall (fun row => length row = n) A.

Definition symmetric (n : nat) (A : matrix) : Prop :=
  forall i j, (i < n)%nat -> (j < n)%nat -> get A i j = get A j i.

(** Apply [f r c x] to every entry [x] at row [r], column [c]. *)
Definition mapi {A B} (f : nat -> A -> B) (l : list A) : list B :=
  map (fun p => f (fst p) (snd p)) (combine (seq 0 (length l)) l).

Definition mapij {T U} (f : nat -> nat -> T -> U) (A : list (list T))
  : list (list U) :=
  mapi (fun r row => mapi (fun c x => f r c x) row) A.

Definition map_entries (f : float -> float) (A : matrix) : matrix :=
  map (map f) A.

(** [A.flatten()], row-major *)
Definition entries (A : matrix) : vector := concat A.

(** [A.max()]: raises on an empty array, propagates [NaN]. *)
Definition np_max (l : vector) : res float :=
  match l with
  | [] => Raise ValueError
  | x :: xs => Ok (fold_left Float.maximum xs x)
  end.

(** [np.nanmax]: raises on an empty array, ignores [NaN]; all-[NaN] gives
    [NaN]. *)
Definition np_nanmax (l : vector) : res float :=
  match l with
  | [] => Raise ValueError
  | _ =>
      match filter (fun x => negb (Float.isnan x)) l with
      | [] => Ok NaN
      | x :: xs => Ok (fold_left Float.maximum xs x)
      end
  end.

Definition np_sum (l : vector) : float := fold_left Float.add l (Fin 0).

(** [np.mean]: the mean of an empty array is [NaN] (a warning, no
    exception). *)
Definition np_mean (l : vector) : float :=
  Float.div (np_sum l) (Float.of_nat (length l)).

(** ** Neighbour graphs and shortest paths *)

(** [kneighbors_graph(X, k, mode='connectivity', include_self=True)] returns
    a sparse matrix whose stored entries are all 1: row [i] marks the [k]
    nearest rows of [X] to row [i], row [i] itself among the candidates. *)
Abbreviation connectivity := (list (list bool)).

Definition conn (A : connectivity) (i j : nat) : bool :=
  nth j (nth i A []) false.

(** [nx.from_scipy_sparse_matrix(A)]: an undirected graph on the nodes
    [0 .. n-1] with an edge [{i, j}] for every stored entry [(i, j)]; the
    matrix must be square. The graph is kept as its symmetric adjacency. *)
Definition is_square (A : connectivity) : bool :=
  forallb (fun row => Nat.eqb (length row) (length A)) A.

Definition from_scipy_sparse_matrix (A : connectivity) : res connectivity :=
  if is_square A then
    Ok (mapij (fun i j b => b || conn A j i) A)
  else Raise NetworkXError.

(** [nx.to_numpy_matrix(G, nonedge=np.inf)] with unit weights *)
Definition to_numpy_matrix (G : connectivity) : matrix :=
  map (map (fun b : bool => if b then Fin 1 else PInf)) G.

(** One round of the relaxation
    [A = np.minimum(A, A[i, :] + A[:, i])]. *)
Definition relax (A : matrix) (i : nat) : matrix :=
  mapij (fun r c x => Float.minimum x (Float.add (get A i c) (get A r i))) A.

(** [nx.floyd_warshall_numpy(G)] *)
Definition floyd_warshall_numpy (G : connectivity) : matrix :=
  let A := to_numpy_matrix G in
  let A := mapij (fun r c x => if Nat.eqb r c then Fin 0 else x) A in
  fold_left relax (seq 0 (length A)) A.

(** ** [setup_for_OT_reconstruction] *)

(** [sp[sp != np.inf]] *)
Definition not_inf (sp : matrix) : vector :=
  filter (fun x => Float.neb x PInf) (entries sp).

(** [sp[sp > m] = m] *)
Definition threshold (m : float) (sp : matrix) : matrix :=
  map_entries (fun x => if Float.gtb x m then m else x) sp.

(** [cost = sp / sp.max(); cost -= np.mean(cost)] *)
Definition normalize (sp : matrix) : res matrix :=
  (m <-- np_max (entries sp) ;;
   Ok (map_entries (fun x => Float.div x m) sp))%py.

Definition center (cost : matrix) : matrix :=
  let mu := np_mean (entries cost) in
  map_entries (fun x => Float.sub x mu) cost.

Definition cost_matrix (sp : matrix) : res matrix :=
  (cost <-- normalize sp ;; Ok (center cost))%py.

Section Reconstruction.

(** The neighbour search of scikit-learn. *)
Variable kneighbors_graph : list (list Q) -> nat -> res connectivity.

(** The rendering of [round(time.time() - start_time, 2)]. *)
Variable elapsed : string.

Definition shortest_paths (X : list (list Q)) (k : nat) : res matrix :=
  (A <-- kneighbors_graph X k ;;
   G <-- from_scipy_sparse_matrix A ;;
   Ok (floyd_warshall_numpy G))%py.

Definition setup_for_OT_reconstruction
    (dge locations : list (list Q))
    (num_neighbors_source num_neighbors_target : nat)
  : py (matrix * matrix) :=
  (print "Setting up for reconstruction ... " ;;
   sp_locations <- lift (shortest_paths locations num_neighbors_target) ;;
   sp_expression <- lift (shortest_paths dge num_neighbors_source) ;;
   sp_expression_max <- lift (np_nanmax (not_inf sp_expression)) ;;
   let sp_expression := threshold sp_expression_max sp_expression in
   cost_locations <- lift (cost_matrix sp_locations) ;;
   cost_expression <- lift (cost_matrix sp_expression) ;;
   print ("done ( " ++ elapsed ++ " seconds )") ;;
   ret (cost_expression, cost_locations))%py.

End Reconstruction.

(** A reference neighbour search: squared Euclidean distances, the [k]
    nearest rows, ties resolved towards the lower row index. *)
Module KNN.

Definition sqdist (x y : list Q) : Q :=
  fold_left Qplus
    (map (fun p => (fst p - snd p) * (fst p - snd p))%Q (combine x y)) 0%Q.

Fixpoint insert (d : Q) (i : nat) (l : list (Q * nat)) : list (Q * nat) :=
  match l with
  | [] => [(d, i)]
  | (d', i') :: rest =>
      if Float.Qltb d d' then (d, i) :: l else (d', i') :: insert d i rest
  end.

Definition nearest (X : list (list Q)) (x : list Q) (k : nat) : list nat :=
  let ranked :=
    fold_left (fun acc p => insert (sqdist x (snd p)) (fst p) acc)
      (combine (seq 0 (length X)) X) [] in
  map snd (firstn k ranked).

Definition kneighbors_graph (X : list (list Q)) (k : nat) : res connectivity :=
  if (Nat.eqb (length X) 0 || Nat.eqb k 0 || Nat.ltb (length X) k)%bool
  then Raise ValueError
  else
    Ok (map (fun x =>
               let nn := nearest X x k in
               map (fun j => existsb (Nat.eqb j) nn) (seq 0 (length X)))
            X).

End KNN.

(** ** Exact sums *)

(** The number held by a finite value. *)
Definition val (x : float) : Q := match x with Fin q => q | _ => 0%Q end.

Definition Qsum (l : list Q) : Q := fold_right Qplus 0%Q l.

(** ** Correlation coefficients *)

(** A Pearson coefficient is a quotient by a square root, in general not a
    rational number. A coefficient [r] is stored as the exact value of
    [r * |r|], which is rational, determines [r], has the sign of [r] and
    orders coefficients exactly as [r] does: [r < 0.7] is [r * |r| < 0.49],
    [r = 1] is [r * |r| = 1], and [r] lies in [[-1, 1]] when [r * |r|]
    does. An undefined coefficient is [NaN]. *)
Record coef : Type := SignedSquare { signed_square : float }.

Definition coef_nan : coef := SignedSquare NaN.

Definition coef_of_Q (q : Q) : coef := SignedSquare (Float.fin (q * Qabs q)).

(** The real number that the stored value [s] stands for: the [r] with
    [r * |r| = s]. *)
Definition coef_real (s : Q) : R :=
  if Qlt_le_dec s 0 then (- sqrt (Q2R (- s)))%R else sqrt (Q2R s).

Definition coef_ltb (a b : coef) : bool :=
  Float.ltb (signed_square a) (signed_square b).

Definition coef_gtb (a b : coef) : bool := coef_ltb b a.

Definition coef_isnan (a : coef) : bool := Float.isnan (signed_square a).

(** [np.max] on an array of coefficients *)
Definition coef_max (l : list coef) : res coef :=
  (m <-- np_max (map signed_square l) ;; Ok (SignedSquare m))%py.

(** [np.argmax]: the first index of the largest value; the first [NaN] if
    there is one. *)
Fixpoint argmax_from (l : vector) (i : nat) (best : float) (besti : nat) : nat :=
  match l with
  | [] => besti
  | x :: xs =>
      if Float.isnan best then besti
      else if Float.gtb x best || Float.isnan x then argmax_from xs (S i) x i
      else argmax_from xs (S i) best besti
  end.

Definition np_argmax (l : vector) : res nat :=
  match l with
  | [] => Raise ValueError
  | x :: xs => Ok (argmax_from xs 1 x 0)
  end.

Definition coef_argmax (l : list coef) : res nat :=
  np_argmax (map signed_square l).

(** ** Indexing, masks and loops *)

(** [a[i]] with an integer index: negative indices count from the end. *)
Definition np_index {T} (l : list T) (i : Z) : res T :=
  let n := Z.of_nat (length l) in
  let j := if (i <? 0)%Z then (i + n)%Z else i in
  if ((0 <=? j) && (j <? n))%Z then
    match nth_error l (Z.to_nat j) with
    | Some x => Ok x
    | None => Raise IndexError
    end
  else Raise IndexError.

(** [a[mask]] with a boolean mask of the length of [a] *)
Definition compress {T} (mask : list bool) (l : list T) : list T :=
  map snd (filter fst (combine mask l)).

Definition np_mask {T} (l : list T) (mask : list bool) : res (list T) :=
  if Nat.eqb (length l) (length mask) then Ok (compress mask l)
  else Raise IndexError.

(** [np.where(mask)[0]] *)
Definition np_where (mask : list bool) : list nat :=
  compress mask (seq 0 (length mask)).

Fixpoint mapM {T U} (f : T -> res U) (l : list T) : res (list U) :=
  match l with
  | [] => Ok []
  | x :: xs => (y <-- f x ;; ys <-- mapM f xs ;; Ok (y :: ys))%py
  end.

(** [a[indices]] with an array of non-negative indices *)
Definition np_take {T} (l : list T) (indices : list nat) : res (list T) :=
  mapM (fun i => match nth_error l i with
                 | Some x => Ok x
                 | None => Raise IndexError
                 end) indices.

(** [for x in l: s = body(s, x)] *)
Fixpoint for_each {T St} (l : list T) (body : St -> T -> res St) (s : St)
  : res St :=
  match l with
  | [] => Ok s
  | x :: xs => (s' <-- body s x ;; for_each xs body s')%py
  end.

(** [range(a, b)] *)
Definition py_range (a b : Z) : list Z :=
  map (fun i => (a + Z.of_nat i)%Z) (seq 0 (Z.to_nat (b - a))).

(** [A.shape[1]] *)
Definition ncols (A : matrix) : nat := length (hd [] A).

Definition column (j : nat) (A : matrix) : vector :=
  map (fun row => nth j row NaN) A.

(** [np.mean(A, axis=0)] for [A] with [cols] columns: an array of [cols] means;
    when [A] has no rows every mean is [NaN]. *)
Definition mean_axis0 (cols : nat) (A : matrix) : vector :=
  map (fun j => np_mean (column j A)) (seq 0 cols).

(** ** Pearson correlation *)

Definition Qmean (l : list Q) : Q :=
  (Qsum l / inject_Z (Z.of_nat (length l)))%Q.

Definition deviations (l : list Q) : list Q :=
  map (fun v => v - Qmean l)%Q l.

Definition dot (x y : list Q) : Q :=
  Qsum (map (fun p => fst p * snd p)%Q (combine x y)).

(** The coefficient of two finite sequences:
    [sum(xm * ym) / sqrt(sum(xm^2) * sum(ym^2))], undefined when one of the
    sequences is constant. *)
Definition pearson_coef (x y : list Q) : coef :=
  let xm := deviations x in
  let ym := deviations y in
  let r_num := dot xm ym in
  let den2 := (dot xm xm * dot ym ym)%Q in
  if Float.Qeqb den2 0 then coef_nan
  else SignedSquare (Float.fin (r_num * Qabs r_num / den2)).

Section Archetypes.

(** The two-sided p-value of the correlation test, a function of the sample
    size and of the coefficient. *)
Variable pvalue : nat -> coef -> float.

(** [hierarchy.fcluster(hierarchy.ward(sdge), num_clusters,
    criterion='maxclust')] *)
Variable fcluster_ward : matrix -> Z -> res (list Z).

(** [(x == x[0]).all()]: every value compares equal to the first one. A
    sequence that holds a [NaN] is not constant in this sense. *)
Definition all_equal (x : vector) : bool :=
  forallb (fun v => Float.eqb v (hd NaN x)) x.

(** The statistic of two finite sequences of three values or more, neither of
    them constant. *)
Definition pearson_stat (x y : vector) : coef * float :=
  let r := pearson_coef (map val x) (map val y) in
  (r, pvalue (length x) r).

(** The statistic of two sequences of two values:
    [np.sign(x[1] - x[0]) * np.sign(y[1] - y[0])], which is its own signed
    square, with the p-value 1. *)
Definition pearson_pair (x y : vector) : coef * float :=
  (SignedSquare
     (Float.mul (Float.sign (Float.sub (nth 1 x NaN) (nth 0 x NaN)))
                (Float.sign (Float.sub (nth 1 y NaN) (nth 0 y NaN)))),
   Fin 1).

(** [scipy.stats.pearsonr(x, y)]: raises when the sequences differ in length
    or hold fewer than two values; the coefficient and the p-value are [NaN]
    when a sequence is constant; two values are settled by their signs; and
    otherwise a value that is not finite makes the norm of the deviations
    raise. *)
Definition pearsonr (x y : vector) : res (coef * float) :=
  if negb (Nat.eqb (length x) (length y)) then Raise ValueError
  else if Nat.ltb (length x) 2 then Raise ValueError
  else if all_equal x || all_equal y then Ok (coef_nan, NaN)
  else if Nat.eqb (length x) 2 then Ok (pearson_pair x y)
  else if forallb Float.isfinite x && forallb Float.isfinite y
  then Ok (pearson_stat x y)
  else Raise ValueError.

(** [np.mean(sdge[np.where(clusters == x)[0], :], axis=0)] *)
Definition arch_comp (sdge : matrix) (clusters : list Z) (x : Z) : res vector :=
  (rows <-- np_take sdge (np_where (map (fun c => Z.eqb c x) clusters)) ;;
   Ok (mean_axis0 (ncols sdge) rows))%py.

(** The body of the loop over the genes: the correlation of a gene with the
    archetype of its own cluster. *)
Definition corr_body (sdge archetypes : matrix) (clusters : list Z)
    (gene_corrs : list coef) (gene : nat) : res (list coef) :=
  (c <-- np_index clusters (Z.of_nat gene) ;;
   archetype <-- np_index archetypes (c - 1) ;;
   rp <-- pearsonr (nth gene sdge []) archetype ;;
   Ok (gene_corrs ++ [fst rp]))%py.

(** What one round of that loop appends. *)
Definition gene_corr (sdge archetypes : matrix) (clusters : list Z)
    (gene : nat) : res coef :=
  (c <-- np_index clusters (Z.of_nat gene) ;;
   archetype <-- np_index archetypes (c - 1) ;;
   rp <-- pearsonr (nth gene sdge []) archetype ;;
   Ok (fst rp))%py.

Definition find_spatial_archetypes (num_clusters : Z) (sdge : matrix)
  : py (matrix * list Z * list coef) :=
  (print "Finding gene archetypes ... " ;;
   clusters <- lift (fcluster_ward sdge num_clusters) ;;
   archetypes <- lift (mapM (arch_comp sdge clusters)
                            (py_range 1 (num_clusters + 1))) ;;
   gene_corrs <- lift (for_each (seq 0 (length sdge))
                                (corr_body sdge archetypes clusters) []) ;;
   print "done" ;;
   ret (archetypes, clusters, gene_corrs))%py.

Definition no_genes_message : string :=
  "No genes with significant correlation were found at the current p-value threshold.".

(** The body of the loop over the genes: the coefficient and the p-value of
    a gene against the chosen archetype, each from a call of its own. *)
Definition genes_body (sdge archetypes : matrix) (archetype : Z)
    (acc : list coef * list float) (g : nat) : res (list coef * list float) :=
  (a <-- np_index archetypes archetype ;;
   rp <-- pearsonr (nth g sdge []) a ;;
   a' <-- np_index archetypes archetype ;;
   rp' <-- pearsonr (nth g sdge []) a' ;;
   Ok (fst acc ++ [fst rp], snd acc ++ [snd rp']))%py.

Definition get_genes_from_spatial_archetype
    (sdge : matrix) (gene_names : list string) (archetypes : matrix)
    (archetype : Z) (pval_threshold : float)
  : py (option (list string)) :=
  (corrs <- lift (for_each (seq 0 (length sdge))
                           (genes_body sdge archetypes archetype) ([], [])) ;;
   let all_corrs := fst corrs in
   let all_corrs_p := snd corrs in
   let positive := map (fun r => coef_gtb r (coef_of_Q 0)) all_corrs in
   let indices :=
     np_where (map (fun p => Float.leb p pval_threshold)
                   (compress positive all_corrs_p)) in
   if Nat.eqb (length indices) 0 then
     print no_genes_message ;; ret None
   else
     selected <- lift (np_mask gene_names positive) ;;
     genes <- lift (np_take selected indices) ;;
     ret (Some genes))%py.

Definition no_archetype_message : string :=
  "No significant correlation between the gene and the spatial archetypes was found.".

(** The body of the loop over the archetypes: the correlation of the query
    gene with one archetype. *)
Definition related_body (sdge archetypes : matrix) (gene : Z)
    (arch_corrs : list coef) (archetype : nat) : res (list coef) :=
  (row <-- np_index sdge gene ;;
   rp <-- pearsonr row (nth archetype archetypes []) ;;
   Ok (arch_corrs ++ [fst rp]))%py.

Definition find_spatially_related_genes
    (sdge : matrix) (gene_names : list string) (archetypes : matrix)
    (gene : Z) (pval_threshold : float)
  : py (option (list string)) :=
  (arch_corrs <- lift (for_each (seq 0 (length archetypes))
                                (related_body sdge archetypes gene) []) ;;
   best <- lift (coef_max arch_corrs) ;;
   if coef_ltb best (coef_of_Q (7 # 10)) then
     print no_archetype_message ;; ret None
   else
     archetype <- lift (coef_argmax arch_corrs) ;;
     get_genes_from_spatial_archetype sdge gene_names archetypes
       (Z.of_nat archetype) pval_threshold)%py.

End Archetypes.

(** * Specifications *)

(** ** Shortest paths and cost matrices *)

(** A hop count: a non-negative number, or [+inf] for an unreachable pair. *)
Definition hops (x : float) : Prop :=
  x = PInf \/ exists q, x = Fin q /\ (0 <= q)%Q.

(** What [floyd_warshall_numpy] returns on an undirected graph with [n]
    nodes. *)
Record shortest_path_matrix (n : nat) (A : matrix) : Prop := {
  spm_square : square n A;
  spm_symmetric : symmetric n A;
  spm_diagonal : forall i, (i < n)%nat -> get A i i = Fin 0;
  spm_hops : forall i j, (i < n)%nat -> (j < n)%nat -> hops (get A i j)
}.

Definition undirected (n : nat) (G : connectivity) : Prop :=
  square n G /\
  forall i j, (i < n)%nat -> (j < n)%nat -> conn G i j = conn G j i.

Definition finite (x : float) : Prop := Float.isfinite x = true.

(** [m] is the largest finite entry of [sp]. *)
Definition max_finite (m : Q) (l : vector) : Prop :=
  In (Fin m) l /\ forall q, In (Fin q) l -> (q <= m)%Q.

(** Every [+inf] entry replaced by [m], every other entry kept. *)
Definition clip_infinite (m : Q) (sp : matrix) : matrix :=
  map_entries (fun x => match x with PInf => Fin m | _ => x end) sp.

Definition all_nan (A : matrix) : Prop := Forall (fun x => x = NaN) (entries A).

(** The inputs of the builder's contract: the same number [N] of rows in
    both spaces, and positive neighbour counts below [N]. *)
Definition valid_input (dge locations : list (list Q)) (ks kt : nat) : Prop :=
  length dge = length locations /\
  (0 < ks)%nat /\ (0 < kt)%nat /\
  (ks + 1 <= length dge)%nat /\ (kt + 1 <= length locations)%nat.

(** ** Archetypes and gene selection *)

(** [genes] keeps some elements of [names], in the order of [names]. *)
Inductive subseq {T : Type} : list T -> list T -> Prop :=
| subseq_nil : subseq [] []
| subseq_skip x l1 l2 : subseq l1 l2 -> subseq l1 (x :: l2)
| subseq_keep x l1 l2 : subseq l1 l2 -> subseq (x :: l1) (x :: l2).

(** The genes kept by the selection rule: positive coefficient and p-value
    at most the threshold, in the order of [gene_names]. *)
Definition significant (pval_threshold : float) (gene_names : list string)
    (stats : list (coef * float)) : list string :=
  map fst
    (filter (fun x => coef_gtb (fst (snd x)) (coef_of_Q 0)
                      && Float.leb (snd (snd x)) pval_threshold)
            (combine gene_names stats)).

Definition below (m : Q) (x : float) : Prop := exists q, x = Fin q /\ (q < m)%Q.
Definition at_most (m : Q) (x : float) : Prop := exists q, x = Fin q /\ (q <= m)%Q.

(** Entry [i] of [l] is [m], every earlier entry is smaller and no later
    entry is larger: the maximum, ties resolved towards the first index. *)
Definition first_max_at (l : vector) (i : nat) (m : Q) : Prop :=
  exists l1 l2, l = l1 ++ Fin m :: l2 /\ length l1 = i /\
                Forall (below m) l1 /\ Forall (at_most m) l2.

(** Entry [i] of [l] is the first [NaN] of [l]. *)
Definition first_nan_at (l : vector) (i : nat) : Prop :=
  exists l1 l2, l = l1 ++ NaN :: l2 /\ length l1 = i /\
                Forall (fun x => Float.isnan x = false) l1.


(** The rows of [sdge] assigned to cluster [x]. *)
Definition members (sdge : matrix) (clusters : list Z) (x : Z) : matrix :=
  map fst (filter (fun p => Z.eqb (snd p) x) (combine sdge clusters)).




(** The selection rule for one gene: positive coefficient and p-value at
    most the threshold. *)
Definition is_significant (pval_threshold : float) (rp : coef * float) : bool :=
  coef_gtb (fst rp) (coef_of_Q 0) && Float.leb (snd rp) pval_threshold.

(** ** Walks in a neighbour graph *)

(** A walk of [l] edges from [r] to [c] in the graph [G] on the nodes
    [0 .. n-1], every node after [r] and before the last edge below [k]. With
    [k = n] this is any walk of the graph. *)
Inductive walk (G : connectivity) (n k : nat) : nat -> nat -> nat -> Prop :=
| walk_here r : (r < n)%nat -> walk G n k r r 0
| walk_edge r c :
    (r < n)%nat -> (c < n)%nat -> conn G r c = true -> walk G n k r c 1
| walk_step r m c l :
    (r < n)%nat -> (m < k)%nat -> (m < n)%nat -> conn G r m = true ->
    walk G n k m c l -> walk G n k r c (S l).

(** Any two nodes are joined by a walk. *)
Definition connected (G : connectivity) (n : nat) : Prop :=
  forall r c, (r < n)%nat -> (c < n)%nat -> exists l, walk G n n r c l.

(** Two distinct nodes are neighbours. *)
Definition has_proper_edge (G : connectivity) (n : nat) : Prop :=
  exists r c, (r < n)%nat /\ (c < n)%nat /\ r <> c /\ conn G r c = true.

(** The number of hops [l] as a floating-point distance. *)
Definition hop_count (l : nat) : Q := inject_Z (Z.of_nat l).

(** Every finite entry is the length of a walk. *)
Definition walks_sound (G : connectivity) (n : nat) (A : matrix) : Prop :=
  forall r c q, (r < n)%nat -> (c < n)%nat -> get A r c = Fin q ->
    exists l, walk G n n r c l /\ (q == hop_count l)%Q.

(** No entry exceeds the length of a walk through the nodes below [k]. *)
Definition walks_complete (G : connectivity) (n k : nat) (A : matrix) : Prop :=
  forall r c l, walk G n k r c l ->
    exists q, get A r c = Fin q /\ (q <= hop_count l)%Q.

(** The undirected neighbour graph that the set-up builds from the rows of
    [X]. *)
Definition neighbour_graph
    (kneighbors_graph : list (list Q) -> nat -> res connectivity)
    (X : list (list Q)) (k : nat) : res connectivity :=
  (A <-- kneighbors_graph X k ;; from_scipy_sparse_matrix A)%py.

(** * Concrete inputs *)

Definition pts (l : list (list Z)) : list (list Q) := map (map inject_Z) l.

(** One cell at one location. *)
Definition one_cell_dge : list (list Q) := pts [[5]]%Z.
Definition one_cell_locations : list (list Q) := pts [[0; 0]]%Z.

(** Four cells on a line, at growing distances so that no two neighbours of
    a cell are equally far; in physical space either the same line, or two
    pairs far apart. *)
Definition line_dge : list (list Q) := pts [[0]; [1]; [3]; [6]]%Z.
Definition line_locations : list (list Q) :=
  pts [[0; 0]; [1; 0]; [3; 0]; [6; 0]]%Z.
Definition pairs_locations : list (list Q) :=
  pts [[0; 0]; [1; 0]; [10; 0]; [11; 0]]%Z.

(** Three cells, three locations on a line. *)
Definition three_dge : list (list Q) := pts [[0]; [1]; [3]]%Z.
Definition three_locations : list (list Q) := pts [[0; 0]; [1; 0]; [3; 0]]%Z.

Definition nan_matrix (n : nat) : matrix := repeat (repeat NaN n) n.

Definition two_dge : list (list Q) := pts [[0]; [1]]%Z.
Definition two_locations : list (list Q) := pts [[0; 0]; [1; 0]]%Z.

(** The cost matrix of four points on a line, each joined to its nearest
    neighbour. *)
Definition line_costs : matrix :=
  [[Fin (-5 # 12); Fin (-1 # 12); Fin (1 # 4); Fin (7 # 12)];
   [Fin (-1 # 12); Fin (-5 # 12); Fin (-1 # 12); Fin (1 # 4)];
   [Fin (1 # 4); Fin (-1 # 12); Fin (-5 # 12); Fin (-1 # 12)];
   [Fin (7 # 12); Fin (1 # 4); Fin (-1 # 12); Fin (-5 # 12)]].

(** The hop distances of four points on a line. *)
Definition line_paths : matrix :=
  [[Fin 0; Fin 1; Fin 2; Fin 3];
   [Fin 1; Fin 0; Fin 1; Fin 2];
   [Fin 2; Fin 1; Fin 0; Fin 1];
   [Fin 3; Fin 2; Fin 1; Fin 0]].

(** The shortest-path matrix of two nodes that are not joined. *)
Definition isolated_pair : matrix := [[Fin 0; PInf]; [PInf; Fin 0]].

Definition status_lines : list string :=
  ["Setting up for reconstruction ... "; "done ( 0.0 seconds )"]%string.

Ltac in_cases H :=
  repeat (destruct H as [H | H]; [try discriminate H; try (injection H as <-) |]);
  try contradiction.

Definition floats (l : list (list Z)) : matrix :=
  map (map (fun z => Fin (inject_Z z))) l.

(** A p-value function for the examples. The exact p-value is 0 when the
    coefficient is 1 or -1 on more than two samples and is positive
    otherwise; every positive p-value is rendered as 1. It is the p-value of
    the exact coefficient: in double precision a coefficient of 1 can come
    out as the number just below 1, whose p-value is small and positive, so
    that a selection at the threshold 0 need not carry over; a selection at
    the threshold 1 keeps every gene of positive coefficient, here as
    there. *)
Definition pvalue_example (n : nat) (r : coef) : float :=
  match signed_square r with
  | Fin s => if Nat.ltb 2 n && Float.Qeqb (Qabs s) 1 then Fin 0 else Fin 1
  | _ => NaN
  end.

(** A clustering routine that answers with a given assignment. *)
Definition labels (l : list Z) : matrix -> Z -> res (list Z) := fun _ _ => Ok l.

Definition two_gene_sdge : matrix := floats [[0; 1; 2]; [2; 0; 1]]%Z.
Definition four_gene_sdge : matrix :=
  floats [[5; 5; 5]; [0; 1; 2]; [0; 2; 4]; [3; 1; 0]]%Z.
Definition four_gene_names : list string := ["a"; "b"; "c"; "d"]%string.
Definition three_gene_sdge : matrix := floats [[0; 1; 2]; [0; 2; 4]; [3; 1; 0]]%Z.
Definition three_gene_names : list string := ["a"; "b"; "c"]%string.

Definition archetype_done : list string :=
  ["Finding gene archetypes ... "; "done"]%string.

Definition rising_archetype : matrix := floats [[0; 2; 4]]%Z.

Definition rising_stats : list (coef * float) :=
  [(coef_nan, NaN); (coef_of_Q 1, Fin 0); (coef_of_Q 1, Fin 0);
   (SignedSquare (Fin (-27 # 28)), Fin 1)].

Definition falling_rising_archetypes : matrix :=
  floats [[2; 1; 0]; [0; 1; 2]; [0; 3; 6]]%Z.

(** * Properties *)

(** ** Indexing *)

Lemma length_mapi A B (f : nat -> A -> B) (l : list A) :
  length (mapi f l) = length l.
Proof.
  unfold mapi. rewrite length_map, length_combine, length_seq. lia.
Qed.

Lemma nth_mapi A B (f : nat -> A -> B) (l : list A) (i : nat) (d : A) (d' : B) :
  (i < length l)%nat -> nth i (mapi f l) d' = f i (nth i l d).
Proof.
  intros Hi. unfold mapi.
  rewrite nth_indep with (d' := f 0%nat d)
    by (rewrite length_map, length_combine, length_seq; lia).
  change (f 0%nat d) with ((fun p => f (fst p) (snd p)) (0%nat, d)).
  rewrite map_nth, combine_nth by (rewrite length_seq; reflexivity).
  rewrite seq_nth by assumption. reflexivity.
Qed.

Lemma nth_mapij T U (f : nat -> nat -> T -> U) (A : list (list T)) r c d d' :
  (r < length A)%nat -> (c < length (nth r A []))%nat ->
  nth c (nth r (mapij f A) []) d' = f r c (nth c (nth r A []) d).
Proof.
  intros Hr Hc. unfold mapij.
  rewrite nth_mapi with (d := []) by assumption.
  rewrite nth_mapi with (d := d) by assumption. reflexivity.
Qed.

Lemma get_mapij f (A : matrix) (r c : nat) :
  (r < length A)%nat -> (c < length (nth r A []))%nat ->
  get (mapij f A) r c = f r c (get A r c).
Proof. apply nth_mapij. Qed.

Lemma nth_map_map T U (f : T -> U) (A : list (list T)) r c d d' :
  (r < length A)%nat -> (c < length (nth r A []))%nat ->
  nth c (nth r (map (map f) A) []) d' = f (nth c (nth r A []) d).
Proof.
  intros Hr Hc.
  rewrite nth_indep with (d' := map f []) by (rewrite length_map; assumption).
  rewrite map_nth.
  rewrite nth_indep with (d' := f d) by (rewrite length_map; assumption).
  apply map_nth.
Qed.

Lemma get_map_entries f (A : matrix) (r c : nat) :
  (r < length A)%nat -> (c < length (nth r A []))%nat ->
  get (map_entries f A) r c = f (get A r c).
Proof. apply nth_map_map. Qed.

Lemma square_row T n (A : list (list T)) r :
  square n A -> (r < n)%nat -> length (nth r A []) = n.
Proof.
  intros [Hl Hrows] Hr. rewrite Forall_forall in Hrows.
  apply Hrows, nth_In. lia.
Qed.

Lemma square_mapij T U n (f : nat -> nat -> T -> U) (A : list (list T)) :
  square n A -> square n (mapij f A).
Proof.
  intros [Hl Hrows]. split.
  - unfold mapij. rewrite length_mapi. assumption.
  - apply Forall_forall. intros row Hin.
    destruct (In_nth _ _ [] Hin) as [r [Hr Hrow]].
    unfold mapij in *. rewrite length_mapi in Hr.
    rewrite nth_mapi with (d := []) in Hrow by assumption.
    subst row. rewrite length_mapi.
    apply square_row with (n := n); [split; assumption | lia].
Qed.

Lemma square_map_map T U n (f : T -> U) (A : list (list T)) :
  square n A -> square n (map (map f) A).
Proof.
  intros [Hl Hrows]. split.
  - rewrite length_map. assumption.
  - apply Forall_map.
    eapply Forall_impl; [| exact Hrows].
    intros row Hrow. rewrite length_map. exact Hrow.
Qed.

Lemma is_square_square (A : connectivity) :
  is_square A = true -> square (length A) A.
Proof.
  unfold is_square. intros H. split; [reflexivity |].
  rewrite forallb_forall in H. apply Forall_forall.
  intros row Hrow. apply Nat.eqb_eq, H, Hrow.
Qed.

Lemma get_in_entries n (A : matrix) i j :
  square n A -> (i < n)%nat -> (j < n)%nat -> In (get A i j) (entries A).
Proof.
  intros Hsq Hi Hj. unfold entries, get.
  apply in_concat. exists (nth i A []). split.
  - apply nth_In. destruct Hsq. lia.
  - apply nth_In. rewrite (square_row Hsq Hi). assumption.
Qed.

Lemma in_entries_get n (A : matrix) x :
  square n A -> In x (entries A) ->
  exists i j, (i < n)%nat /\ (j < n)%nat /\ get A i j = x.
Proof.
  intros Hsq Hin. unfold entries in Hin.
  apply in_concat in Hin. destruct Hin as [row [Hrow Hx]].
  destruct (In_nth _ _ [] Hrow) as [i [Hi Hnth]].
  destruct (In_nth _ _ NaN Hx) as [j [Hj Hnthj]].
  assert (Hi' : (i < n)%nat) by (destruct Hsq; lia).
  exists i, j. repeat split; try assumption.
  - rewrite <- Hnth, (square_row Hsq Hi') in Hj. assumption.
  - unfold get. rewrite Hnth. assumption.
Qed.

(** ** Arithmetic of the floating-point model *)

Lemma Qltb_lt a b : Float.Qltb a b = true <-> (a < b)%Q.
Proof.
  unfold Float.Qltb. rewrite Qlt_alt.
  destruct (a ?= b)%Q; split; congruence.
Qed.

Lemma Qltb_ge a b : Float.Qltb a b = false <-> (b <= a)%Q.
Proof.
  split; intros H.
  - apply Qnot_lt_le. intros Hlt. apply Qltb_lt in Hlt. congruence.
  - destruct (Float.Qltb a b) eqn:E; [| reflexivity].
    apply Qltb_lt in E. exfalso. apply (Qlt_not_le _ _ E H).
Qed.

Lemma Qeqb_eq a b : Float.Qeqb a b = true <-> (a == b)%Q.
Proof.
  unfold Float.Qeqb. rewrite Qeq_alt.
  destruct (a ?= b)%Q; split; congruence.
Qed.

Lemma Qeqb_neq a b : Float.Qeqb a b = false <-> ~ (a == b)%Q.
Proof.
  rewrite <- Qeqb_eq. destruct (Float.Qeqb a b); split; congruence.
Qed.

Lemma fin_eq a b : (a == b)%Q -> Float.fin a = Float.fin b.
Proof. intros H. unfold Float.fin. f_equal. apply Qred_complete, H. Qed.

Lemma fin_zero a : (a == 0)%Q -> Float.fin a = Fin 0.
Proof. intros H. rewrite (fin_eq H). reflexivity. Qed.

Lemma add_comm x y : Float.add x y = Float.add y x.
Proof.
  destruct x, y; simpl; try reflexivity.
  apply fin_eq, Qplus_comm.
Qed.

Lemma hops_add x y : hops x -> hops y -> hops (Float.add x y).
Proof.
  intros [-> | [a [-> Ha]]] [-> | [b [-> Hb]]]; simpl;
    try (left; reflexivity).
  right. eexists. split; [reflexivity |].
  rewrite Qred_correct. lra.
Qed.

Lemma hops_minimum x y : hops x -> hops y -> hops (Float.minimum x y).
Proof.
  intros Hx Hy. unfold Float.minimum.
  assert (Float.isnan x = false) as ->
      by (destruct Hx as [-> | [a [-> _]]]; reflexivity).
  assert (Float.isnan y = false) as ->
      by (destruct Hy as [-> | [a [-> _]]]; reflexivity).
  simpl. destruct (Float.ltb y x); assumption.
Qed.

Lemma minimum_zero y : hops y -> Float.minimum (Fin 0) y = Fin 0.
Proof.
  intros [-> | [b [-> Hb]]]; [reflexivity |].
  unfold Float.minimum. simpl.
  assert (Float.Qltb b 0 = false) as -> by (apply Qltb_ge; assumption).
  reflexivity.
Qed.

(** ** Shortest-path matrices *)

Lemma get_relax n (A : matrix) i r c :
  square n A -> (r < n)%nat -> (c < n)%nat ->
  get (relax A i) r c =
  Float.minimum (get A r c) (Float.add (get A i c) (get A r i)).
Proof.
  intros Hsq Hr Hc. unfold relax.
  rewrite get_mapij; [reflexivity | destruct Hsq; lia |].
  rewrite (square_row Hsq Hr). assumption.
Qed.

Lemma relax_spm n (A : matrix) i :
  shortest_path_matrix n A -> (i < n)%nat ->
  shortest_path_matrix n (relax A i).
Proof.
  intros [Hsq Hsym Hdiag Hhops] Hi. split.
  - apply square_mapij, Hsq.
  - intros r c Hr Hc.
    rewrite !(get_relax _ Hsq) by assumption.
    rewrite (Hsym r c), (Hsym i c), (Hsym r i) by assumption.
    f_equal. apply add_comm.
  - intros r Hr. rewrite (get_relax _ Hsq) by assumption.
    rewrite Hdiag by assumption.
    apply minimum_zero, hops_add; apply Hhops; assumption.
  - intros r c Hr Hc. rewrite (get_relax _ Hsq) by assumption.
    apply hops_minimum; [| apply hops_add]; apply Hhops; assumption.
Qed.

Lemma fold_relax_spm n (l : list nat) (A : matrix) :
  Forall (fun i => (i < n)%nat) l ->
  shortest_path_matrix n A ->
  shortest_path_matrix n (fold_left relax l A).
Proof.
  intros Hl. revert A.
  induction Hl as [| i l Hi _ IH]; intros A HA; simpl; [exact HA |].
  apply IH, relax_spm; assumption.
Qed.

Lemma from_scipy_sparse_matrix_undirected (A G : connectivity) :
  from_scipy_sparse_matrix A = Ok G -> undirected (length A) G.
Proof.
  unfold from_scipy_sparse_matrix.
  destruct (is_square A) eqn:Hsq; [| discriminate].
  intros [= <-]. apply is_square_square in Hsq.
  split; [apply square_mapij, Hsq |].
  intros i j Hi Hj. unfold conn at 1 3.
  rewrite !nth_mapij with (d := false)
    by (rewrite ?(square_row Hsq) by assumption; assumption).
  fold (conn A i j). fold (conn A j i). apply orb_comm.
Qed.

Theorem floyd_warshall_spm n (G : connectivity) :
  undirected n G -> shortest_path_matrix n (floyd_warshall_numpy G).
Proof.
  intros [Hsq Hsym]. unfold floyd_warshall_numpy.
  assert (Hsq0 : square n (to_numpy_matrix G))
    by (apply square_map_map, Hsq).
  set (A0 := mapij _ (to_numpy_matrix G)).
  assert (Hsq1 : square n A0) by (apply square_mapij, Hsq0).
  assert (Hget : forall r c, (r < n)%nat -> (c < n)%nat ->
            get A0 r c =
            if Nat.eqb r c then Fin 0
            else if conn G r c then Fin 1 else PInf).
  { intros r c Hr Hc. unfold A0.
    rewrite get_mapij
      by (rewrite ?(square_row Hsq0) by assumption; destruct Hsq0; lia).
    destruct (Nat.eqb r c); [reflexivity |].
    unfold get, to_numpy_matrix.
    rewrite nth_map_map with (d := false)
      by (rewrite ?(square_row Hsq) by assumption; destruct Hsq; lia).
    reflexivity. }
  apply fold_relax_spm.
  - apply Forall_forall. intros i Hi. apply in_seq in Hi.
    destruct Hsq1 as [Hl _]. lia.
  - split; [exact Hsq1 | | |].
    + intros r c Hr Hc. rewrite !Hget by assumption.
      rewrite (Nat.eqb_sym c r), (Hsym r c) by assumption. reflexivity.
    + intros r Hr. rewrite Hget, Nat.eqb_refl by assumption. reflexivity.
    + intros r c Hr Hc. rewrite Hget by assumption.
      destruct (Nat.eqb r c); [right; exists 0%Q; split; [reflexivity | lra] |].
      destruct (conn G r c); [right; exists 1%Q; split; [reflexivity | lra] |].
      left; reflexivity.
Qed.

(** ** Maxima *)

Lemma finite_inv x : finite x -> exists q, x = Fin q.
Proof. destruct x; try discriminate. intros _. eexists; reflexivity. Qed.

Lemma maximum_fin a b :
  Float.maximum (Fin a) (Fin b) = if Float.Qltb a b then Fin b else Fin a.
Proof. reflexivity. Qed.

Lemma fold_maximum_finite (xs : vector) (a : Q) :
  Forall finite xs ->
  exists m, fold_left Float.maximum xs (Fin a) = Fin m /\
            In (Fin m) (Fin a :: xs) /\
            forall q, In (Fin q) (Fin a :: xs) -> (q <= m)%Q.
Proof.
  intros Hxs. revert a.
  induction Hxs as [| x xs Hx _ IH]; intros a.
  - exists a. simpl. repeat split; [left; reflexivity |].
    intros q [[= ->] | []]. lra.
  - destruct (finite_inv Hx) as [b ->]. simpl fold_left.
    rewrite maximum_fin.
    destruct (Float.Qltb a b) eqn:E.
    + apply Qltb_lt in E. destruct (IH b) as [m [Hm [Hin Hub]]].
      exists m. repeat split; [exact Hm | right; exact Hin |].
      intros q [[= ->] | Hq]; [| apply Hub, Hq].
      assert (b <= m)%Q by (apply Hub; left; reflexivity). lra.
    + apply Qltb_ge in E. destruct (IH a) as [m [Hm [Hin Hub]]].
      exists m. repeat split; [exact Hm | |].
      * destruct Hin as [Hin | Hin]; [left; exact Hin | right; right; exact Hin].
      * intros q [[= ->] | [[= ->] | Hq]].
        -- apply Hub; left; reflexivity.
        -- assert (a <= m)%Q by (apply Hub; left; reflexivity). lra.
        -- apply Hub; right; exact Hq.
Qed.

Lemma np_max_finite (l : vector) :
  l <> [] -> Forall finite l ->
  exists m, np_max l = Ok (Fin m) /\ max_finite m l.
Proof.
  intros Hne Hfin. destruct l as [| x xs]; [congruence |].
  inversion Hfin as [| ? ? Hx Hxs]; subst.
  destruct (finite_inv Hx) as [a ->].
  destruct (fold_maximum_finite a Hxs) as [m [Hm Hmax]].
  exists m. split; [simpl; rewrite Hm; reflexivity | exact Hmax].
Qed.

Lemma filter_id T (f : T -> bool) (l : list T) :
  Forall (fun x => f x = true) l -> filter f l = l.
Proof.
  induction 1 as [| x l Hx _ IH]; simpl; [reflexivity |].
  rewrite Hx, IH. reflexivity.
Qed.

Lemma np_nanmax_finite (l : vector) :
  l <> [] -> Forall finite l ->
  exists m, np_nanmax l = Ok (Fin m) /\ max_finite m l.
Proof.
  intros Hne Hfin.
  destruct (np_max_finite Hne Hfin) as [m [Hm Hmax]].
  exists m. split; [| exact Hmax].
  unfold np_nanmax. rewrite filter_id.
  - destruct l; [congruence | exact Hm].
  - eapply Forall_impl; [| exact Hfin].
    intros x Hx. destruct (finite_inv Hx) as [q ->]. reflexivity.
Qed.

(** ** Clipping of the unreachable pairs *)

Lemma spm_entries_hops n (sp : matrix) :
  shortest_path_matrix n sp -> Forall hops (entries sp).
Proof.
  intros Hsp. apply Forall_forall. intros x Hx.
  destruct (@in_entries_get n sp x (spm_square Hsp) Hx) as [i [j [Hi [Hj <-]]]].
  apply (spm_hops Hsp); assumption.
Qed.

Lemma not_inf_hops (l : vector) :
  Forall hops l ->
  Forall finite (filter (fun x => Float.neb x PInf) l) /\
  forall q, In (Fin q) l <-> In (Fin q) (filter (fun x => Float.neb x PInf) l).
Proof.
  intros Hl. split.
  - apply Forall_forall. intros x Hx. apply filter_In in Hx.
    destruct Hx as [Hin Hne]. rewrite Forall_forall in Hl.
    destruct (Hl x Hin) as [-> | [q [-> _]]]; [discriminate | reflexivity].
  - intros q. rewrite filter_In. split; [| tauto].
    intros Hin. split; [exact Hin | reflexivity].
Qed.

Lemma nanmax_not_inf n (sp : matrix) :
  shortest_path_matrix n sp -> (0 < n)%nat ->
  exists m, np_nanmax (not_inf sp) = Ok (Fin m) /\ max_finite m (entries sp).
Proof.
  intros Hsp Hn.
  destruct (not_inf_hops (spm_entries_hops Hsp)) as [Hfin Hiff].
  assert (Hne : not_inf sp <> []).
  { assert (Hin : In (Fin 0) (not_inf sp)).
    { apply Hiff. rewrite <- (spm_diagonal Hsp Hn).
      apply (get_in_entries (spm_square Hsp)); assumption. }
    intros E. rewrite E in Hin. exact Hin. }
  destruct (np_nanmax_finite Hne Hfin) as [m [Hm [Hin Hub]]].
  exists m. split; [exact Hm |]. split.
  - apply Hiff, Hin.
  - intros q Hq. apply Hub, Hiff, Hq.
Qed.

Lemma map_entries_ext_in (f g : float -> float) (A : matrix) :
  (forall x, In x (entries A) -> f x = g x) ->
  map_entries f A = map_entries g A.
Proof.
  intros H. unfold map_entries. apply map_ext_in. intros row Hrow.
  apply map_ext_in. intros x Hx. apply H.
  unfold entries. apply in_concat. exists row. split; assumption.
Qed.

Lemma threshold_clip n (sp : matrix) (m : Q) :
  shortest_path_matrix n sp -> max_finite m (entries sp) ->
  threshold (Fin m) sp = clip_infinite m sp.
Proof.
  intros Hsp [_ Hub]. unfold threshold, clip_infinite.
  apply map_entries_ext_in. intros x Hx.
  pose proof (spm_entries_hops Hsp) as Hh. rewrite Forall_forall in Hh.
  destruct (Hh x Hx) as [-> | [q [-> _]]]; [reflexivity |].
  unfold Float.gtb. simpl.
  assert (Float.Qltb m q = false) as -> by (apply Qltb_ge, Hub, Hx).
  reflexivity.
Qed.

(** ** Sums and means *)

Lemma fold_add_finite (l : vector) (a : Q) :
  Forall finite l ->
  exists s, fold_left Float.add l (Fin a) = Fin s /\
            (s == a + Qsum (map val l))%Q.
Proof.
  intros Hl. revert a.
  induction Hl as [| x l Hx _ IH]; intros a; simpl.
  - exists a. split; [reflexivity | lra].
  - destruct (finite_inv Hx) as [b ->]. simpl.
    destruct (IH (Qred (a + b))) as [s [Hs Heq]].
    exists s. split; [exact Hs |].
    rewrite Heq, Qred_correct. lra.
Qed.

Lemma np_sum_finite (l : vector) :
  Forall finite l ->
  exists s, np_sum l = Fin s /\ (s == Qsum (map val l))%Q.
Proof.
  intros Hl. destruct (fold_add_finite 0 Hl) as [s [Hs Heq]].
  exists s. split; [exact Hs | rewrite Heq; lra].
Qed.

Lemma of_nat_pos (n : nat) : (0 < n)%nat -> (0 < inject_Z (Z.of_nat n))%Q.
Proof.
  intros Hn. change 0%Q with (inject_Z 0). rewrite <- Zlt_Qlt. lia.
Qed.

Lemma div_fin (a b : Q) :
  ~ (b == 0)%Q -> Float.div (Fin a) (Fin b) = Float.fin (a / b).
Proof.
  intros Hb. simpl.
  assert (Float.Qeqb b 0 = false) as -> by (apply Qeqb_neq, Hb).
  reflexivity.
Qed.

Lemma np_mean_finite (l : vector) :
  l <> [] -> Forall finite l ->
  exists m, np_mean l = Fin m /\
            (m * inject_Z (Z.of_nat (length l)) == Qsum (map val l))%Q.
Proof.
  intros Hne Hl. destruct (np_sum_finite Hl) as [s [Hs Heq]].
  assert (Hpos : (0 < inject_Z (Z.of_nat (length l)))%Q).
  { apply of_nat_pos. destruct l; [congruence | simpl; lia]. }
  unfold np_mean, Float.of_nat. rewrite Hs, div_fin by lra.
  eexists. split; [reflexivity |].
  rewrite Qred_correct, <- Heq. field. lra.
Qed.

Lemma Qsum_shift (l : list Q) (m : Q) :
  (Qsum (map (fun y => y - m) l)
   == Qsum l - m * inject_Z (Z.of_nat (length l)))%Q.
Proof.
  induction l as [| y l IH].
  - cbn [map Qsum fold_right length].
    change (inject_Z (Z.of_nat 0)) with 0%Q. ring.
  - cbn [map Qsum fold_right length]. fold (Qsum (map (fun y => y - m) l)).
    fold (Qsum l). rewrite IH, Nat2Z.inj_succ.
    unfold Z.succ. rewrite inject_Z_plus. ring.
Qed.

Lemma entries_map_entries f (A : matrix) :
  entries (map_entries f A) = map f (entries A).
Proof. unfold entries, map_entries. symmetry. apply concat_map. Qed.

(** Centering a finite array gives a finite array whose mean is exactly
    zero. *)
Lemma center_finite (cost : matrix) :
  entries cost <> [] -> Forall finite (entries cost) ->
  Forall finite (entries (center cost)) /\
  np_mean (entries (center cost)) = Fin 0.
Proof.
  intros Hne Hfin.
  destruct (np_mean_finite Hne Hfin) as [mu [Hmu Hsum]].
  unfold center. rewrite Hmu, entries_map_entries.
  set (l := entries cost) in *.
  assert (Hmap : map (fun x => Float.sub x (Fin mu)) l
                 = map (fun y => Float.fin (y - mu)) (map val l)).
  { rewrite map_map. apply map_ext_in. intros x Hx.
    rewrite Forall_forall in Hfin.
    destruct (finite_inv (Hfin x Hx)) as [q ->]. reflexivity. }
  rewrite Hmap. split.
  - apply Forall_map, Forall_map, Forall_forall. intros; reflexivity.
  - assert (Hfin' : Forall finite (map (fun y => Float.fin (y - mu)) (map val l)))
      by (apply Forall_map, Forall_map, Forall_forall; intros; reflexivity).
    destruct (np_sum_finite Hfin') as [s [Hs Heq]].
    unfold np_mean, Float.of_nat. rewrite Hs, !length_map.
    assert (Hpos : (0 < inject_Z (Z.of_nat (length l)))%Q).
    { apply of_nat_pos. destruct l; [congruence | simpl; lia]. }
    rewrite div_fin by lra. apply fin_zero.
    assert (Hs0 : (s == 0)%Q).
    { rewrite Heq, map_map.
      assert (Hext : map (fun y => val (Float.fin (y - mu))) (map val l)
                     = map Qred (map (fun y => y - mu)%Q (map val l)))
        by (rewrite (map_map _ Qred); reflexivity).
      rewrite Hext. clear Hext.
      assert (Hred : forall k, (Qsum (map Qred k) == Qsum k)%Q).
      { induction k as [| y k IH]; [reflexivity |].
        cbn [map Qsum fold_right]. fold (Qsum (map Qred k)). fold (Qsum k).
        rewrite IH, Qred_correct. reflexivity. }
      rewrite Hred, Qsum_shift, length_map, <- Hsum. lra. }
    rewrite Hs0. field. lra.
Qed.

(** ** Normalisation and centering *)

Lemma max_finite_unique (l : vector) m m' :
  max_finite m l -> max_finite m' l -> (m == m')%Q.
Proof.
  intros [Hin Hub] [Hin' Hub'].
  apply Qle_antisym; [apply Hub', Hin | apply Hub, Hin'].
Qed.

Lemma symmetric_map_entries n f (A : matrix) :
  square n A -> symmetric n A -> symmetric n (map_entries f A).
Proof.
  intros Hsq Hsym i j Hi Hj.
  rewrite !get_map_entries
    by (rewrite ?(square_row Hsq) by assumption; destruct Hsq; lia).
  rewrite (Hsym i j) by assumption. reflexivity.
Qed.

Lemma cost_matrix_shape n (sp cost : matrix) :
  cost_matrix sp = Ok cost -> square n sp -> symmetric n sp ->
  square n cost /\ symmetric n cost.
Proof.
  unfold cost_matrix, normalize. intros H Hsq Hsym.
  destruct (np_max (entries sp)) as [m |]; [| discriminate].
  simpl in H. injection H as <-. unfold center.
  pose proof (square_map_map (fun x => Float.div x m) Hsq) as Hsq'.
  split; [apply square_map_map, Hsq' |].
  apply symmetric_map_entries; [exact Hsq' |].
  apply symmetric_map_entries; assumption.
Qed.

Lemma cost_matrix_finite (sp : matrix) (m : Q) :
  Forall finite (entries sp) -> max_finite m (entries sp) -> ~ (m == 0)%Q ->
  exists cost, cost_matrix sp = Ok cost /\
               Forall finite (entries cost) /\
               np_mean (entries cost) = Fin 0.
Proof.
  intros Hfin Hmax Hm.
  assert (Hne : entries sp <> [])
    by (destruct Hmax as [Hin _]; intros E; rewrite E in Hin; exact Hin).
  destruct (np_max_finite Hne Hfin) as [m0 [Hm0 Hmax0]].
  pose proof (max_finite_unique Hmax0 Hmax) as Heq.
  unfold cost_matrix, normalize. rewrite Hm0. simpl.
  set (cost := map_entries _ sp).
  assert (Hcost : entries cost = map (fun q => Float.fin (q / m0)) (map val (entries sp))).
  { unfold cost. rewrite entries_map_entries, map_map.
    apply map_ext_in. intros x Hx. rewrite Forall_forall in Hfin.
    destruct (finite_inv (Hfin x Hx)) as [q ->].
    apply div_fin. rewrite Heq. exact Hm. }
  destruct (@center_finite cost) as [Hf Hmean].
  - rewrite Hcost. destruct (entries sp); [congruence | discriminate].
  - rewrite Hcost. apply Forall_map, Forall_map, Forall_forall.
    intros; reflexivity.
  - exists (center cost). repeat split; assumption.
Qed.

Lemma all_nan_center (cost : matrix) : all_nan cost -> all_nan (center cost).
Proof.
  unfold all_nan, center. intros H. rewrite entries_map_entries.
  apply Forall_map. eapply Forall_impl; [| exact H].
  intros x ->. reflexivity.
Qed.

(** All distances zero: every quotient is [0/0]. *)
Lemma cost_matrix_degenerate (sp : matrix) (m : Q) :
  Forall finite (entries sp) -> Forall hops (entries sp) ->
  max_finite m (entries sp) -> (m == 0)%Q ->
  exists cost, cost_matrix sp = Ok cost /\ all_nan cost.
Proof.
  intros Hfin Hhops Hmax Hm.
  assert (Hne : entries sp <> [])
    by (destruct Hmax as [Hin _]; intros E; rewrite E in Hin; exact Hin).
  destruct (np_max_finite Hne Hfin) as [m0 [Hm0 Hmax0]].
  pose proof (max_finite_unique Hmax0 Hmax) as Heq.
  unfold cost_matrix, normalize. rewrite Hm0. simpl.
  eexists. split; [reflexivity |]. apply all_nan_center.
  unfold all_nan. rewrite entries_map_entries. apply Forall_map.
  apply Forall_forall. intros x Hx.
  rewrite Forall_forall in Hhops.
  destruct (Hhops x Hx) as [-> | [q [-> Hq]]].
  - rewrite Forall_forall in Hfin. specialize (Hfin _ Hx). discriminate.
  - simpl.
    assert (Float.Qeqb m0 0 = true) as -> by (apply Qeqb_eq; rewrite Heq; exact Hm).
    assert (Hq0 : (q == 0)%Q).
    { destruct Hmax as [_ Hub]. specialize (Hub q Hx). lra. }
    apply Qeq_alt in Hq0. rewrite Hq0. reflexivity.
Qed.

Lemma maximum_hops_inf (xs : vector) (x : float) :
  hops x -> Forall hops xs -> In PInf (x :: xs) ->
  fold_left Float.maximum xs x = PInf.
Proof.
  intros Hx Hxs. revert x Hx.
  induction Hxs as [| y xs Hy _ IH]; intros x Hx Hin.
  - destruct Hin as [-> | []]. reflexivity.
  - simpl fold_left.
    assert (Hmax : hops (Float.maximum x y) /\
                   (x = PInf \/ y = PInf -> Float.maximum x y = PInf)).
    { destruct Hx as [-> | [a [-> Ha]]], Hy as [-> | [b [-> Hb]]];
        try (split; [left; reflexivity | reflexivity]).
      split; [| intros [H | H]; discriminate].
      rewrite maximum_fin. destruct (Float.Qltb a b); right; eauto. }
    destruct Hmax as [Hh Hinf]. apply IH; [exact Hh |].
    destruct Hin as [-> | [-> | Hin]].
    + left. apply Hinf. left; reflexivity.
    + left. apply Hinf. right; reflexivity.
    + right. exact Hin.
Qed.

Lemma fold_add_nan (l : vector) : fold_left Float.add l NaN = NaN.
Proof. induction l; simpl; [reflexivity | assumption]. Qed.

Lemma np_sum_nan (l : vector) : In NaN l -> np_sum l = NaN.
Proof.
  unfold np_sum. generalize (Fin 0).
  induction l as [| x l IH]; intros a Hin; [destruct Hin |].
  simpl. destruct Hin as [-> | Hin]; [| apply IH, Hin].
  replace (Float.add a NaN) with NaN by (destruct a; reflexivity).
  apply fold_add_nan.
Qed.

(** An unreachable pair left in place: the maximum is [+inf], the pair
    itself becomes [inf/inf], and the mean spreads the [NaN] everywhere. *)
Lemma cost_matrix_unreachable (sp : matrix) :
  Forall hops (entries sp) -> In PInf (entries sp) ->
  exists cost, cost_matrix sp = Ok cost /\ all_nan cost.
Proof.
  intros Hhops Hin. unfold cost_matrix, normalize.
  destruct (entries sp) as [| x xs] eqn:E; [destruct Hin |].
  unfold np_max. inversion Hhops as [| ? ? Hx Hxs]; subst.
  rewrite (maximum_hops_inf Hx Hxs Hin). simpl.
  eexists. split; [reflexivity |].
  unfold all_nan, center. rewrite !entries_map_entries, E.
  assert (Hmu : np_mean (map (fun x0 => Float.div x0 PInf) (x :: xs)) = NaN).
  { unfold np_mean. rewrite np_sum_nan; [reflexivity |].
    apply in_map_iff. exists PInf. split; [reflexivity | exact Hin]. }
  rewrite Hmu. apply Forall_map, Forall_forall.
  intros y _. destruct y; reflexivity.
Qed.

(** ** The reconstruction set-up, step by step *)

Section ReconstructionFacts.

Variable kneighbors_graph : list (list Q) -> nat -> res connectivity.
Variable elapsed : string.

Lemma shortest_paths_inv X k sp :
  shortest_paths kneighbors_graph X k = Ok sp ->
  exists A, kneighbors_graph X k = Ok A /\ is_square A = true /\
            shortest_path_matrix (length A) sp.
Proof.
  unfold shortest_paths. intros H.
  destruct (kneighbors_graph X k) as [A |]; [| discriminate].
  simpl in H.
  destruct (from_scipy_sparse_matrix A) as [G |] eqn:HG; [| discriminate].
  simpl in H. injection H as <-.
  exists A. split; [reflexivity |]. split.
  - unfold from_scipy_sparse_matrix in HG.
    destruct (is_square A); [reflexivity | discriminate].
  - apply floyd_warshall_spm, from_scipy_sparse_matrix_undirected, HG.
Qed.

Lemma setup_inv dge locations ks kt ce cl :
  result (setup_for_OT_reconstruction kneighbors_graph elapsed
            dge locations ks kt) = Ok (ce, cl) ->
  exists sp_l sp_e mx,
    shortest_paths kneighbors_graph locations kt = Ok sp_l /\
    shortest_paths kneighbors_graph dge ks = Ok sp_e /\
    np_nanmax (not_inf sp_e) = Ok mx /\
    cost_matrix sp_l = Ok cl /\
    cost_matrix (threshold mx sp_e) = Ok ce.
Proof.
  unfold setup_for_OT_reconstruction, result, bind, lift, print, ret.
  destruct (shortest_paths kneighbors_graph locations kt) as [sp_l |];
    [| discriminate].
  destruct (shortest_paths kneighbors_graph dge ks) as [sp_e |];
    [| discriminate].
  destruct (np_nanmax (not_inf sp_e)) as [mx |] eqn:Hmx; [| discriminate].
  destruct (cost_matrix sp_l) as [cl' |] eqn:Hcl; [| discriminate].
  destruct (cost_matrix (threshold mx sp_e)) as [ce' |] eqn:Hce;
    [| discriminate].
  simpl. intros [= <- <-].
  exists sp_l, sp_e, mx. repeat split; assumption.
Qed.

Lemma setup_ok dge locations ks kt sp_l sp_e mx ce cl :
  shortest_paths kneighbors_graph locations kt = Ok sp_l ->
  shortest_paths kneighbors_graph dge ks = Ok sp_e ->
  np_nanmax (not_inf sp_e) = Ok mx ->
  cost_matrix sp_l = Ok cl ->
  cost_matrix (threshold mx sp_e) = Ok ce ->
  setup_for_OT_reconstruction kneighbors_graph elapsed dge locations ks kt =
  (["Setting up for reconstruction ... ";
    "done ( " ++ elapsed ++ " seconds )"]%string, Ok (ce, cl)).
Proof.
  intros Hl He Hmx Hcl Hce.
  unfold setup_for_OT_reconstruction, bind, lift, print, ret.
  rewrite Hl, He, Hmx, Hcl, Hce. reflexivity.
Qed.

Lemma spm_nonempty n (sp : matrix) :
  shortest_path_matrix n sp -> sp <> [] -> (0 < n)%nat.
Proof.
  intros Hsp Hne. destruct (spm_square Hsp) as [Hlen _].
  destruct sp; [congruence | simpl in Hlen; lia].
Qed.

Lemma spm_entries_nonempty n (sp : matrix) :
  shortest_path_matrix n sp -> (0 < n)%nat -> entries sp <> [].
Proof.
  intros Hsp Hn E.
  pose proof (get_in_entries (spm_square Hsp) Hn Hn) as Hin.
  rewrite E in Hin. exact Hin.
Qed.

(** The expression distances after [sp[sp > max] = max]. *)
Lemma clip_entries n (sp : matrix) (m : Q) :
  shortest_path_matrix n sp -> max_finite m (entries sp) ->
  Forall finite (entries (clip_infinite m sp)) /\
  Forall hops (entries (clip_infinite m sp)) /\
  max_finite m (entries (clip_infinite m sp)).
Proof.
  intros Hsp [Hin Hub]. unfold clip_infinite.
  rewrite entries_map_entries.
  pose proof (spm_entries_hops Hsp) as Hh. rewrite Forall_forall in Hh.
  assert (Hm : (0 <= m)%Q).
  { destruct (Hh _ Hin) as [E | [q [[= <-] Hq]]]; [discriminate | exact Hq]. }
  repeat split.
  - apply Forall_map, Forall_forall. intros x Hx.
    destruct (Hh x Hx) as [-> | [q [-> _]]]; reflexivity.
  - apply Forall_map, Forall_forall. intros x Hx.
    destruct (Hh x Hx) as [-> | [q [-> Hq]]]; right; eauto.
  - apply in_map_iff. exists (Fin m). split; [reflexivity | exact Hin].
  - intros q Hq. apply in_map_iff in Hq. destruct Hq as [x [Hx Hxin]].
    destruct (Hh x Hxin) as [-> | [q' [-> _]]].
    + injection Hx as <-. lra.
    + injection Hx as <-. apply Hub, Hxin.
Qed.

Lemma cost_matrix_total (sp : matrix) :
  entries sp <> [] -> exists cost, cost_matrix sp = Ok cost.
Proof.
  intros Hne. unfold cost_matrix, normalize.
  destruct (entries sp); [congruence |]. simpl. eexists; reflexivity.
Qed.

End ReconstructionFacts.

(** ** The cost matrices returned by the set-up *)

Section ReconstructionTheorems.

Variable kneighbors_graph : list (list Q) -> nat -> res connectivity.
Variable elapsed : string.

Lemma np_max_fin_finite (l : vector) (m : Q) :
  Forall hops l -> np_max l = Ok (Fin m) ->
  Forall finite l /\ max_finite m l.
Proof.
  intros Hh Hmax.
  assert (Hfin : Forall finite l).
  { apply Forall_forall. intros x Hx.
    pose proof Hh as Hh'. rewrite Forall_forall in Hh'.
    destruct (Hh' x Hx) as [-> | [q [-> _]]]; [| reflexivity].
    exfalso. destruct l as [| y ys]; [destruct Hx |].
    inversion Hh as [| ? ? Hy Hys]; subst.
    simpl in Hmax. rewrite (maximum_hops_inf Hy Hys Hx) in Hmax.
    discriminate. }
  split; [exact Hfin |].
  assert (Hne : l <> []) by (destruct l; [discriminate | congruence]).
  destruct (np_max_finite Hne Hfin) as [m' [Hm Hmf]].
  rewrite Hmax in Hm. injection Hm as <-. exact Hmf.
Qed.

(** C1, as amended. The division by the maximum is not guarded: when the
    shortest-path distances of a space are all zero the function does not
    fail, it prints its two status lines and returns a cost matrix for that
    space whose entries are all NaN. *)
Theorem zero_distances_give_nan dge locations ks kt sp_e sp_l :
  shortest_paths kneighbors_graph dge ks = Ok sp_e ->
  shortest_paths kneighbors_graph locations kt = Ok sp_l ->
  sp_e <> [] -> sp_l <> [] ->
  exists ce cl,
    setup_for_OT_reconstruction kneighbors_graph elapsed dge locations ks kt =
    (["Setting up for reconstruction ... ";
      "done ( " ++ elapsed ++ " seconds )"]%string, Ok (ce, cl)) /\
    (max_finite 0 (entries sp_e) -> all_nan ce) /\
    (np_max (entries sp_l) = Ok (Fin 0) -> all_nan cl).
Proof.
  intros He Hl Hnee Hnel.
  destruct (shortest_paths_inv _ _ _ He) as [Ae [_ [_ Hspe]]].
  destruct (shortest_paths_inv _ _ _ Hl) as [Al [_ [_ Hspl]]].
  pose proof (spm_nonempty Hspe Hnee) as Hne.
  pose proof (spm_nonempty Hspl Hnel) as Hnl.
  destruct (nanmax_not_inf Hspe Hne) as [m [Hnan Hmax]].
  destruct (clip_entries Hspe Hmax) as [Hfin [Hhops Hmax']].
  destruct (@cost_matrix_total sp_l) as [cl Hcl];
    [apply (spm_entries_nonempty Hspl Hnl) |].
  destruct (@cost_matrix_total (threshold (Fin m) sp_e)) as [ce Hce].
  { rewrite (threshold_clip Hspe Hmax).
    destruct Hmax' as [Hin _]. intros E. rewrite E in Hin. exact Hin. }
  exists ce, cl. split; [| split].
  - apply (setup_ok _ _ _ _ _ _ Hl He Hnan Hcl Hce).
  - intros H0. pose proof (max_finite_unique Hmax H0) as Hm0.
    rewrite (threshold_clip Hspe Hmax) in Hce.
    destruct (@cost_matrix_degenerate _ _ Hfin Hhops Hmax' Hm0) as [c [Hc Hnanc]].
    rewrite Hce in Hc. injection Hc as <-. exact Hnanc.
  - intros H0.
    destruct (np_max_fin_finite (spm_entries_hops Hspl) H0) as [Hf Hmf].
    destruct (@cost_matrix_degenerate _ _ Hf (spm_entries_hops Hspl) Hmf
                (Qeq_refl 0)) as [c [Hc Hnanc]].
    rewrite Hcl in Hc. injection Hc as <-. exact Hnanc.
Qed.

(** C2. Whenever the function returns, the expression cost matrix is the
    normalised and centred shortest-path matrix of the expression graph in
    which every [+inf] entry has been replaced by the largest finite entry,
    and the location cost matrix is the normalised and centred shortest-path
    matrix of the location graph as it is. *)
Theorem expression_clipped_locations_not dge locations ks kt ce cl :
  result (setup_for_OT_reconstruction kneighbors_graph elapsed
            dge locations ks kt) = Ok (ce, cl) ->
  exists sp_e sp_l m,
    shortest_paths kneighbors_graph dge ks = Ok sp_e /\
    shortest_paths kneighbors_graph locations kt = Ok sp_l /\
    max_finite m (entries sp_e) /\
    cost_matrix (clip_infinite m sp_e) = Ok ce /\
    cost_matrix sp_l = Ok cl.
Proof.
  intros H.
  destruct (setup_inv _ _ _ _ _ _ H) as [sp_l [sp_e [mx [Hl [He [Hmx [Hcl Hce]]]]]]].
  destruct (shortest_paths_inv _ _ _ He) as [Ae [_ [_ Hspe]]].
  assert (Hn : (0 < length Ae)%nat).
  { apply (spm_nonempty Hspe). intros ->. discriminate. }
  destruct (nanmax_not_inf Hspe Hn) as [m [Hnan Hmax]].
  rewrite Hmx in Hnan. injection Hnan as ->.
  rewrite (threshold_clip Hspe Hmax) in Hce.
  exists sp_e, sp_l, m. repeat (split; [assumption |]). assumption.
Qed.

Lemma clip_diagonal n (sp : matrix) (m : Q) i :
  shortest_path_matrix n sp -> (i < n)%nat ->
  get (clip_infinite m sp) i i = Fin 0.
Proof.
  intros Hsp Hi. unfold clip_infinite.
  pose proof (spm_square Hsp) as Hsq.
  rewrite get_map_entries
    by (rewrite ?(square_row Hsq) by assumption; destruct Hsq; lia).
  rewrite (spm_diagonal Hsp Hi). reflexivity.
Qed.

Lemma setup_expression dge locations ks kt ce cl :
  result (setup_for_OT_reconstruction kneighbors_graph elapsed
            dge locations ks kt) = Ok (ce, cl) ->
  exists sp_e sp_l n_e n_l m,
    shortest_paths kneighbors_graph dge ks = Ok sp_e /\
    shortest_paths kneighbors_graph locations kt = Ok sp_l /\
    shortest_path_matrix n_e sp_e /\ shortest_path_matrix n_l sp_l /\
    max_finite m (entries sp_e) /\
    cost_matrix (clip_infinite m sp_e) = Ok ce /\
    cost_matrix sp_l = Ok cl.
Proof.
  intros H.
  destruct (setup_inv _ _ _ _ _ _ H) as [sp_l [sp_e [mx [Hl [He [Hmx [Hcl Hce]]]]]]].
  destruct (shortest_paths_inv _ _ _ He) as [Ae [_ [_ Hspe]]].
  destruct (shortest_paths_inv _ _ _ Hl) as [Al [_ [_ Hspl]]].
  assert (Hn : (0 < length Ae)%nat).
  { apply (spm_nonempty Hspe). intros ->. discriminate. }
  destruct (nanmax_not_inf Hspe Hn) as [m [Hnan Hmax]].
  rewrite Hmx in Hnan. injection Hnan as ->.
  rewrite (threshold_clip Hspe Hmax) in Hce.
  exists sp_e, sp_l, (length Ae), (length Al), m.
  repeat (split; [assumption |]). assumption.
Qed.

(** C3, as amended. Whenever the function returns: both shortest-path
    matrices have zero diagonal (also after the clipping), both returned
    matrices are square and symmetric (the entries at [(i, j)] and [(j, i)]
    are the same value, NaN included), the mean of the expression cost matrix
    is exactly zero when the largest finite expression distance is not zero,
    and the mean of the location cost matrix is exactly zero when the largest
    location distance is finite and not zero. The expression cost matrix is
    all NaN when the largest finite expression distance is zero, and the
    location cost matrix is all NaN when some pair of locations is
    unreachable. *)
Theorem cost_matrices_symmetric_centered dge locations ks kt ce cl :
  result (setup_for_OT_reconstruction kneighbors_graph elapsed
            dge locations ks kt) = Ok (ce, cl) ->
  exists sp_e sp_l n_e n_l m,
    shortest_paths kneighbors_graph dge ks = Ok sp_e /\
    shortest_paths kneighbors_graph locations kt = Ok sp_l /\
    max_finite m (entries sp_e) /\
    (forall i, (i < n_e)%nat ->
       get sp_e i i = Fin 0 /\ get (clip_infinite m sp_e) i i = Fin 0) /\
    (forall i, (i < n_l)%nat -> get sp_l i i = Fin 0) /\
    square n_e ce /\ symmetric n_e ce /\
    square n_l cl /\ symmetric n_l cl /\
    (~ (m == 0)%Q -> np_mean (entries ce) = Fin 0) /\
    (forall m_l, np_max (entries sp_l) = Ok (Fin m_l) -> ~ (m_l == 0)%Q ->
       np_mean (entries cl) = Fin 0) /\
    ((m == 0)%Q -> all_nan ce) /\
    (In PInf (entries sp_l) -> all_nan cl).
Proof.
  intros H.
  destruct (setup_expression _ _ _ _ H)
    as [sp_e [sp_l [n_e [n_l [m [He [Hl [Hspe [Hspl [Hmax [Hce Hcl]]]]]]]]]]].
  exists sp_e, sp_l, n_e, n_l, m.
  destruct (clip_entries Hspe Hmax) as [Hfin [Hhops Hmax']].
  assert (Hsqc : square n_e (clip_infinite m sp_e))
    by (apply square_map_map, (spm_square Hspe)).
  assert (Hsymc : symmetric n_e (clip_infinite m sp_e))
    by (apply symmetric_map_entries;
        [apply (spm_square Hspe) | apply (spm_symmetric Hspe)]).
  destruct (cost_matrix_shape Hce Hsqc Hsymc) as [Hsq_ce Hsym_ce].
  destruct (cost_matrix_shape Hcl (spm_square Hspl) (spm_symmetric Hspl))
    as [Hsq_cl Hsym_cl].
  repeat (split; [assumption |]).
  split; [| split; [| repeat (split; [assumption |])]].
  - intros i Hi. split.
    + apply (spm_diagonal Hspe); assumption.
    + apply (clip_diagonal _ Hspe); assumption.
  - apply (spm_diagonal Hspl).
  - split; [| split; [| split]].
    + intros Hm.
      destruct (@cost_matrix_finite _ _ Hfin Hmax' Hm) as [c [Hc [_ Hmean]]].
      rewrite Hce in Hc. injection Hc as <-. exact Hmean.
    + intros m_l Hml Hnz.
      destruct (np_max_fin_finite (spm_entries_hops Hspl) Hml) as [Hf Hmf].
      destruct (@cost_matrix_finite _ _ Hf Hmf Hnz) as [c [Hc [_ Hmean]]].
      rewrite Hcl in Hc. injection Hc as <-. exact Hmean.
    + intros Hm.
      destruct (@cost_matrix_degenerate _ _ Hfin Hhops Hmax' Hm) as [c [Hc Hn]].
      rewrite Hce in Hc. injection Hc as <-. exact Hn.
    + intros Hinf.
      destruct (@cost_matrix_unreachable _ (spm_entries_hops Hspl) Hinf)
        as [c [Hc Hn]].
      rewrite Hcl in Hc. injection Hc as <-. exact Hn.
Qed.

(** C10, as amended. Whenever the function returns, every entry of the
    expression cost matrix is finite provided the largest finite
    shortest-path distance of the expression graph is not zero, whether or
    not that graph is connected; when it is zero every entry is NaN. *)
Theorem cost_expression_finite dge locations ks kt ce cl :
  result (setup_for_OT_reconstruction kneighbors_graph elapsed
            dge locations ks kt) = Ok (ce, cl) ->
  exists sp_e m,
    shortest_paths kneighbors_graph dge ks = Ok sp_e /\
    max_finite m (entries sp_e) /\
    (~ (m == 0)%Q -> Forall finite (entries ce)) /\
    ((m == 0)%Q -> all_nan ce).
Proof.
  intros H.
  destruct (setup_expression _ _ _ _ H)
    as [sp_e [sp_l [n_e [n_l [m [He [Hl [Hspe [Hspl [Hmax [Hce Hcl]]]]]]]]]]].
  exists sp_e, m.
  destruct (clip_entries Hspe Hmax) as [Hfin [Hhops Hmax']].
  repeat (split; [assumption |]). split.
  - intros Hm.
    destruct (@cost_matrix_finite _ _ Hfin Hmax' Hm) as [c [Hc [Hf _]]].
    rewrite Hce in Hc. injection Hc as <-. exact Hf.
  - intros Hm.
    destruct (@cost_matrix_degenerate _ _ Hfin Hhops Hmax' Hm) as [c [Hc Hn]].
    rewrite Hce in Hc. injection Hc as <-. exact Hn.
Qed.

End ReconstructionTheorems.

(** ** The set-up on concrete inputs *)

(** C1, the claim as stated fails: a single cell at a single location has
    all shortest-path distances zero, and the function returns normally with
    NaN in both matrices. *)
Lemma single_cell_returns_nan :
  shortest_paths KNN.kneighbors_graph one_cell_dge 1 = Ok [[Fin 0]] /\
  shortest_paths KNN.kneighbors_graph one_cell_locations 1 = Ok [[Fin 0]] /\
  setup_for_OT_reconstruction KNN.kneighbors_graph "0.0"
    one_cell_dge one_cell_locations 1 1
  = (status_lines, Ok ([[NaN]], [[NaN]])).
Proof. repeat split; vm_compute; reflexivity. Qed.

Lemma zero_distances_give_nan_witness :
  shortest_paths KNN.kneighbors_graph two_dge 1 = Ok isolated_pair /\
  shortest_paths KNN.kneighbors_graph two_locations 1 = Ok isolated_pair /\
  isolated_pair <> [] /\
  exists ce cl,
    setup_for_OT_reconstruction KNN.kneighbors_graph "0.0"
      two_dge two_locations 1 1 = (status_lines, Ok (ce, cl)) /\
    (max_finite 0 (entries isolated_pair) -> all_nan ce) /\
    (np_max (entries isolated_pair) = Ok (Fin 0) -> all_nan cl).
Proof.
  assert (He : shortest_paths KNN.kneighbors_graph two_dge 1 = Ok isolated_pair)
    by (vm_compute; reflexivity).
  assert (Hl : shortest_paths KNN.kneighbors_graph two_locations 1
               = Ok isolated_pair) by (vm_compute; reflexivity).
  assert (Hne : isolated_pair <> []) by discriminate.
  repeat (split; [assumption |]).
  exact (@zero_distances_give_nan KNN.kneighbors_graph "0.0"
           two_dge two_locations 1 1 _ _ He Hl Hne Hne).
Defined.

(** Two cells with one neighbour each: the clipped expression distances are
    all zero and the expression cost matrix is NaN. *)
Example isolated_pair_expression_nan :
  max_finite 0 (entries isolated_pair) /\
  result (setup_for_OT_reconstruction KNN.kneighbors_graph "0.0"
            two_dge two_locations 1 1) = Ok (nan_matrix 2, nan_matrix 2).
Proof.
  split; [| vm_compute; reflexivity].
  split; [left; reflexivity |].
  intros q Hq. simpl in Hq. in_cases Hq; lra.
Qed.

Lemma expression_clipped_locations_not_witness :
  result (setup_for_OT_reconstruction KNN.kneighbors_graph "0.0"
            line_dge pairs_locations 2 2) = Ok (line_costs, nan_matrix 4) /\
  exists sp_e sp_l m,
    shortest_paths KNN.kneighbors_graph line_dge 2 = Ok sp_e /\
    shortest_paths KNN.kneighbors_graph pairs_locations 2 = Ok sp_l /\
    max_finite m (entries sp_e) /\
    cost_matrix (clip_infinite m sp_e) = Ok line_costs /\
    cost_matrix sp_l = Ok (nan_matrix 4).
Proof.
  assert (H : result (setup_for_OT_reconstruction KNN.kneighbors_graph "0.0"
                        line_dge pairs_locations 2 2)
              = Ok (line_costs, nan_matrix 4)) by (vm_compute; reflexivity).
  split; [exact H |].
  exact (@expression_clipped_locations_not KNN.kneighbors_graph "0.0"
           line_dge pairs_locations 2 2 _ _ H).
Defined.

(** The location distances keep their infinite entries: two pairs of
    locations far apart are never joined, and the whole location cost matrix
    is NaN. *)
Example locations_keep_infinities :
  shortest_paths KNN.kneighbors_graph pairs_locations 2 =
  Ok [[Fin 0; Fin 1; PInf; PInf]; [Fin 1; Fin 0; PInf; PInf];
      [PInf; PInf; Fin 0; Fin 1]; [PInf; PInf; Fin 1; Fin 0]] /\
  cost_matrix [[Fin 0; Fin 1; PInf; PInf]; [Fin 1; Fin 0; PInf; PInf];
               [PInf; PInf; Fin 0; Fin 1]; [PInf; PInf; Fin 1; Fin 0]]
  = Ok (nan_matrix 4).
Proof. split; vm_compute; reflexivity. Qed.

(** C3, the claim as stated fails: four cells whose locations form two
    distant pairs are a valid input, the location graph with two neighbours
    is disconnected, and the mean of the returned location cost matrix is
    NaN, not zero. *)
Lemma disconnected_locations_mean_nan :
  valid_input line_dge pairs_locations 2 2 /\
  exists ce,
    result (setup_for_OT_reconstruction KNN.kneighbors_graph "0.0"
              line_dge pairs_locations 2 2) = Ok (ce, nan_matrix 4) /\
    np_mean (entries (nan_matrix 4)) = NaN /\
    np_mean (entries (nan_matrix 4)) <> Fin 0.
Proof.
  split; [unfold valid_input; simpl; lia |].
  eexists. split; [vm_compute; reflexivity |].
  split; [reflexivity | discriminate].
Qed.

Lemma cost_matrices_symmetric_centered_witness :
  result (setup_for_OT_reconstruction KNN.kneighbors_graph "0.0"
            line_dge line_locations 2 2) = Ok (line_costs, line_costs) /\
  exists sp_e sp_l n_e n_l m,
    shortest_paths KNN.kneighbors_graph line_dge 2 = Ok sp_e /\
    shortest_paths KNN.kneighbors_graph line_locations 2 = Ok sp_l /\
    max_finite m (entries sp_e) /\
    (forall i, (i < n_e)%nat ->
       get sp_e i i = Fin 0 /\ get (clip_infinite m sp_e) i i = Fin 0) /\
    (forall i, (i < n_l)%nat -> get sp_l i i = Fin 0) /\
    square n_e line_costs /\ symmetric n_e line_costs /\
    square n_l line_costs /\ symmetric n_l line_costs /\
    (~ (m == 0)%Q -> np_mean (entries line_costs) = Fin 0) /\
    (forall m_l, np_max (entries sp_l) = Ok (Fin m_l) -> ~ (m_l == 0)%Q ->
       np_mean (entries line_costs) = Fin 0) /\
    ((m == 0)%Q -> all_nan line_costs) /\
    (In PInf (entries sp_l) -> all_nan line_costs).
Proof.
  assert (H : result (setup_for_OT_reconstruction KNN.kneighbors_graph "0.0"
                        line_dge line_locations 2 2)
              = Ok (line_costs, line_costs)) by (vm_compute; reflexivity).
  split; [exact H |].
  exact (@cost_matrices_symmetric_centered KNN.kneighbors_graph "0.0"
           line_dge line_locations 2 2 _ _ H).
Defined.

(** On the line both means are zero. *)
Example line_costs_centered :
  np_mean (entries line_costs) = Fin 0 /\ symmetric 4 line_costs.
Proof.
  split; [vm_compute; reflexivity |].
  intros i j Hi Hj.
  do 4 (destruct i as [| i]; [do 4 (destruct j as [| j]; [reflexivity |]); lia |]).
  lia.
Qed.

(** C10, the claim as stated fails: with one neighbour every cell of the
    expression graph is joined to itself only, the clipped distances are all
    zero, and the function returns an expression cost matrix of NaN. *)
Lemma self_neighbours_expression_nan :
  exists cl,
    result (setup_for_OT_reconstruction KNN.kneighbors_graph "0.0"
              three_dge three_locations 1 2) = Ok (nan_matrix 3, cl) /\
    ~ Forall finite (entries (nan_matrix 3)).
Proof.
  eexists. split; [vm_compute; reflexivity |].
  intros H. inversion H as [| ? ? Hx _]. discriminate Hx.
Qed.

Lemma cost_expression_finite_witness :
  result (setup_for_OT_reconstruction KNN.kneighbors_graph "0.0"
            line_dge pairs_locations 2 2) = Ok (line_costs, nan_matrix 4) /\
  exists sp_e m,
    shortest_paths KNN.kneighbors_graph line_dge 2 = Ok sp_e /\
    max_finite m (entries sp_e) /\
    (~ (m == 0)%Q -> Forall finite (entries line_costs)) /\
    ((m == 0)%Q -> all_nan line_costs).
Proof.
  assert (H : result (setup_for_OT_reconstruction KNN.kneighbors_graph "0.0"
                        line_dge pairs_locations 2 2)
              = Ok (line_costs, nan_matrix 4)) by (vm_compute; reflexivity).
  split; [exact H |].
  exact (@cost_expression_finite KNN.kneighbors_graph "0.0"
           line_dge pairs_locations 2 2 _ _ H).
Defined.

(** ** Loops, masks and index arrays *)

Lemma for_each_append T U (f : T -> res U) (l : list T) (acc : list U) :
  for_each l (fun acc x => (y <-- f x ;; Ok (acc ++ [y]))%py) acc
  = (ys <-- mapM f l ;; Ok (acc ++ ys))%py.
Proof.
  revert acc. induction l as [| x l IH]; intros acc; simpl.
  - rewrite app_nil_r. reflexivity.
  - destruct (f x) as [y |]; simpl; [| reflexivity].
    rewrite IH. destruct (mapM f l) as [ys |]; simpl; [| reflexivity].
    rewrite <- app_assoc. reflexivity.
Qed.

Lemma mapM_length T U (f : T -> res U) (l : list T) (ys : list U) :
  mapM f l = Ok ys -> length ys = length l.
Proof.
  revert ys. induction l as [| x l IH]; intros ys; simpl.
  - intros [= <-]. reflexivity.
  - destruct (f x) as [y |]; simpl; [| discriminate].
    destruct (mapM f l) as [ys' |]; simpl; [| discriminate].
    intros [= <-]. simpl. f_equal. apply IH. reflexivity.
Qed.

Lemma mapM_nth T U (f : T -> res U) (l : list T) (ys : list U) i d d' :
  mapM f l = Ok ys -> (i < length l)%nat ->
  f (nth i l d) = Ok (nth i ys d').
Proof.
  revert ys i. induction l as [| x l IH]; intros ys i; simpl.
  - intros _ Hi. lia.
  - destruct (f x) as [y |] eqn:Hy; simpl; [| discriminate].
    destruct (mapM f l) as [ys' |]; simpl; [| discriminate].
    intros [= <-] Hi. destruct i as [| i]; [exact Hy |].
    simpl. apply IH; [reflexivity | lia].
Qed.

Lemma mapM_ok T U (f : T -> res U) (g : T -> U) (l : list T) :
  (forall x, In x l -> f x = Ok (g x)) -> mapM f l = Ok (map g l).
Proof.
  induction l as [| x l IH]; intros H; simpl; [reflexivity |].
  rewrite (H x) by (left; reflexivity). simpl.
  rewrite IH by (intros y Hy; apply H; right; exact Hy). reflexivity.
Qed.

Lemma compress_nil_l T (l : list T) : compress [] l = [].
Proof. reflexivity. Qed.

Lemma compress_cons T (b : bool) (mask : list bool) (x : T) (l : list T) :
  compress (b :: mask) (x :: l)
  = if b then x :: compress mask l else compress mask l.
Proof. unfold compress. simpl. destruct b; reflexivity. Qed.

Lemma compress_subseq T (mask : list bool) (l : list T) :
  subseq (compress mask l) l.
Proof.
  revert mask. induction l as [| x l IH]; intros mask.
  - destruct mask; constructor.
  - destruct mask as [| b mask].
    + rewrite compress_nil_l. apply subseq_skip.
      specialize (IH []). rewrite compress_nil_l in IH. exact IH.
    + rewrite compress_cons. destruct b; constructor; apply IH.
Qed.

Lemma compress_length T U (mask : list bool) (l : list T) (k : list U) :
  length l = length mask -> length k = length mask ->
  length (compress mask l) = length (compress mask k).
Proof.
  revert l k. induction mask as [| b mask IH]; intros l k Hl Hk.
  - destruct l, k; try discriminate. reflexivity.
  - destruct l as [| x l], k as [| y k]; try discriminate.
    rewrite !compress_cons. injection Hl as Hl. injection Hk as Hk.
    destruct b; simpl; rewrite (IH l k) by assumption; reflexivity.
Qed.

Lemma compress_shift (mask : list bool) (a : nat) :
  compress mask (seq (S a) (length mask))
  = map S (compress mask (seq a (length mask))).
Proof.
  revert a. induction mask as [| b mask IH]; intros a; [reflexivity |].
  simpl length. simpl seq. rewrite !compress_cons.
  destruct b; simpl; rewrite IH; reflexivity.
Qed.

(** Taking the positions where the mask holds is masking. *)
Lemma np_take_where T (mask : list bool) (l : list T) :
  length l = length mask ->
  np_take l (np_where mask) = Ok (compress mask l).
Proof.
  unfold np_take, np_where. revert l.
  induction mask as [| b mask IH]; intros l Hl.
  - destruct l; [reflexivity | discriminate].
  - destruct l as [| x l]; [discriminate |]. injection Hl as Hl.
    simpl length. simpl seq. rewrite !compress_cons.
    rewrite compress_shift.
    assert (Htail : mapM (fun i => match nth_error (x :: l) i with
                                   | Some y => Ok y
                                   | None => Raise IndexError
                                   end)
                      (map S (compress mask (seq 0 (length mask))))
                    = Ok (compress mask l)).
    { rewrite <- (IH l Hl).
      generalize (compress mask (seq 0 (length mask))) as idx.
      induction idx as [| i idx IHidx]; [reflexivity |].
      simpl. destruct (nth_error l i); simpl; [| reflexivity].
      simpl in IHidx. rewrite IHidx. reflexivity. }
    destruct b; [| exact Htail].
    simpl. rewrite Htail. reflexivity.
Qed.

Lemma np_where_length T (mask : list bool) (l : list T) :
  length l = length mask -> length (np_where mask) = length (compress mask l).
Proof.
  intros Hl. unfold np_where. apply compress_length; [| exact Hl].
  apply length_seq.
Qed.

(** The two successive masks of the gene selection are one filter. *)
Lemma two_stage_filter T R P (pos : R -> bool) (sig : P -> bool)
      (names : list T) (rps : list (R * P)) :
  length names = length rps ->
  compress (map sig (compress (map pos (map fst rps)) (map snd rps)))
           (compress (map pos (map fst rps)) names)
  = map fst (filter (fun x => pos (fst (snd x)) && sig (snd (snd x)))
                    (combine names rps)).
Proof.
  revert names. induction rps as [| [r p] rps IH]; intros names Hl.
  - destruct names; [reflexivity | discriminate].
  - destruct names as [| x names]; [discriminate |]. injection Hl as Hl.
    cbn [map fst snd combine filter]. rewrite !compress_cons.
    destruct (pos r); cbn [andb map].
    + rewrite compress_cons. destruct (sig p); cbn [map fst];
        rewrite IH by assumption; reflexivity.
    + apply IH, Hl.
Qed.

(** ** Subsequences *)

Lemma subseq_nil_l T (l : list T) : subseq [] l.
Proof. induction l; constructor; assumption. Qed.

Lemma subseq_trans T (l1 l2 l3 : list T) :
  subseq l1 l2 -> subseq l2 l3 -> subseq l1 l3.
Proof.
  intros H12 H23. revert l1 H12.
  induction H23 as [| x l2 l3 _ IH | x l2 l3 _ IH]; intros l1 H12.
  - exact H12.
  - apply subseq_skip, IH, H12.
  - inversion H12; subst.
    + apply subseq_skip, IH. assumption.
    + apply subseq_keep, IH. assumption.
Qed.

Lemma mapM_map T U V (g : T -> U) (f : U -> res V) (l : list T) :
  mapM f (map g l) = mapM (fun x => f (g x)) l.
Proof.
  induction l as [| x l IH]; simpl; [reflexivity |].
  rewrite IH. reflexivity.
Qed.

Lemma mapM_seq_nth T U (f : T -> res U) (l : list T) (d : T) :
  mapM (fun g => f (nth g l d)) (seq 0 (length l)) = mapM f l.
Proof.
  induction l as [| x l IH]; [reflexivity |].
  simpl length. simpl seq. simpl mapM.
  rewrite <- seq_shift, mapM_map. simpl nth. rewrite IH. reflexivity.
Qed.

(** ** Gene selection *)

Section GeneSelection.

Variable pvalue : nat -> coef -> float.

Lemma genes_loop sdge archetypes archetype a (l : list nat) acc :
  np_index archetypes archetype = Ok a ->
  for_each l (genes_body pvalue sdge archetypes archetype) acc
  = (rps <-- mapM (fun g => pearsonr pvalue (nth g sdge []) a) l ;;
     Ok (fst acc ++ map fst rps, snd acc ++ map snd rps))%py.
Proof.
  intros Ha. revert acc. induction l as [| g l IH]; intros acc.
  - simpl. rewrite !app_nil_r. destruct acc; reflexivity.
  - simpl. unfold genes_body at 1. rewrite Ha. simpl.
    destruct (pearsonr pvalue (nth g sdge []) a) as [rp |]; simpl; [| reflexivity].
    rewrite IH. simpl.
    destruct (mapM _ l) as [rps |]; simpl; [| reflexivity].
    rewrite <- !app_assoc. reflexivity.
Qed.

Lemma genes_loop_lengths sdge archetypes archetype (l : list nat) acc corrs :
  for_each l (genes_body pvalue sdge archetypes archetype) acc = Ok corrs ->
  length (fst acc) = length (snd acc) ->
  length (fst corrs) = length (snd corrs).
Proof.
  revert acc. induction l as [| g l IH]; intros acc.
  - simpl. intros [= <-]. trivial.
  - simpl. unfold genes_body at 1.
    destruct (np_index archetypes archetype) as [a |]; simpl; [| discriminate].
    destruct (pearsonr pvalue (nth g sdge []) a) as [rp |]; simpl; [| discriminate].
    intros H Hacc. apply (IH _ H). simpl. rewrite !length_app. simpl. lia.
Qed.

(** C5. When the correlations of all genes with the chosen archetype row
    are computed without an exception and [gene_names] has one name per gene,
    the function returns exactly the names of the genes with a strictly
    positive coefficient and a p-value at most [pval_threshold]; when there
    is none it prints the no-significant-genes message and returns [None]
    without raising. *)
Theorem get_genes_selects_significant
    sdge gene_names archetypes archetype pval_threshold a stats :
  np_index archetypes archetype = Ok a ->
  mapM (fun row => pearsonr pvalue row a) sdge = Ok stats ->
  length gene_names = length sdge ->
  get_genes_from_spatial_archetype pvalue sdge gene_names archetypes archetype
    pval_threshold
  = match significant pval_threshold gene_names stats with
    | [] => ([no_genes_message], Ok None)
    | genes => ([], Ok (Some genes))
    end.
Proof.
  intros Ha Hstats Hnames.
  pose proof (@mapM_length _ _ _ _ _ Hstats) as Hlen.
  unfold get_genes_from_spatial_archetype.
  pose proof (mapM_seq_nth (fun row => pearsonr pvalue row a) sdge []) as Hseq.
  cbv beta in Hseq.
  rewrite (@genes_loop sdge archetypes archetype a _ _ Ha), Hseq, Hstats.
  cbn [rbind lift bind fst snd app].
  set (positive := map (fun r => coef_gtb r (coef_of_Q 0)) (map fst stats)).
  set (sig := fun p => Float.leb p pval_threshold).
  assert (Hpos : length positive = length stats)
    by (unfold positive; rewrite !length_map; reflexivity).
  assert (Hsel : length (compress positive gene_names)
                 = length (map sig (compress positive (map snd stats)))).
  { rewrite length_map. apply compress_length; [lia |].
    rewrite length_map. lia. }
  pose proof (@np_where_length _ _ _ Hsel) as Hidx.
  assert (Htwo : compress (map sig (compress positive (map snd stats)))
                          (compress positive gene_names)
                 = significant pval_threshold gene_names stats).
  { unfold significant, positive.
    apply (@two_stage_filter _ _ _ (fun r => coef_gtb r (coef_of_Q 0)) sig).
    lia. }
  rewrite Htwo in Hidx.
  destruct (Nat.eqb_spec
              (length (np_where (map sig (compress positive (map snd stats))))) 0)
    as [Hz | Hnz].
  - rewrite Hidx in Hz.
    destruct (significant pval_threshold gene_names stats);
      [reflexivity | discriminate].
  - unfold np_mask.
    assert (Nat.eqb (length gene_names) (length positive) = true) as ->
        by (apply Nat.eqb_eq; lia).
    cbn [lift bind]. rewrite (@np_take_where _ _ _ Hsel), Htwo.
    rewrite Hidx in Hnz.
    destruct (significant pval_threshold gene_names stats);
      [contradiction | reflexivity].
Qed.

(** C9. Whenever the function returns a sequence, the sequence is not
    empty and its names appear in the order they have in [gene_names]. *)
Theorem get_genes_ordered_nonempty
    sdge gene_names archetypes archetype pval_threshold genes :
  result (get_genes_from_spatial_archetype pvalue sdge gene_names archetypes
            archetype pval_threshold)
  = Ok (Some genes) ->
  genes <> [] /\ subseq genes gene_names.
Proof.
  unfold get_genes_from_spatial_archetype.
  destruct (for_each _ _ _) as [[all_corrs all_corrs_p] |] eqn:Hloop;
    [| discriminate].
  apply genes_loop_lengths in Hloop; [| reflexivity].
  cbn [lift bind fst snd app] in *.
  set (positive := map (fun r => coef_gtb r (coef_of_Q 0)) all_corrs).
  set (mask := map (fun p => Float.leb p pval_threshold)
                   (compress positive all_corrs_p)).
  destruct (Nat.eqb_spec (length (np_where mask)) 0) as [Hz | Hnz];
    [discriminate |].
  unfold np_mask.
  destruct (Nat.eqb_spec (length gene_names) (length positive)) as [Hn | Hn];
    [| discriminate].
  cbn [lift bind app].
  assert (Hsel : length (compress positive gene_names) = length mask).
  { unfold mask. rewrite length_map. apply compress_length; [exact Hn |].
    unfold positive. rewrite length_map. lia. }
  rewrite (@np_take_where _ _ _ Hsel). cbn. intros [= <-]. split.
  - rewrite (@np_where_length _ _ _ Hsel) in Hnz.
    intros E. rewrite E in Hnz. apply Hnz. reflexivity.
  - eapply subseq_trans; apply compress_subseq.
Qed.

End GeneSelection.

(** ** Maximum and argmax of the archetype correlations *)

Lemma argmax_max_finite (xs : vector) :
  forall l1 b l2,
    Forall finite xs -> Forall (below b) l1 -> Forall (at_most b) l2 ->
    exists l1' m l2',
      (l1 ++ Fin b :: l2) ++ xs = l1' ++ Fin m :: l2' /\
      Forall (below m) l1' /\ Forall (at_most m) l2' /\
      fold_left Float.maximum xs (Fin b) = Fin m /\
      argmax_from xs (length (l1 ++ Fin b :: l2)) (Fin b) (length l1)
      = length l1'.
Proof.
  induction xs as [| x xs IH]; intros l1 b l2 Hxs Hl1 Hl2.
  - exists l1, b, l2. rewrite app_nil_r. repeat split; assumption.
  - inversion Hxs as [| ? ? Hx Hxs']; subst.
    destruct (finite_inv Hx) as [a ->].
    cbn [fold_left argmax_from Float.isnan]. rewrite maximum_fin.
    unfold Float.gtb. cbn [Float.ltb Float.isnan]. rewrite orb_false_r.
    destruct (Float.Qltb b a) eqn:E.
    + apply Qltb_lt in E.
      destruct (IH (l1 ++ Fin b :: l2) a [] Hxs') as [l1' [m [l2' H]]].
      * apply Forall_app. split; [| constructor].
        -- eapply Forall_impl; [| exact Hl1].
           intros x [q [-> Hq]]. exists q. split; [reflexivity | lra].
        -- exists b. split; [reflexivity | exact E].
        -- eapply Forall_impl; [| exact Hl2].
           intros x [q [-> Hq]]. exists q. split; [reflexivity | lra].
      * constructor.
      * exists l1', m, l2'.
        replace ((l1 ++ Fin b :: l2) ++ Fin a :: xs)
          with (((l1 ++ Fin b :: l2) ++ [Fin a]) ++ xs)
          by (rewrite <- app_assoc; reflexivity).
        replace (S (length (l1 ++ Fin b :: l2)))
          with (length ((l1 ++ Fin b :: l2) ++ [Fin a]))
          by (rewrite length_app; simpl; lia).
        exact H.
    + apply Qltb_ge in E.
      destruct (IH l1 b (l2 ++ [Fin a]) Hxs' Hl1) as [l1' [m [l2' H]]].
      * apply Forall_app. split; [exact Hl2 |].
        constructor; [| constructor]. exists a. split; [reflexivity | exact E].
      * exists l1', m, l2'.
        replace ((l1 ++ Fin b :: l2) ++ Fin a :: xs)
          with ((l1 ++ Fin b :: l2 ++ [Fin a]) ++ xs)
          by (repeat (rewrite <- app_assoc; simpl); reflexivity).
        replace (S (length (l1 ++ Fin b :: l2)))
          with (length (l1 ++ Fin b :: l2 ++ [Fin a]))
          by (rewrite !length_app; simpl; rewrite length_app; simpl; lia).
        exact H.
Qed.

Lemma np_max_argmax_finite (l : vector) :
  l <> [] -> Forall finite l ->
  exists i m, first_max_at l i m /\
              np_max l = Ok (Fin m) /\ np_argmax l = Ok i.
Proof.
  intros Hne Hl. destruct l as [| x xs]; [congruence |].
  inversion Hl as [| ? ? Hx Hxs]; subst.
  destruct (finite_inv Hx) as [b ->].
  destruct (@argmax_max_finite xs [] b [] Hxs) as [l1 [m [l2 [Heq [H1 [H2 [Hmax Harg]]]]]]];
    [constructor | constructor |].
  exists (length l1), m. split; [| split].
  - exists l1, l2. repeat split; assumption.
  - simpl. rewrite Hmax. reflexivity.
  - simpl. simpl in Harg. rewrite Harg. reflexivity.
Qed.

Lemma fold_maximum_nan (xs : vector) : fold_left Float.maximum xs NaN = NaN.
Proof. induction xs; simpl; [reflexivity | assumption]. Qed.

Lemma argmax_from_nan (xs : vector) i besti : argmax_from xs i NaN besti = besti.
Proof. destruct xs; reflexivity. Qed.

Lemma argmax_max_nan (xs : vector) :
  forall l1 l2 best besti i,
    xs = l1 ++ NaN :: l2 ->
    Forall (fun x => Float.isnan x = false) l1 ->
    Float.isnan best = false ->
    fold_left Float.maximum xs best = NaN /\
    argmax_from xs i best besti = (i + length l1)%nat.
Proof.
  induction xs as [| x xs IH]; intros l1 l2 best besti i Heq Hl1 Hbest.
  - destruct l1; discriminate.
  - destruct l1 as [| y l1].
    + injection Heq as -> ->. cbn [fold_left argmax_from].
      rewrite Hbest. unfold Float.maximum. rewrite Hbest.
      cbn [Float.isnan orb]. rewrite orb_true_r.
      rewrite fold_maximum_nan, argmax_from_nan. split; [reflexivity |].
      simpl. lia.
    + injection Heq as -> ->. inversion Hl1 as [| ? ? Hy Hl1']; subst.
      cbn [fold_left argmax_from]. rewrite Hbest, Hy, orb_false_r.
      assert (Hm : Float.isnan (Float.maximum best y) = false).
      { unfold Float.maximum. rewrite Hbest, Hy. simpl.
        destruct (Float.ltb best y); assumption. }
      destruct (Float.gtb y best).
      * destruct (IH l1 l2 y i (S i) eq_refl Hl1' Hy) as [_ Harg].
        destruct (IH l1 l2 (Float.maximum best y) i (S i) eq_refl Hl1' Hm)
          as [Hmax _].
        split; [exact Hmax |]. rewrite Harg. simpl. lia.
      * destruct (IH l1 l2 best besti (S i) eq_refl Hl1' Hbest) as [_ Harg].
        destruct (IH l1 l2 (Float.maximum best y) i (S i) eq_refl Hl1' Hm)
          as [Hmax _].
        split; [exact Hmax |]. rewrite Harg. simpl. lia.
Qed.

Lemma np_max_argmax_nan (l : vector) (i : nat) :
  first_nan_at l i -> np_max l = Ok NaN /\ np_argmax l = Ok i.
Proof.
  intros [l1 [l2 [-> [<- Hl1]]]].
  destruct l1 as [| x l1].
  - simpl. rewrite fold_maximum_nan, argmax_from_nan. split; reflexivity.
  - inversion Hl1 as [| ? ? Hx Hl1']; subst. simpl.
    destruct (@argmax_max_nan (l1 ++ NaN :: l2) l1 l2 x 0%nat 1%nat
                eq_refl Hl1' Hx) as [Hmax Harg].
    rewrite Hmax, Harg. split; reflexivity.
Qed.

(** ** Genes related to a query gene *)

Lemma nan_or_finite_cases (l : vector) :
  Forall (fun x => x = NaN \/ finite x) l ->
  Forall finite l \/ exists i, first_nan_at l i.
Proof.
  induction 1 as [| x l Hx _ IH]; [left; constructor |].
  destruct Hx as [-> | Hx].
  - right. exists 0%nat, [], l. repeat split. constructor.
  - destruct IH as [IH | [i [l1 [l2 [-> [<- Hl1]]]]]].
    + left. constructor; assumption.
    + right. exists (S (length l1)), (x :: l1), l2. repeat split.
      constructor; [| exact Hl1]. destruct x; try discriminate; reflexivity.
Qed.

Lemma sign_cases (x : float) :
  Float.sign x = NaN \/ Float.sign x = Fin (-1) \/
  Float.sign x = Fin 0 \/ Float.sign x = Fin 1.
Proof.
  destruct x as [| | | a]; cbn [Float.sign]; auto.
  destruct (a ?= 0)%Q; auto.
Qed.

(** A product of two signs is -1, 0, 1 or [NaN]. *)
Lemma sign_product_cases (x y : float) :
  Float.mul (Float.sign x) (Float.sign y) = NaN \/
  Float.mul (Float.sign x) (Float.sign y) = Fin (-1) \/
  Float.mul (Float.sign x) (Float.sign y) = Fin 0 \/
  Float.mul (Float.sign x) (Float.sign y) = Fin 1.
Proof.
  destruct (sign_cases x) as [-> | [-> | [-> | ->]]];
    destruct (sign_cases y) as [-> | [-> | [-> | ->]]];
    vm_compute; auto 6.
Qed.

Section RelatedGenes.

Variable pvalue : nat -> coef -> float.

Lemma pearsonr_nan_or_finite x y r p :
  pearsonr pvalue x y = Ok (r, p) ->
  signed_square r = NaN \/ finite (signed_square r).
Proof.
  unfold pearsonr.
  destruct (negb _); [discriminate |].
  destruct (Nat.ltb _ _); [discriminate |].
  destruct (_ || _); [intros [= <- _]; left; reflexivity |].
  destruct (Nat.eqb _ 2).
  - unfold pearson_pair. intros [= <- _]. cbn [signed_square].
    destruct (sign_product_cases
                (Float.sub (nth 1 x NaN) (nth 0 x NaN))
                (Float.sub (nth 1 y NaN) (nth 0 y NaN)))
      as [-> | [-> | [-> | ->]]]; [left | right | right | right]; reflexivity.
  - destruct (_ && _); [| discriminate].
    unfold pearson_stat. intros [= <- _]. unfold pearson_coef.
    destruct (Float.Qeqb _ _); [left | right]; reflexivity.
Qed.

Lemma related_loop sdge archetypes gene row (l : list nat) acc :
  np_index sdge gene = Ok row ->
  for_each l (related_body pvalue sdge archetypes gene) acc
  = (stats <-- mapM (fun k => pearsonr pvalue row (nth k archetypes [])) l ;;
     Ok (acc ++ map fst stats))%py.
Proof.
  intros Hrow. revert acc. induction l as [| k l IH]; intros acc.
  - simpl. rewrite app_nil_r. reflexivity.
  - cbn [for_each mapM]. unfold related_body at 1. rewrite Hrow. cbn [rbind].
    destruct (pearsonr pvalue row (nth k archetypes [])) as [rp |];
      cbn [rbind]; [| reflexivity].
    rewrite IH. destruct (mapM _ l) as [stats |]; cbn [rbind map];
      [| reflexivity].
    rewrite <- app_assoc. reflexivity.
Qed.

Lemma related_unfold sdge gene_names archetypes gene pval_threshold arch_corrs :
  for_each (seq 0 (length archetypes))
           (related_body pvalue sdge archetypes gene) []
  = Ok arch_corrs ->
  find_spatially_related_genes pvalue sdge gene_names archetypes gene
    pval_threshold
  = match np_max (map signed_square arch_corrs) with
    | Raise e => ([], Raise e)
    | Ok best =>
        if coef_ltb (SignedSquare best) (coef_of_Q (7 # 10))
        then ([no_archetype_message], Ok None)
        else match np_argmax (map signed_square arch_corrs) with
             | Raise e => ([], Raise e)
             | Ok i => get_genes_from_spatial_archetype pvalue sdge gene_names
                         archetypes (Z.of_nat i)
                         pval_threshold
             end
    end.
Proof.
  intros Hloop. unfold find_spatially_related_genes.
  rewrite Hloop. unfold coef_max, coef_argmax, lift, bind.
  destruct (np_max _) as [best |]; cbn [rbind app]; [| reflexivity].
  destruct (coef_ltb _ _); [reflexivity |].
  destruct (np_argmax _) as [i |]; [| reflexivity].
  destruct (get_genes_from_spatial_archetype pvalue _ _ _ _ _). reflexivity.
Qed.

(** What the function computes from the correlations of the query gene
    with the archetype rows, once they are all computed without an exception,
    at least one archetype given. If none of them is NaN, the function takes
    the archetype [i] of maximum correlation (stored as [m]), ties resolved
    towards the first index; it prints the no-archetype message and returns
    [None] when that maximum is below 0.7, and otherwise returns what
    [get_genes_from_spatial_archetype] returns for archetype [i] with the
    same threshold. If some correlation is NaN, [np.max] is NaN, the test
    against 0.7 does not fire, and [np.argmax] gives the first archetype
    whose correlation is NaN. *)
Theorem related_genes_best_archetype
    sdge gene_names archetypes gene pval_threshold row stats :
  np_index sdge gene = Ok row ->
  mapM (fun a => pearsonr pvalue row a) archetypes = Ok stats ->
  archetypes <> [] ->
  let corrs := map (fun rp => signed_square (fst rp)) stats in
  (exists i m,
      first_max_at corrs i m /\
      find_spatially_related_genes pvalue sdge gene_names archetypes gene
        pval_threshold
      = if coef_ltb (SignedSquare (Fin m)) (coef_of_Q (7 # 10))
        then ([no_archetype_message], Ok None)
        else get_genes_from_spatial_archetype pvalue sdge gene_names archetypes
               (Z.of_nat i) pval_threshold)
  \/
  (exists i,
      first_nan_at corrs i /\
      find_spatially_related_genes pvalue sdge gene_names archetypes gene
        pval_threshold
      = get_genes_from_spatial_archetype pvalue sdge gene_names archetypes
          (Z.of_nat i) pval_threshold).
Proof.
  intros Hrow Hstats Hne corrs.
  assert (Hloop : for_each (seq 0 (length archetypes))
                    (related_body pvalue sdge archetypes gene) []
                  = Ok (map fst stats)).
  { rewrite (@related_loop sdge archetypes gene row _ _ Hrow).
    pose proof (mapM_seq_nth (fun a => pearsonr pvalue row a) archetypes [])
      as Hseq.
    cbv beta in Hseq. rewrite Hseq, Hstats. reflexivity. }
  assert (Hcorrs : map signed_square (map fst stats) = corrs)
    by (unfold corrs; rewrite map_map; reflexivity).
  assert (Hnonempty : corrs <> []).
  { pose proof (@mapM_length _ _ _ _ _ Hstats) as Hlen.
    unfold corrs. destruct stats; [| discriminate].
    destruct archetypes; [congruence | discriminate]. }
  assert (Hcases : Forall (fun x => x = NaN \/ finite x) corrs).
  { unfold corrs. apply Forall_map, Forall_forall. intros [r p] Hin.
    destruct (In_nth _ _ (coef_nan, NaN) Hin) as [k [Hk Hnth]].
    pose proof (@mapM_length _ _ _ _ _ Hstats) as Hlen.
    pose proof (@mapM_nth _ _ _ _ _ k [] (coef_nan, NaN) Hstats
                  ltac:(lia)) as Hp.
    rewrite Hnth in Hp. apply (pearsonr_nan_or_finite _ _ Hp). }
  rewrite (related_unfold _ _ _ _ _ Hloop), Hcorrs.
  destruct (nan_or_finite_cases Hcases) as [Hfin | [i Hnan]].
  - left. destruct (np_max_argmax_finite Hnonempty Hfin)
      as [i [m [Hfirst [Hmax Harg]]]].
    exists i, m. split; [exact Hfirst |].
    rewrite Hmax, Harg. reflexivity.
  - right. exists i. split; [exact Hnan |].
    destruct (np_max_argmax_nan Hnan) as [Hmax Harg].
    rewrite Hmax, Harg. reflexivity.
Qed.

End RelatedGenes.

(** ** The Cauchy-Schwarz inequality and the range of the coefficient *)



Lemma dot_cons a b (x y : list Q) : (dot (a :: x) (b :: y) == a * b + dot x y)%Q.
Proof. reflexivity. Qed.

Lemma Qsquare_nonneg (q : Q) : (0 <= q * q)%Q.
Proof.
  destruct (Qlt_le_dec q 0).
  - setoid_replace (q * q)%Q with ((- q) * (- q))%Q by ring.
    apply Qmult_le_0_compat; lra.
  - apply Qmult_le_0_compat; lra.
Qed.

Lemma dot_self_nonneg (x : list Q) : (0 <= dot x x)%Q.
Proof.
  induction x as [| a x IH]; [unfold dot; simpl; lra |].
  rewrite dot_cons. pose proof (Qsquare_nonneg a). lra.
Qed.




(** ** The stored coefficient and the real coefficient *)

Lemma Q2R_pos (q : Q) : (0 < q)%Q -> (0 < Q2R q)%R.
Proof.
  intros H. replace 0%R with (Q2R 0) by (unfold Q2R; simpl; field).
  apply Qlt_Rlt, H.
Qed.

Lemma Q2R_nonneg (q : Q) : (0 <= q)%Q -> (0 <= Q2R q)%R.
Proof.
  intros H. replace 0%R with (Q2R 0) by (unfold Q2R; simpl; field).
  apply Qle_Rle, H.
Qed.

Lemma coef_real_compat (s t : Q) : (s == t)%Q -> coef_real s = coef_real t.
Proof.
  intros E. unfold coef_real.
  destruct (Qlt_le_dec s 0), (Qlt_le_dec t 0);
    try (rewrite E in *; exfalso; eapply Qlt_not_le; eassumption).
  - rewrite (Qeq_eqR (- s) (- t)) by (rewrite E; reflexivity). reflexivity.
  - rewrite (Qeq_eqR s t E). reflexivity.
Qed.

(** The stored value [n * |n| / d] stands for [n / sqrt d]. *)
Lemma coef_real_quotient (n d : Q) :
  (0 < d)%Q -> coef_real (n * Qabs n / d) = (Q2R n / sqrt (Q2R d))%R.
Proof.
  intros Hd.
  pose proof (Q2R_pos Hd) as HdR.
  assert (Hnz : ~ (d == 0)%Q) by lra.
  assert (Hsd : (0 < sqrt (Q2R d))%R) by (apply sqrt_lt_R0, HdR).
  destruct (Qlt_le_dec n 0) as [Hn | Hn].
  - assert (E : (n * Qabs n / d == - ((- n) * (- n) / d))%Q).
    { rewrite (Qabs_neg n) by lra. field. exact Hnz. }
    rewrite (coef_real_compat E). unfold coef_real.
    assert (HnR : (0 < Q2R (- n))%R) by (apply Q2R_pos; lra).
    rewrite Q2R_opp in HnR.
    destruct (Qlt_le_dec (- (- n * - n / d)) 0) as [Hs | Hs].
    + rewrite (Qeq_eqR (- - (- n * - n / d)) ((- n) * (- n) / d)) by ring.
      rewrite Q2R_div, Q2R_mult, Q2R_opp by exact Hnz.
      rewrite sqrt_div_alt by exact HdR.
      rewrite sqrt_square by Lra.lra. field. apply Rgt_not_eq, Hsd.
    + exfalso.
      assert (0 < - n * - n / d)%Q.
      { apply Qlt_shift_div_l; [exact Hd |].
        setoid_replace (0 * d)%Q with 0%Q by ring.
        apply Qmult_lt_0_compat; lra. }
      lra.
  - assert (E : (n * Qabs n / d == n * n / d)%Q)
      by (rewrite (Qabs_pos n) by exact Hn; reflexivity).
    rewrite (coef_real_compat E). unfold coef_real.
    pose proof (Q2R_nonneg Hn) as HnR.
    destruct (Qlt_le_dec (n * n / d) 0) as [Hs | Hs].
    + exfalso.
      assert (0 <= n * n / d)%Q.
      { apply Qle_shift_div_l; [exact Hd |].
        setoid_replace (0 * d)%Q with 0%Q by ring. apply Qsquare_nonneg. }
      lra.
    + rewrite Q2R_div, Q2R_mult by exact Hnz.
      rewrite sqrt_div_alt by exact HdR.
      rewrite sqrt_square by exact HnR. reflexivity.
Qed.

(** A rational coefficient such as the threshold 0.7 is stored as a value
    that stands for itself. *)
Lemma coef_real_of_Q (q : Q) :
  coef_real (val (signed_square (coef_of_Q q))) = Q2R q.
Proof.
  unfold coef_of_Q, Float.fin. cbn [signed_square val].
  rewrite (@coef_real_compat _ (q * Qabs q / 1))
    by (rewrite Qred_correct; field).
  rewrite coef_real_quotient by lra.
  replace (Q2R 1) with 1%R by (unfold Q2R; simpl; field).
  rewrite sqrt_1. field.
Qed.

(** Stored values are ordered as the coefficients they stand for. *)
Lemma coef_real_lt (s t : Q) : (s < t)%Q -> (coef_real s < coef_real t)%R.
Proof.
  intros Hst. unfold coef_real.
  destruct (Qlt_le_dec s 0) as [Hs | Hs], (Qlt_le_dec t 0) as [Ht | Ht].
  - apply Ropp_lt_contravar, sqrt_lt_1.
    + apply Q2R_nonneg; lra.
    + apply Q2R_nonneg; lra.
    + apply Qlt_Rlt. lra.
  - apply Rlt_le_trans with 0%R.
    + apply Ropp_lt_gt_0_contravar, sqrt_lt_R0, Q2R_pos. lra.
    + apply sqrt_pos.
  - lra.
  - apply sqrt_lt_1.
    + apply Q2R_nonneg, Hs.
    + apply Q2R_nonneg, Ht.
    + apply Qlt_Rlt, Hst.
Qed.

Lemma coef_real_lt_iff (s t : Q) : (s < t)%Q <-> (coef_real s < coef_real t)%R.
Proof.
  split; [apply coef_real_lt |].
  intros H. apply Qnot_le_lt. intros Hts.
  apply Qle_lteq in Hts. destruct Hts as [Hlt | Heq].
  - apply coef_real_lt in Hlt. Lra.lra.
  - rewrite (coef_real_compat Heq) in H. Lra.lra.
Qed.

(** What [pearson_coef] stores stands for
    [sum(xm * ym) / sqrt(sum(xm^2) * sum(ym^2))]. *)
Lemma pearson_coef_real (x y : list Q) (s : Q) :
  pearson_coef x y = SignedSquare (Fin s) ->
  coef_real s
  = (Q2R (dot (deviations x) (deviations y))
     / sqrt (Q2R (dot (deviations x) (deviations x)
                  * dot (deviations y) (deviations y))))%R.
Proof.
  unfold pearson_coef, Float.fin. cbv zeta.
  remember (_ * Qabs _ / _)%Q as q eqn:Hq.
  destruct (Float.Qeqb _ _) eqn:E; [discriminate |].
  apply Qeqb_neq in E. intros [= <-].
  rewrite (coef_real_compat (Qred_correct q)), Hq.
  apply coef_real_quotient.
  pose proof (dot_self_nonneg (deviations x)).
  pose proof (dot_self_nonneg (deviations y)).
  assert (0 <= dot (deviations x) (deviations x)
               * dot (deviations y) (deviations y))%Q
    by (apply Qmult_le_0_compat; assumption).
  destruct (Qeq_dec (dot (deviations x) (deviations x)
                     * dot (deviations y) (deviations y)) 0);
    [contradiction | lra].
Qed.

(** ** Archetypes *)


Lemma np_index_ok T (l : list T) (i : Z) (d : T) :
  (0 <= i < Z.of_nat (length l))%Z ->
  np_index l i = Ok (nth (Z.to_nat i) l d).
Proof.
  intros Hi. unfold np_index.
  assert ((i <? 0)%Z = false) as -> by lia.
  assert (((0 <=? i) && (i <? Z.of_nat (length l)))%Z = true) as -> by lia.
  destruct (nth_error l (Z.to_nat i)) as [x |] eqn:E.
  - rewrite (nth_error_nth _ _ d E). reflexivity.
  - apply nth_error_None in E. lia.
Qed.

Lemma np_index_empty T (i : Z) : np_index (@nil T) i = Raise IndexError.
Proof.
  unfold np_index. simpl.
  destruct (i <? 0)%Z; rewrite ?Z.add_0_r;
    destruct ((0 <=? i) && (i <? 0))%Z eqn:E; try reflexivity; lia.
Qed.

Lemma np_index_raise T (l : list T) (i : Z) (e : exn) :
  np_index l i = Raise e -> e = IndexError.
Proof.
  unfold np_index. destruct (_ && _)%bool; [| congruence].
  destruct (nth_error _ _); congruence.
Qed.

Lemma py_range_length (a b : Z) : length (py_range a b) = Z.to_nat (b - a).
Proof. unfold py_range. rewrite length_map, length_seq. reflexivity. Qed.

Lemma py_range_nth (a b : Z) (i : nat) :
  (i < Z.to_nat (b - a))%nat ->
  nth i (py_range a b) 0%Z = (a + Z.of_nat i)%Z.
Proof.
  intros Hi. unfold py_range.
  rewrite nth_indep with (d' := (a + Z.of_nat 0)%Z)
    by (rewrite length_map, length_seq; exact Hi).
  rewrite (map_nth (fun i => (a + Z.of_nat i)%Z)), seq_nth by exact Hi.
  reflexivity.
Qed.


Lemma mapM_in T U (f : T -> res U) (l : list T) (ys : list U) (y : U) :
  mapM f l = Ok ys -> In y ys -> exists x, In x l /\ f x = Ok y.
Proof.
  revert ys. induction l as [| x l IH]; intros ys; simpl.
  - intros [= <-] [].
  - destruct (f x) as [y0 |] eqn:Hx; simpl; [| discriminate].
    destruct (mapM f l) as [ys0 |]; simpl; [| discriminate].
    intros [= <-] [<- | Hin].
    + exists x. split; [left; reflexivity | exact Hx].
    + destruct (IH ys0 eq_refl Hin) as [x' [Hin' Hx']].
      exists x'. split; [right; exact Hin' | exact Hx'].
Qed.

Lemma mapM_raise T U (f : T -> res U) (l : list T) (e : exn) :
  mapM f l = Raise e -> exists x, In x l /\ f x = Raise e.
Proof.
  induction l as [| x l IH]; simpl; [discriminate |].
  destruct (f x) as [y |] eqn:Hx; simpl.
  - destruct (mapM f l) as [ys |]; simpl; [discriminate |].
    intros [= <-]. destruct IH as [x' [Hin Hx']]; [reflexivity |].
    exists x'. split; [right; exact Hin | exact Hx'].
  - intros [= <-]. exists x. split; [left; reflexivity | exact Hx].
Qed.

(** ** Means of one row, sums and variances *)



Lemma members_cons row sdge c clusters x :
  members (row :: sdge) (c :: clusters) x
  = if Z.eqb c x then row :: members sdge clusters x
    else members sdge clusters x.
Proof. unfold members. cbn [combine filter snd]. destruct (Z.eqb c x); reflexivity. Qed.

Lemma members_notin sdge clusters x :
  ~ In x clusters -> members sdge clusters x = [].
Proof.
  revert sdge. induction clusters as [| c clusters IH]; intros sdge Hx.
  - destruct sdge; reflexivity.
  - destruct sdge as [| row sdge]; [reflexivity |].
    rewrite members_cons.
    destruct (Z.eqb_spec c x) as [-> | _]; [exfalso; apply Hx; left; reflexivity |].
    apply IH. intros H. apply Hx. right. exact H.
Qed.











(** ** Row selection, members of a cluster and column means *)














(** ** Constant sequences *)




(** ** The correlation routine *)

Section PearsonFacts.

Variable pvalue : nat -> coef -> float.



(** A constant first sequence gives NaN, whatever the second one holds. *)
Lemma pearsonr_all_equal (x y : vector) :
  length x = length y -> (2 <= length x)%nat -> all_equal x = true ->
  pearsonr pvalue x y = Ok (coef_nan, NaN).
Proof.
  intros Hl Hn Hx. unfold pearsonr.
  assert (Nat.eqb (length x) (length y) = true) as -> by (apply Nat.eqb_eq, Hl).
  assert (Nat.ltb (length x) 2 = false) as -> by (apply Nat.ltb_ge, Hn).
  rewrite Hx. reflexivity.
Qed.



End PearsonFacts.

(** ** Archetypes *)

Section ArchetypeFacts.

Variable pvalue : nat -> coef -> float.
Variable fcluster_ward : matrix -> Z -> res (list Z).

Lemma corr_loop sdge archetypes clusters (l : list nat) acc :
  for_each l (corr_body pvalue sdge archetypes clusters) acc
  = (ys <-- mapM (gene_corr pvalue sdge archetypes clusters) l ;; Ok (acc ++ ys))%py.
Proof.
  revert acc. induction l as [| g l IH]; intros acc.
  - simpl. rewrite app_nil_r. reflexivity.
  - cbn [for_each mapM]. unfold corr_body at 1, gene_corr at 1.
    destruct (np_index clusters (Z.of_nat g)) as [c |]; cbn [rbind];
      [| reflexivity].
    destruct (np_index archetypes (c - 1)) as [a |]; cbn [rbind];
      [| reflexivity].
    destruct (pearsonr pvalue (nth g sdge []) a) as [rp |]; cbn [rbind];
      [| reflexivity].
    rewrite IH. destruct (mapM _ l) as [ys |]; cbn [rbind]; [| reflexivity].
    rewrite <- app_assoc. reflexivity.
Qed.

Lemma archetypes_unfold num_clusters sdge :
  find_spatial_archetypes pvalue fcluster_ward num_clusters sdge
  = match fcluster_ward sdge num_clusters with
    | Raise e => (["Finding gene archetypes ... "%string], Raise e)
    | Ok clusters =>
        match mapM (arch_comp sdge clusters) (py_range 1 (num_clusters + 1)) with
        | Raise e => (["Finding gene archetypes ... "%string], Raise e)
        | Ok archetypes =>
            match mapM (gene_corr pvalue sdge archetypes clusters)
                       (seq 0 (length sdge)) with
            | Raise e => (["Finding gene archetypes ... "%string], Raise e)
            | Ok gene_corrs =>
                (["Finding gene archetypes ... "%string; "done"%string],
                 Ok (archetypes, clusters, gene_corrs))
            end
        end
    end.
Proof.
  unfold find_spatial_archetypes, bind, lift, print, ret.
  destruct (fcluster_ward sdge num_clusters) as [clusters |]; [| reflexivity].
  destruct (mapM (arch_comp sdge clusters) _) as [archetypes |];
    [| reflexivity].
  pose proof (corr_loop sdge archetypes clusters (seq 0 (length sdge)) [])
    as Hloop.
  rewrite Hloop.
  destruct (mapM (gene_corr pvalue sdge archetypes clusters) _) as [ys |];
    reflexivity.
Qed.


Lemma archetypes_inv num_clusters sdge archetypes clusters gene_corrs :
  result (find_spatial_archetypes pvalue fcluster_ward num_clusters sdge)
  = Ok (archetypes, clusters, gene_corrs) ->
  fcluster_ward sdge num_clusters = Ok clusters /\
  mapM (arch_comp sdge clusters) (py_range 1 (num_clusters + 1))
  = Ok archetypes /\
  mapM (gene_corr pvalue sdge archetypes clusters) (seq 0 (length sdge))
  = Ok gene_corrs.
Proof.
  rewrite archetypes_unfold.
  destruct (fcluster_ward sdge num_clusters) as [cl |]; [| discriminate].
  destruct (mapM (arch_comp sdge cl) _) as [ar |] eqn:Har; [| discriminate].
  destruct (mapM (gene_corr pvalue sdge ar cl) _) as [gc |] eqn:Hgc;
    [| discriminate].
  cbn. intros [= <- <- <-]. repeat split; assumption.
Qed.



(** C7, as amended. The function has no check of the cluster count. With
    [num_clusters < 1] and at least one gene, once the clustering routine has
    returned, the archetype matrix is empty and looking up the archetype of
    the first gene raises an index error, after the first status line. *)
Theorem nonpositive_cluster_count_raises num_clusters sdge clusters :
  (num_clusters < 1)%Z -> sdge <> [] ->
  fcluster_ward sdge num_clusters = Ok clusters ->
  find_spatial_archetypes pvalue fcluster_ward num_clusters sdge
  = (["Finding gene archetypes ... "%string], Raise IndexError).
Proof.
  intros Hnc Hne Hfc. rewrite archetypes_unfold, Hfc.
  assert (py_range 1 (num_clusters + 1) = []) as ->.
  { unfold py_range.
    replace (Z.to_nat (num_clusters + 1 - 1)) with 0%nat by lia. reflexivity. }
  cbn [mapM].
  destruct sdge as [| row sdge]; [congruence |].
  cbn [length seq mapM]. unfold gene_corr at 1.
  destruct (np_index clusters (Z.of_nat 0)) as [c | e] eqn:E; cbn [rbind].
  - rewrite np_index_empty. reflexivity.
  - rewrite (np_index_raise _ _ E). reflexivity.
Qed.

End ArchetypeFacts.

(** ** Singleton clusters *)

Section SingletonClusters.

Variable pvalue : nat -> coef -> float.
Variable fcluster_ward : matrix -> Z -> res (list Z).


End SingletonClusters.

(** ** Archetypes and gene selection on concrete inputs *)



(** C7, the claim as stated fails: three clusters asked of two genes is
    not refused; the function returns three archetype rows, the third one
    NaN. *)
Lemma too_many_clusters_accepted :
  find_spatial_archetypes pvalue_example (labels [1; 2]%Z) 3 two_gene_sdge
  = (archetype_done,
     Ok ([[Fin 0; Fin 1; Fin 2]; [Fin 2; Fin 0; Fin 1]; [NaN; NaN; NaN]],
         [1; 2]%Z, [coef_of_Q 1; coef_of_Q 1])).
Proof. vm_compute. reflexivity. Qed.

Lemma nonpositive_cluster_count_raises_witness :
  find_spatial_archetypes pvalue_example (labels [1; 1]%Z) 0 two_gene_sdge
  = (["Finding gene archetypes ... "%string], Raise IndexError).
Proof.
  apply (@nonpositive_cluster_count_raises pvalue_example (labels [1; 1]%Z)
           0%Z two_gene_sdge [1; 1]%Z).
  - lia.
  - discriminate.
  - reflexivity.
Defined.



Lemma get_genes_selects_significant_witness :
  np_index rising_archetype 0 = Ok [Fin 0; Fin 2; Fin 4] /\
  mapM (fun row => pearsonr pvalue_example row [Fin 0; Fin 2; Fin 4])
       four_gene_sdge = Ok rising_stats /\
  length four_gene_names = length four_gene_sdge /\
  significant (Fin 0) four_gene_names rising_stats = ["b"; "c"]%string /\
  get_genes_from_spatial_archetype pvalue_example four_gene_sdge
    four_gene_names rising_archetype 0 (Fin 0)
  = ([], Ok (Some ["b"; "c"]%string)).
Proof.
  assert (H1 : np_index rising_archetype 0 = Ok [Fin 0; Fin 2; Fin 4])
    by reflexivity.
  assert (H2 : mapM (fun row => pearsonr pvalue_example row [Fin 0; Fin 2; Fin 4])
                 four_gene_sdge = Ok rising_stats)
    by (vm_compute; reflexivity).
  assert (H3 : length four_gene_names = length four_gene_sdge) by reflexivity.
  repeat (split; [assumption || (vm_compute; reflexivity) |]).
  exact (@get_genes_selects_significant pvalue_example four_gene_sdge
           four_gene_names rising_archetype 0%Z (Fin 0) _ _ H1 H2 H3).
Defined.

Lemma get_genes_ordered_nonempty_witness :
  result (get_genes_from_spatial_archetype pvalue_example four_gene_sdge
            four_gene_names rising_archetype 0 (Fin 0))
  = Ok (Some ["b"; "c"]%string) /\
  ["b"; "c"]%string <> [] /\ subseq ["b"; "c"]%string four_gene_names.
Proof.
  assert (H : result (get_genes_from_spatial_archetype pvalue_example
                        four_gene_sdge four_gene_names rising_archetype 0 (Fin 0))
              = Ok (Some ["b"; "c"]%string)) by (vm_compute; reflexivity).
  split; [exact H |].
  exact (@get_genes_ordered_nonempty pvalue_example four_gene_sdge
           four_gene_names rising_archetype 0%Z (Fin 0) _ H).
Defined.

(** C6. The code takes the best archetype with [np.max] and [np.argmax],
    which a NaN correlation defeats. The query gene [a] matches the first
    archetype perfectly and the second archetype is constant: the
    correlations are 1 and NaN, the maximum is NaN, the test against 0.7 does
    not fire and the index taken is that of the NaN. The function returns
    what the gene selection gives for the second archetype, [None] with the
    no-genes message, whereas the selection for the first archetype, the one
    of maximum correlation, names the genes [a] and [b]. With a first
    archetype of correlation 0.5 the best correlation is below 0.7, yet the
    no-archetype message is not the one printed. *)
Lemma constant_archetype_hides_best_match :
  (exists p,
     mapM (fun a => pearsonr pvalue_example [Fin 0; Fin 1; Fin 2] a)
          (floats [[0; 1; 2]; [1; 1; 1]]%Z)
     = Ok [(coef_of_Q 1, p); (coef_nan, NaN)]) /\
  coef_ltb (coef_of_Q 1) (coef_of_Q (7 # 10)) = false /\
  find_spatially_related_genes pvalue_example three_gene_sdge three_gene_names
    (floats [[0; 1; 2]; [1; 1; 1]]%Z) 0 (Fin 1)
  = ([no_genes_message], Ok None) /\
  get_genes_from_spatial_archetype pvalue_example three_gene_sdge
    three_gene_names (floats [[0; 1; 2]; [1; 1; 1]]%Z) 0 (Fin 1)
  = ([], Ok (Some ["a"; "b"]%string)) /\
  (exists p,
     mapM (fun a => pearsonr pvalue_example [Fin 0; Fin 1; Fin 2] a)
          (floats [[0; 2; 1]; [1; 1; 1]]%Z)
     = Ok [(coef_of_Q (1 # 2), p); (coef_nan, NaN)]) /\
  coef_ltb (coef_of_Q (1 # 2)) (coef_of_Q (7 # 10)) = true /\
  find_spatially_related_genes pvalue_example three_gene_sdge three_gene_names
    (floats [[0; 2; 1]; [1; 1; 1]]%Z) 0 (Fin 1)
  = ([no_genes_message], Ok None) /\
  no_genes_message <> no_archetype_message.
Proof.
  split; [eexists; vm_compute; reflexivity |].
  split; [vm_compute; reflexivity |].
  split; [vm_compute; reflexivity |].
  split; [vm_compute; reflexivity |].
  split; [eexists; vm_compute; reflexivity |].
  split; [vm_compute; reflexivity |].
  split; [vm_compute; reflexivity | discriminate].
Qed.

(** With two archetype rows that are the same, and so match the query gene
    equally well, the first one is taken. *)
Example related_genes_first_of_ties :
  find_spatially_related_genes pvalue_example three_gene_sdge three_gene_names
    (floats [[2; 1; 0]; [0; 1; 2]; [0; 1; 2]]%Z) 0 (Fin 1)
  = get_genes_from_spatial_archetype pvalue_example three_gene_sdge
      three_gene_names (floats [[2; 1; 0]; [0; 1; 2]; [0; 1; 2]]%Z) 1 (Fin 1).
Proof. vm_compute. reflexivity. Qed.


(** * Further properties *)

(** ** Shortest paths are hop distances *)

Lemma walk_widen (G : connectivity) n k k' r c l :
  (k <= k')%nat -> walk G n k r c l -> walk G n k' r c l.
Proof.
  intros Hk. induction 1 as [r Hr | r c Hr Hc He | r m c l Hr Hm Hmn He _ IH].
  - apply walk_here, Hr.
  - apply walk_edge; assumption.
  - apply walk_step with m; try assumption. lia.
Qed.

Lemma walk_ends (G : connectivity) n k r c l :
  walk G n k r c l -> (r < n)%nat /\ (c < n)%nat.
Proof.
  induction 1 as [r Hr | r c Hr Hc He | r m c l Hr Hm Hmn He _ IH];
    [split; assumption | split; assumption | split; [assumption | apply IH]].
Qed.

Lemma walk_app (G : connectivity) n r m c l1 l2 :
  walk G n n r m l1 -> walk G n n m c l2 -> walk G n n r c (l1 + l2).
Proof.
  intros H1 H2.
  induction H1 as [r Hr | r m Hr Hm He | r a m l Hr Ha Han He _ IH].
  - exact H2.
  - apply walk_step with m; assumption.
  - cbn [Nat.add]. apply walk_step with a; try assumption. apply IH, H2.
Qed.

(** A walk allowed to pass through [k] either avoids [k], or decomposes at
    [k] into two walks that avoid it, no longer together than the walk. *)
Lemma walk_split (G : connectivity) n k r c l :
  walk G n (S k) r c l ->
  (exists l', (l' <= l)%nat /\ walk G n k r c l') \/
  (exists l1 l2, (l1 + l2 <= l)%nat /\ walk G n k r k l1 /\ walk G n k k c l2).
Proof.
  induction 1 as [r Hr | r c Hr Hc He | r m c l Hr Hm Hmn He _ IH].
  - left. exists 0%nat. split; [lia | apply walk_here, Hr].
  - left. exists 1%nat. split; [lia | apply walk_edge; assumption].
  - assert (Hcase : (m < k)%nat \/ m = k) by lia.
    destruct IH as [[l' [Hl' Hw]] | [l1 [l2 [Hl [Hw1 Hw2]]]]];
      destruct Hcase as [Hlt | ->].
    + left. exists (S l'). split; [lia |].
      apply walk_step with m; assumption.
    + right. exists 1%nat, l'. split; [lia |].
      split; [apply walk_edge; assumption | exact Hw].
    + right. exists (S l1), l2. split; [lia |].
      split; [apply walk_step with m; assumption | exact Hw2].
    + right. exists 1%nat, l2. split; [lia |].
      split; [apply walk_edge; assumption | exact Hw2].
Qed.

Lemma walk_distinct_length (G : connectivity) n k r c l :
  walk G n k r c l -> r <> c -> (1 <= l)%nat.
Proof. destruct 1; intros; [congruence | lia | lia]. Qed.

Lemma walk_distinct_edge (G : connectivity) n k r c l :
  walk G n k r c l -> r <> c -> has_proper_edge G n.
Proof.
  induction 1 as [r Hr | r c Hr Hc He | r m c l Hr Hm Hmn He _ IH];
    intros Hne.
  - congruence.
  - exists r, c. repeat split; assumption.
  - destruct (Nat.eq_dec r m) as [-> | Hrm]; [apply IH, Hne |].
    exists r, m. repeat split; assumption.
Qed.

Lemma hop_count_add (a b : nat) :
  (hop_count (a + b) == hop_count a + hop_count b)%Q.
Proof.
  unfold hop_count. rewrite Nat2Z.inj_add, inject_Z_plus. reflexivity.
Qed.

Lemma hop_count_le (a b : nat) : (a <= b)%nat -> (hop_count a <= hop_count b)%Q.
Proof. intros H. unfold hop_count. rewrite <- Zle_Qle. lia. Qed.

Lemma hop_count_le_inv (a b : nat) :
  (hop_count a <= hop_count b)%Q -> (a <= b)%nat.
Proof. unfold hop_count. rewrite <- Zle_Qle. lia. Qed.

Lemma minimum_cases (x y : float) :
  hops x -> hops y ->
  Float.minimum x y = x \/ Float.minimum x y = y.
Proof.
  intros Hx Hy. unfold Float.minimum.
  assert (Float.isnan x = false) as ->
      by (destruct Hx as [-> | [a [-> _]]]; reflexivity).
  assert (Float.isnan y = false) as ->
      by (destruct Hy as [-> | [a [-> _]]]; reflexivity).
  simpl. destruct (Float.ltb y x); [right | left]; reflexivity.
Qed.

Lemma minimum_le_l (q : Q) (y : float) :
  hops y -> exists q', Float.minimum (Fin q) y = Fin q' /\ (q' <= q)%Q.
Proof.
  intros [-> | [b [-> _]]].
  - exists q. split; [reflexivity | lra].
  - unfold Float.minimum. cbn [Float.isnan orb Float.ltb].
    destruct (Float.Qltb b q) eqn:E.
    + apply Qltb_lt in E. exists b. split; [reflexivity | lra].
    + exists q. split; [reflexivity | lra].
Qed.

Lemma minimum_le_r (x : float) (q : Q) :
  hops x -> exists q', Float.minimum x (Fin q) = Fin q' /\ (q' <= q)%Q.
Proof.
  intros [-> | [a [-> _]]].
  - exists q. split; [reflexivity | lra].
  - unfold Float.minimum. cbn [Float.isnan orb Float.ltb].
    destruct (Float.Qltb q a) eqn:E.
    + exists q. split; [reflexivity | lra].
    + apply Qltb_ge in E. exists a. split; [reflexivity | exact E].
Qed.

Lemma add_fin_inv (x y : float) (q : Q) :
  hops x -> hops y -> Float.add x y = Fin q ->
  exists a b, x = Fin a /\ y = Fin b /\ (q == a + b)%Q.
Proof.
  intros [-> | [a [-> _]]] [-> | [b [-> _]]]; cbn [Float.add];
    try discriminate.
  unfold Float.fin. intros Hq. exists a, b.
  split; [reflexivity | split; [reflexivity |]].
  assert (Hred : q = Qred (a + b)) by congruence.
  rewrite Hred. apply Qred_correct.
Qed.

Lemma relax_sound (G : connectivity) n (A : matrix) i :
  shortest_path_matrix n A -> (i < n)%nat ->
  walks_sound G n A -> walks_sound G n (relax A i).
Proof.
  intros HA Hi HS r c q Hr Hc.
  rewrite (get_relax _ (spm_square HA)) by assumption.
  assert (Hx : hops (get A r c)) by (apply (spm_hops HA); assumption).
  assert (Hy : hops (Float.add (get A i c) (get A r i)))
    by (apply hops_add; apply (spm_hops HA); assumption).
  destruct (minimum_cases Hx Hy) as [-> | ->]; [apply HS; assumption |].
  intros Hq.
  apply add_fin_inv in Hq as [a [b [Ha [Hb Hq]]]];
    [| apply (spm_hops HA); assumption ..].
  destruct (HS i c a Hi Hc Ha) as [l1 [Hw1 Hl1]].
  destruct (HS r i b Hr Hi Hb) as [l2 [Hw2 Hl2]].
  exists (l2 + l1)%nat. split; [apply walk_app with i; assumption |].
  rewrite hop_count_add. lra.
Qed.

Lemma relax_complete (G : connectivity) n k (A : matrix) :
  shortest_path_matrix n A -> (k < n)%nat ->
  walks_complete G n k A -> walks_complete G n (S k) (relax A k).
Proof.
  intros HA Hk HC r c l Hw.
  destruct (walk_ends Hw) as [Hr Hc].
  rewrite (get_relax _ (spm_square HA)) by assumption.
  apply walk_split in Hw as [[l' [Hl Hw]] | [l1 [l2 [Hl [Hw1 Hw2]]]]].
  - destruct (HC _ _ _ Hw) as [q [Hq Hle]]. rewrite Hq.
    destruct (@minimum_le_l q (Float.add (get A k c) (get A r k)))
      as [q' [-> Hq']];
      [apply hops_add; apply (spm_hops HA); assumption |].
    exists q'. split; [reflexivity |].
    pose proof (hop_count_le Hl). lra.
  - destruct (HC _ _ _ Hw1) as [q1 [Hq1 Hle1]].
    destruct (HC _ _ _ Hw2) as [q2 [Hq2 Hle2]].
    rewrite Hq1, Hq2. cbn [Float.add]. unfold Float.fin.
    destruct (@minimum_le_r (get A r c) (Qred (q2 + q1)))
      as [q' [-> Hq']]; [apply (spm_hops HA); assumption |].
    exists q'. split; [reflexivity |].
    rewrite Qred_correct in Hq'.
    pose proof (hop_count_le Hl) as Hle. rewrite hop_count_add in Hle. lra.
Qed.

Lemma fold_relax_walks (G : connectivity) n len :
  forall a (A : matrix),
    (a + len <= n)%nat -> shortest_path_matrix n A ->
    walks_sound G n A -> walks_complete G n a A ->
    walks_sound G n (fold_left relax (seq a len) A) /\
    walks_complete G n (a + len) (fold_left relax (seq a len) A).
Proof.
  induction len as [| len IH]; intros a A Hle HA HS HC.
  - rewrite Nat.add_0_r. split; assumption.
  - cbn [seq fold_left].
    replace (a + S len)%nat with (S a + len)%nat by lia.
    apply IH; [lia | apply relax_spm; [assumption | lia] | |].
    + apply relax_sound; [assumption | lia | assumption].
    + apply relax_complete; [assumption | lia | assumption].
Qed.

(** The entries of [floyd_warshall_numpy G] are walk lengths of [G], and none
    exceeds the length of any walk between its two nodes. *)
Lemma floyd_warshall_walks n (G : connectivity) :
  undirected n G ->
  walks_sound G n (floyd_warshall_numpy G) /\
  walks_complete G n n (floyd_warshall_numpy G).
Proof.
  intros [Hsq Hsym]. unfold floyd_warshall_numpy.
  assert (Hsq0 : square n (to_numpy_matrix G))
    by (apply square_map_map, Hsq).
  set (A0 := mapij _ (to_numpy_matrix G)).
  assert (Hsq1 : square n A0) by (apply square_mapij, Hsq0).
  assert (Hget : forall r c, (r < n)%nat -> (c < n)%nat ->
            get A0 r c =
            if Nat.eqb r c then Fin 0
            else if conn G r c then Fin 1 else PInf).
  { intros r c Hr Hc. unfold A0.
    rewrite get_mapij
      by (rewrite ?(square_row Hsq0) by assumption; destruct Hsq0; lia).
    destruct (Nat.eqb r c); [reflexivity |].
    unfold get, to_numpy_matrix.
    rewrite nth_map_map with (d := false)
      by (rewrite ?(square_row Hsq) by assumption; destruct Hsq; lia).
    reflexivity. }
  assert (Hlen : length A0 = n) by (destruct Hsq1; assumption).
  rewrite Hlen.
  apply (@fold_relax_walks G n n 0%nat A0); [lia | | |].
  - split; [exact Hsq1 | | |].
    + intros r c Hr Hc. rewrite !Hget by assumption.
      rewrite (Nat.eqb_sym c r), (Hsym r c) by assumption. reflexivity.
    + intros r Hr. rewrite Hget, Nat.eqb_refl by assumption. reflexivity.
    + intros r c Hr Hc. rewrite Hget by assumption.
      destruct (Nat.eqb r c); [right; exists 0%Q; split; [reflexivity | lra] |].
      destruct (conn G r c); [right; exists 1%Q; split; [reflexivity | lra] |].
      left; reflexivity.
  - intros r c q Hr Hc. rewrite Hget by assumption.
    destruct (Nat.eqb r c) eqn:E.
    + apply Nat.eqb_eq in E. subst c. intros [= <-].
      exists 0%nat. split; [apply walk_here, Hr | reflexivity].
    + destruct (conn G r c) eqn:Hedge; [| discriminate]. intros [= <-].
      exists 1%nat. split; [apply walk_edge; assumption | reflexivity].
  - intros r c l Hw.
    destruct Hw as [r Hr | r c Hr Hc He | r m c l Hr Hm Hmn He Hw]; [| | lia].
    + rewrite Hget, Nat.eqb_refl by assumption.
      exists 0%Q. split; [reflexivity | unfold hop_count, Qle; simpl; lia].
    + rewrite Hget by assumption.
      destruct (Nat.eqb r c);
        [exists 0%Q | rewrite He; exists 1%Q];
        (split; [reflexivity | unfold hop_count, Qle; simpl; lia]).
Qed.

Lemma hops_finite_or_inf (l : vector) :
  Forall hops l -> Forall finite l \/ In PInf l.
Proof.
  induction 1 as [| x l Hx _ IH]; [left; constructor |].
  destruct Hx as [-> | [q [-> _]]]; [right; left; reflexivity |].
  destruct IH as [IH | IH]; [left | right; right; exact IH].
  constructor; [reflexivity | exact IH].
Qed.

Lemma Qsum_unit_bounds (l : list Q) :
  (forall x, In x l -> (0 <= x <= 1)%Q) ->
  (0 <= Qsum l <= inject_Z (Z.of_nat (length l)))%Q.
Proof.
  induction l as [| x l IH]; intros H.
  - cbn [Qsum fold_right length]. change (inject_Z (Z.of_nat 0)) with 0%Q. lra.
  - cbn [Qsum fold_right length]. fold (Qsum l).
    rewrite Nat2Z.inj_succ. unfold Z.succ. rewrite inject_Z_plus.
    change (inject_Z 1) with 1%Q.
    assert (Hx : (0 <= x <= 1)%Q) by (apply H; left; reflexivity).
    assert (Hl : (0 <= Qsum l <= inject_Z (Z.of_nat (length l)))%Q)
      by (apply IH; intros y Hy; apply H; right; exact Hy).
    lra.
Qed.

(** A finite distance matrix with a non-zero maximum [m]: every cost is the
    distance over [m], less the mean [mu] of these quotients. *)
Lemma cost_matrix_entries n (sp : matrix) (m : Q) :
  square n sp -> Forall finite (entries sp) -> Forall hops (entries sp) ->
  max_finite m (entries sp) -> ~ (m == 0)%Q ->
  exists cost mu,
    cost_matrix sp = Ok cost /\ (0 <= mu <= 1)%Q /\
    forall i j d, (i < n)%nat -> (j < n)%nat -> get sp i j = Fin d ->
      exists q, get cost i j = Fin q /\ (q == d / m - mu)%Q.
Proof.
  intros Hsq Hfin Hhops Hmax Hm.
  assert (Hne : entries sp <> [])
    by (destruct Hmax as [Hin _]; intros E; rewrite E in Hin; exact Hin).
  destruct (np_max_finite Hne Hfin) as [m0 [Hm0 Hmax0]].
  pose proof (max_finite_unique Hmax0 Hmax) as Heq.
  assert (Hpos : (0 < m0)%Q).
  { destruct Hmax0 as [Hin _]. rewrite Forall_forall in Hhops.
    destruct (Hhops _ Hin) as [E | [q [E Hq]]]; [discriminate |].
    injection E as <-. rewrite Heq in *. lra. }
  unfold cost_matrix, normalize. rewrite Hm0. simpl.
  set (cost := map_entries _ sp).
  assert (Hcost : entries cost
                  = map (fun q => Float.fin (q / m0)) (map val (entries sp))).
  { unfold cost. rewrite entries_map_entries, map_map.
    apply map_ext_in. intros x Hx. rewrite Forall_forall in Hfin.
    destruct (finite_inv (Hfin x Hx)) as [q ->].
    apply div_fin. lra. }
  assert (Hnec : entries cost <> [])
    by (rewrite Hcost; destruct (entries sp); [congruence | discriminate]).
  assert (Hfinc : Forall finite (entries cost))
    by (rewrite Hcost; apply Forall_map, Forall_map, Forall_forall;
        intros; reflexivity).
  destruct (np_mean_finite Hnec Hfinc) as [mu [Hmu Hsum]].
  exists (center cost), mu. split; [reflexivity |]. split.
  - assert (HL : (0 < inject_Z (Z.of_nat (length (entries cost))))%Q).
    { apply of_nat_pos. destruct (entries cost); [congruence | simpl; lia]. }
    destruct (@Qsum_unit_bounds (map val (entries cost))) as [Hlo Hhi].
    { intros x Hx. rewrite Hcost, !map_map in Hx.
      apply in_map_iff in Hx. destruct Hx as [y [<- Hy]].
      cbn [val Float.fin]. rewrite Qred_correct.
      assert (H0 : (0 <= val y)%Q).
      { rewrite Forall_forall in Hhops.
        destruct (Hhops y Hy) as [-> | [q [-> Hq]]]; [simpl; lra | exact Hq]. }
      assert (H1 : (val y <= m0)%Q).
      { rewrite Forall_forall in Hfin.
        destruct (finite_inv (Hfin y Hy)) as [q E]. rewrite E in *.
        destruct Hmax0 as [_ Hub]. apply Hub, Hy. }
      split.
      - apply Qle_shift_div_l; [exact Hpos | lra].
      - apply Qle_shift_div_r; [exact Hpos | lra]. }
    rewrite length_map in Hhi. rewrite <- Hsum in Hlo, Hhi.
    set (L := inject_Z (Z.of_nat (length (entries cost)))) in *.
    assert (Hmu' : (mu == mu * L / L)%Q) by (field; lra).
    rewrite Hmu'. split.
    + apply Qle_shift_div_l; [exact HL | lra].
    + apply Qle_shift_div_r; [exact HL | lra].
  - intros i j d Hi Hj Hd. unfold center. rewrite Hmu.
    assert (Hsqc : square n cost) by (apply square_map_map, Hsq).
    rewrite get_map_entries
      by (rewrite ?(square_row Hsqc) by assumption; destruct Hsqc; lia).
    unfold cost. rewrite get_map_entries
      by (rewrite ?(square_row Hsq) by assumption; destruct Hsq; lia).
    rewrite Hd, div_fin by lra.
    cbn [Float.sub Float.fin]. eexists. split; [reflexivity |].
    rewrite !Qred_correct, Heq. reflexivity.
Qed.

(** ** The set-up in terms of the neighbour graphs *)

Section ReconstructionGraphs.

Variable kneighbors_graph : list (list Q) -> nat -> res connectivity.
Variable elapsed : string.

Lemma shortest_paths_graph X k :
  shortest_paths kneighbors_graph X k =
  (G <-- neighbour_graph kneighbors_graph X k ;;
   Ok (floyd_warshall_numpy G))%py.
Proof.
  unfold shortest_paths, neighbour_graph.
  destruct (kneighbors_graph X k) as [A |]; [| reflexivity]. simpl.
  destruct (from_scipy_sparse_matrix A); reflexivity.
Qed.

Lemma neighbour_graph_undirected X k G :
  neighbour_graph kneighbors_graph X k = Ok G -> undirected (length G) G.
Proof.
  unfold neighbour_graph.
  destruct (kneighbors_graph X k) as [A |]; [| discriminate]. simpl.
  intros HG. pose proof (from_scipy_sparse_matrix_undirected _ HG) as Hu.
  destruct Hu as [[Hlen Hrows] Hsym].
  rewrite Hlen. split; [split; [exact Hlen | exact Hrows] | exact Hsym].
Qed.

Lemma shortest_paths_graph_inv X k sp :
  shortest_paths kneighbors_graph X k = Ok sp ->
  exists G, neighbour_graph kneighbors_graph X k = Ok G /\
            sp = floyd_warshall_numpy G /\
            undirected (length G) G /\
            shortest_path_matrix (length G) sp.
Proof.
  rewrite shortest_paths_graph.
  destruct (neighbour_graph kneighbors_graph X k) as [G |] eqn:HG;
    [| discriminate].
  simpl. intros [= <-]. exists G.
  pose proof (neighbour_graph_undirected _ _ HG) as Hu.
  repeat split; try assumption; try apply Hu.
  - apply (spm_square (floyd_warshall_spm Hu)).
  - apply (spm_square (floyd_warshall_spm Hu)).
  - apply (spm_symmetric (floyd_warshall_spm Hu)).
  - apply (spm_diagonal (floyd_warshall_spm Hu)).
  - apply (spm_hops (floyd_warshall_spm Hu)).
Qed.

Lemma setup_graphs dge locations ks kt ce cl :
  result (setup_for_OT_reconstruction kneighbors_graph elapsed
            dge locations ks kt) = Ok (ce, cl) ->
  exists G_e G_l m,
    neighbour_graph kneighbors_graph dge ks = Ok G_e /\
    neighbour_graph kneighbors_graph locations kt = Ok G_l /\
    undirected (length G_e) G_e /\ undirected (length G_l) G_l /\
    (0 < length G_e)%nat /\ (0 < length G_l)%nat /\
    shortest_paths kneighbors_graph dge ks = Ok (floyd_warshall_numpy G_e) /\
    max_finite m (entries (floyd_warshall_numpy G_e)) /\
    cost_matrix (clip_infinite m (floyd_warshall_numpy G_e)) = Ok ce /\
    cost_matrix (floyd_warshall_numpy G_l) = Ok cl.
Proof.
  intros H.
  destruct (setup_inv _ _ _ _ _ _ H)
    as [sp_l [sp_e [mx [Hl [He [Hmx [Hcl Hce]]]]]]].
  destruct (shortest_paths_graph_inv _ _ He) as [G_e [HGe [Ee [Hue Hspe]]]].
  destruct (shortest_paths_graph_inv _ _ Hl) as [G_l [HGl [El [Hul Hspl]]]].
  assert (Hne : (0 < length G_e)%nat).
  { apply (spm_nonempty Hspe). intros ->. discriminate. }
  assert (Hnl : (0 < length G_l)%nat).
  { apply (spm_nonempty Hspl). intros ->. discriminate. }
  destruct (nanmax_not_inf Hspe Hne) as [m [Hnan Hmax]].
  rewrite Hmx in Hnan. injection Hnan as ->.
  rewrite (threshold_clip Hspe Hmax) in Hce.
  subst sp_e sp_l.
  exists G_e, G_l, m. repeat (split; [assumption |]). assumption.
Qed.

(** Every entry of a shortest-path matrix of the set-up is the least number
    of edges of a walk between its two nodes in the neighbour graph, and it
    is [+inf] exactly when no walk joins them. *)
Theorem shortest_paths_hop_distances X k sp :
  shortest_paths kneighbors_graph X k = Ok sp ->
  exists G n,
    neighbour_graph kneighbors_graph X k = Ok G /\ square n sp /\
    forall r c, (r < n)%nat -> (c < n)%nat ->
      (forall q, get sp r c = Fin q ->
         exists l, walk G n n r c l /\ (q == hop_count l)%Q /\
                   forall l', walk G n n r c l' -> (l <= l')%nat) /\
      (get sp r c = PInf <-> forall l, ~ walk G n n r c l).
Proof.
  intros H.
  destruct (shortest_paths_graph_inv _ _ H) as [G [HG [-> [Hu Hsp]]]].
  destruct (floyd_warshall_walks Hu) as [HS HC].
  exists G, (length G).
  split; [exact HG |]. split; [apply (spm_square Hsp) |].
  intros r c Hr Hc. split.
  - intros q Hq. destruct (HS r c q Hr Hc Hq) as [l [Hw Hl]].
    exists l. split; [exact Hw |]. split; [exact Hl |].
    intros l' Hw'. destruct (HC _ _ _ Hw') as [q' [Hq' Hle]].
    rewrite Hq in Hq'. injection Hq' as <-.
    apply hop_count_le_inv. lra.
  - split.
    + intros Hinf l Hw. destruct (HC _ _ _ Hw) as [q [Hq _]]. congruence.
    + intros Hno.
      destruct (spm_hops Hsp Hr Hc) as [E | [q [E _]]]; [exact E |].
      destruct (HS r c q Hr Hc E) as [l [Hw _]]. destruct (Hno l Hw).
Qed.

Lemma off_diagonal_hops (G : connectivity) n (sp : matrix) r c q :
  walks_sound G n sp -> (r < n)%nat -> (c < n)%nat -> r <> c ->
  get sp r c = Fin q -> (1 <= q)%Q.
Proof.
  intros HS Hr Hc Hne Hq. destruct (HS r c q Hr Hc Hq) as [l [Hw Hl]].
  pose proof (hop_count_le (walk_distinct_length Hw Hne)) as Hle.
  change (hop_count 1) with 1%Q in Hle. lra.
Qed.

Lemma max_off_diagonal n (sp : matrix) (m : Q) :
  shortest_path_matrix n sp -> max_finite m (entries sp) -> ~ (m == 0)%Q ->
  exists i j, (i < n)%nat /\ (j < n)%nat /\ i <> j /\ get sp i j = Fin m.
Proof.
  intros Hsp [Hin _] Hm.
  destruct (@in_entries_get _ _ _ (spm_square Hsp) Hin) as [i [j [Hi [Hj E]]]].
  exists i, j. repeat (split; [assumption |]). split; [| exact E].
  intros ->. rewrite (spm_diagonal Hsp Hj) in E.
  injection E as <-. apply Hm. reflexivity.
Qed.

(** The location cost matrix is usable exactly when the location graph is
    connected and has at least two nodes: then every entry is finite;
    otherwise every entry is NaN. *)
Theorem cost_locations_connected dge locations ks kt ce cl :
  result (setup_for_OT_reconstruction kneighbors_graph elapsed
            dge locations ks kt) = Ok (ce, cl) ->
  exists G n,
    neighbour_graph kneighbors_graph locations kt = Ok G /\ square n cl /\
    (connected G n /\ (2 <= n)%nat -> Forall finite (entries cl)) /\
    (~ (connected G n /\ (2 <= n)%nat) -> all_nan cl).
Proof.
  intros H.
  destruct (setup_graphs _ _ _ _ H)
    as [G_e [G_l [m [_ [HGl [_ [Hul [_ [Hnl [_ [_ [_ Hcl]]]]]]]]]]]].
  pose proof (floyd_warshall_spm Hul) as Hsp.
  destruct (floyd_warshall_walks Hul) as [HS HC].
  exists G_l, (length G_l). split; [exact HGl |]. split.
  { apply (cost_matrix_shape Hcl (spm_square Hsp) (spm_symmetric Hsp)). }
  set (sp := floyd_warshall_numpy G_l) in *. set (n := length G_l) in *.
  split.
  - intros [Hconn Hn2].
    assert (Hfin : Forall finite (entries sp)).
    { apply Forall_forall. intros x Hx.
      destruct (@in_entries_get _ _ _ (spm_square Hsp) Hx) as [i [j [Hi [Hj <-]]]].
      destruct (Hconn i j Hi Hj) as [l Hw].
      destruct (HC _ _ _ Hw) as [q [-> _]]. reflexivity. }
    destruct (np_max_finite (spm_entries_nonempty Hsp Hnl) Hfin)
      as [m0 [Hm0 Hmf]].
    assert (Hnz : ~ (m0 == 0)%Q).
    { assert (H0 : (0 < n)%nat) by lia. assert (H1 : (1 < n)%nat) by lia.
      pose proof (get_in_entries (spm_square Hsp) H0 H1) as Hin.
      rewrite Forall_forall in Hfin.
      destruct (finite_inv (Hfin _ Hin)) as [q Hq].
      assert (Hne : 0%nat <> 1%nat) by discriminate.
      pose proof (off_diagonal_hops HS H0 H1 Hne Hq) as Hq1.
      rewrite Hq in Hin. destruct Hmf as [_ Hub].
      specialize (Hub q Hin). lra. }
    destruct (@cost_matrix_finite _ _ Hfin Hmf Hnz) as [c [Hc [Hf _]]].
    rewrite Hcl in Hc. injection Hc as <-. exact Hf.
  - intros Hnot.
    destruct (hops_finite_or_inf (spm_entries_hops Hsp)) as [Hfin | Hinf].
    + destruct (np_max_finite (spm_entries_nonempty Hsp Hnl) Hfin)
        as [m0 [Hm0 Hmf]].
      destruct (Qeq_dec m0 0) as [Hz | Hnz].
      * destruct (@cost_matrix_degenerate _ _ Hfin (spm_entries_hops Hsp)
                    Hmf Hz) as [c [Hc Hn]].
        rewrite Hcl in Hc. injection Hc as <-. exact Hn.
      * exfalso. apply Hnot. split.
        -- intros r c Hr Hc.
           pose proof (get_in_entries (spm_square Hsp) Hr Hc) as Hin.
           rewrite Forall_forall in Hfin.
           destruct (finite_inv (Hfin _ Hin)) as [q Hq].
           destruct (HS r c q Hr Hc Hq) as [l [Hw _]]. exists l. exact Hw.
        -- destruct (max_off_diagonal Hsp Hmf Hnz)
             as [i [j [Hi [Hj [Hne _]]]]]. lia.
    + destruct (@cost_matrix_unreachable _ (spm_entries_hops Hsp) Hinf)
        as [c [Hc Hn]].
      rewrite Hcl in Hc. injection Hc as <-. exact Hn.
Qed.

(** The expression cost matrix is usable exactly when some cell of the
    expression graph has a neighbour other than itself: then every entry is
    finite, whether or not the graph is connected; otherwise every entry is
    NaN. *)
Theorem cost_expression_proper_edge dge locations ks kt ce cl :
  result (setup_for_OT_reconstruction kneighbors_graph elapsed
            dge locations ks kt) = Ok (ce, cl) ->
  exists G n,
    neighbour_graph kneighbors_graph dge ks = Ok G /\ square n ce /\
    (has_proper_edge G n -> Forall finite (entries ce)) /\
    (~ has_proper_edge G n -> all_nan ce).
Proof.
  intros H.
  destruct (setup_graphs _ _ _ _ H)
    as [G_e [G_l [m [HGe [_ [Hue [_ [Hne [_ [_ [Hmax [Hce _]]]]]]]]]]]].
  pose proof (floyd_warshall_spm Hue) as Hsp.
  destruct (floyd_warshall_walks Hue) as [HS HC].
  destruct (clip_entries Hsp Hmax) as [Hfin [Hhops Hmax']].
  exists G_e, (length G_e). split; [exact HGe |]. split.
  { apply (@cost_matrix_shape _ (clip_infinite m (floyd_warshall_numpy G_e))).
    - exact Hce.
    - apply square_map_map, (spm_square Hsp).
    - apply symmetric_map_entries;
        [apply (spm_square Hsp) | apply (spm_symmetric Hsp)]. }
  set (sp := floyd_warshall_numpy G_e) in *. set (n := length G_e) in *.
  split.
  - intros [r [c [Hr [Hc [Hrc Hedge]]]]].
    assert (Hnz : ~ (m == 0)%Q).
    { destruct (HC r c 1%nat (@walk_edge G_e n n r c Hr Hc Hedge)) as [q [Hq _]].
      pose proof (off_diagonal_hops HS Hr Hc Hrc Hq) as Hq1.
      pose proof (get_in_entries (spm_square Hsp) Hr Hc) as Hin.
      rewrite Hq in Hin. destruct Hmax as [_ Hub].
      specialize (Hub q Hin). lra. }
    destruct (@cost_matrix_finite _ _ Hfin Hmax' Hnz) as [c0 [Hc0 [Hf _]]].
    rewrite Hce in Hc0. injection Hc0 as <-. exact Hf.
  - intros Hnot. destruct (Qeq_dec m 0) as [Hz | Hnz].
    + destruct (@cost_matrix_degenerate _ _ Hfin Hhops Hmax' Hz)
        as [c [Hc Hn]].
      rewrite Hce in Hc. injection Hc as <-. exact Hn.
    + exfalso. apply Hnot.
      destruct (max_off_diagonal Hsp Hmax Hnz)
        as [i [j [Hi [Hj [Hij E]]]]].
      destruct (HS i j m Hi Hj E) as [l [Hw _]].
      apply (walk_distinct_edge Hw Hij).
Qed.

(** When the largest finite expression distance [m] is not zero, every
    expression cost is the hop distance over [m], an unreachable pair
    counting as [m], less a constant [mu] between 0 and 1: the diagonal holds
    the least cost [-mu], the unreachable pairs the greatest cost
    [1 - mu]. *)
Theorem cost_expression_scaled_distances dge locations ks kt ce cl :
  result (setup_for_OT_reconstruction kneighbors_graph elapsed
            dge locations ks kt) = Ok (ce, cl) ->
  exists sp_e n m,
    shortest_paths kneighbors_graph dge ks = Ok sp_e /\
    square n sp_e /\ max_finite m (entries sp_e) /\
    (~ (m == 0)%Q ->
     exists mu, (0 <= mu <= 1)%Q /\
       forall i j, (i < n)%nat -> (j < n)%nat ->
         exists q, get ce i j = Fin q /\ (- mu <= q <= 1 - mu)%Q /\
                   (i = j -> (q == - mu)%Q) /\
                   (get sp_e i j = PInf -> (q == 1 - mu)%Q) /\
                   (forall d, get sp_e i j = Fin d -> (q == d / m - mu)%Q)).
Proof.
  intros H.
  destruct (setup_graphs _ _ _ _ H)
    as [G_e [G_l [m [_ [_ [Hue [_ [_ [_ [He [Hmax [Hce _]]]]]]]]]]]].
  pose proof (floyd_warshall_spm Hue) as Hsp.
  destruct (clip_entries Hsp Hmax) as [Hfin [Hhops Hmax']].
  exists (floyd_warshall_numpy G_e), (length G_e), m.
  split; [exact He |]. split; [apply (spm_square Hsp) |].
  split; [exact Hmax |].
  set (sp := floyd_warshall_numpy G_e) in *. set (n := length G_e) in *.
  intros Hnz.
  assert (Hsqc : square n (clip_infinite m sp))
    by (apply square_map_map, (spm_square Hsp)).
  destruct (cost_matrix_entries Hsqc Hfin Hhops Hmax' Hnz)
    as [cost [mu [Hc [Hmu Hget]]]].
  rewrite Hce in Hc. injection Hc as <-.
  assert (Hpos : (0 < m)%Q).
  { destruct Hmax as [Hin _].
    pose proof (spm_entries_hops Hsp) as Hh. rewrite Forall_forall in Hh.
    destruct (Hh _ Hin) as [E | [q [E Hq]]]; [discriminate |].
    injection E as <-. lra. }
  exists mu. split; [exact Hmu |].
  intros i j Hi Hj.
  assert (Hclip : get (clip_infinite m sp) i j
                  = match get sp i j with PInf => Fin m | _ => get sp i j end).
  { unfold clip_infinite. rewrite get_map_entries; [reflexivity | |].
    - destruct (spm_square Hsp). lia.
    - rewrite (square_row (spm_square Hsp) Hi). exact Hj. }
  destruct (spm_hops Hsp Hi Hj) as [E | [d [E Hd]]]; rewrite E in Hclip;
    cbv iota in Hclip.
  - destruct (Hget i j m Hi Hj Hclip) as [q [Hq Hval]].
    assert (Hq1 : (q == 1 - mu)%Q) by (rewrite Hval; field; exact Hnz).
    exists q. split; [exact Hq |]. split; [lra |]. split; [| split].
    + intros ->. rewrite (spm_diagonal Hsp Hj) in E. discriminate.
    + intros _. exact Hq1.
    + intros d Hd. congruence.
  - destruct (Hget i j d Hi Hj Hclip) as [q [Hq Hval]].
    assert (Hle : (d <= m)%Q).
    { destruct Hmax as [_ Hub]. apply Hub. rewrite <- E.
      apply (get_in_entries (spm_square Hsp)); assumption. }
    assert (Hquot : (0 <= d / m <= 1)%Q).
    { split; [apply Qle_shift_div_l | apply Qle_shift_div_r]; lra. }
    exists q. split; [exact Hq |]. split; [lra |]. split; [| split].
    + intros ->. rewrite (spm_diagonal Hsp Hj) in E. injection E as <-.
      rewrite Hval. field. exact Hnz.
    + intros Hinf. congruence.
    + intros d' Hd'. rewrite E in Hd'. injection Hd' as <-. exact Hval.
Qed.

(** The set-up returns exactly when both neighbour graphs can be built and
    are not empty; the two sample sets need not have the same size. When it
    raises, the closing status line is never printed. *)
Theorem setup_returns_iff dge locations ks kt :
  ((exists ce cl,
      setup_for_OT_reconstruction kneighbors_graph elapsed
        dge locations ks kt =
      (["Setting up for reconstruction ... ";
        "done ( " ++ elapsed ++ " seconds )"]%string, Ok (ce, cl))) <->
   (exists G_e G_l,
      neighbour_graph kneighbors_graph dge ks = Ok G_e /\
      neighbour_graph kneighbors_graph locations kt = Ok G_l /\
      G_e <> [] /\ G_l <> [])) /\
  (forall e,
     result (setup_for_OT_reconstruction kneighbors_graph elapsed
               dge locations ks kt) = Raise e ->
     fst (setup_for_OT_reconstruction kneighbors_graph elapsed
            dge locations ks kt) = ["Setting up for reconstruction ... "%string]).
Proof.
  split; [split |].
  - intros [ce [cl H]].
    assert (Hres : result (setup_for_OT_reconstruction kneighbors_graph
                             elapsed dge locations ks kt) = Ok (ce, cl))
      by (unfold result; rewrite H; reflexivity).
    destruct (setup_graphs _ _ _ _ Hres)
      as [G_e [G_l [m [HGe [HGl [_ [_ [Hne [Hnl _]]]]]]]]].
    exists G_e, G_l. repeat (split; [assumption |]).
    split; intros ->; simpl in *; lia.
  - intros [G_e [G_l [HGe [HGl [Hne Hnl]]]]].
    assert (He : shortest_paths kneighbors_graph dge ks
                 = Ok (floyd_warshall_numpy G_e))
      by (rewrite shortest_paths_graph, HGe; reflexivity).
    assert (Hl : shortest_paths kneighbors_graph locations kt
                 = Ok (floyd_warshall_numpy G_l))
      by (rewrite shortest_paths_graph, HGl; reflexivity).
    pose proof (floyd_warshall_spm (neighbour_graph_undirected _ _ HGe))
      as Hspe.
    pose proof (floyd_warshall_spm (neighbour_graph_undirected _ _ HGl))
      as Hspl.
    assert (Hpe : (0 < length G_e)%nat)
      by (destruct G_e; [congruence | simpl; lia]).
    assert (Hpl : (0 < length G_l)%nat)
      by (destruct G_l; [congruence | simpl; lia]).
    destruct (nanmax_not_inf Hspe Hpe) as [m [Hnan Hmax]].
    destruct (clip_entries Hspe Hmax) as [_ [_ Hmax']].
    destruct (@cost_matrix_total (floyd_warshall_numpy G_l)) as [cl Hcl];
      [apply (spm_entries_nonempty Hspl Hpl) |].
    destruct (@cost_matrix_total
                (threshold (Fin m) (floyd_warshall_numpy G_e))) as [ce Hce].
    { rewrite (threshold_clip Hspe Hmax).
      destruct Hmax' as [Hin _]. intros E. rewrite E in Hin. exact Hin. }
    exists ce, cl. apply (setup_ok _ _ _ _ _ _ Hl He Hnan Hcl Hce).
  - intros e.
    unfold setup_for_OT_reconstruction, result, bind, lift, print, ret.
    destruct (shortest_paths kneighbors_graph locations kt) as [sp_l |];
      [| reflexivity].
    destruct (shortest_paths kneighbors_graph dge ks) as [sp_e |];
      [| reflexivity].
    destruct (np_nanmax (not_inf sp_e)) as [mx |]; [| reflexivity].
    destruct (cost_matrix sp_l) as [cl |]; [| reflexivity].
    destruct (cost_matrix (threshold mx sp_e)) as [ce |]; [| reflexivity].
    simpl. discriminate.
Qed.

(** Shortest-path distances obey the triangle inequality: when [k] can be
    reached from [r] and [c] from [k], the distance from [r] to [c] is finite
    and at most the sum of the two. *)
Theorem shortest_paths_triangle X k sp r m c a b :
  shortest_paths kneighbors_graph X k = Ok sp ->
  get sp r m = Fin a -> get sp m c = Fin b ->
  (r < length sp)%nat -> (m < length sp)%nat -> (c < length sp)%nat ->
  exists q, get sp r c = Fin q /\ (q <= a + b)%Q.
Proof.
  intros H Ha Hb Hr Hm Hc.
  destruct (shortest_paths_graph_inv _ _ H) as [G [_ [-> [Hu Hsp]]]].
  destruct (floyd_warshall_walks Hu) as [HS HC].
  assert (Hlen : length (floyd_warshall_numpy G) = length G)
    by (destruct (spm_square Hsp); assumption).
  rewrite Hlen in Hr, Hm, Hc.
  destruct (HS r m a Hr Hm Ha) as [l1 [Hw1 Hl1]].
  destruct (HS m c b Hm Hc Hb) as [l2 [Hw2 Hl2]].
  destruct (HC _ _ _ (walk_app Hw1 Hw2)) as [q [Hq Hle]].
  exists q. split; [exact Hq |].
  rewrite hop_count_add in Hle. lra.
Qed.

(** When the location graph is connected and the largest location distance
    [m] is not zero, every location cost is the hop distance over [m] less a
    constant [mu] between 0 and 1; the diagonal holds the least cost
    [-mu]. *)
Theorem cost_locations_scaled_distances dge locations ks kt ce cl m :
  result (setup_for_OT_reconstruction kneighbors_graph elapsed
            dge locations ks kt) = Ok (ce, cl) ->
  (exists sp_l, shortest_paths kneighbors_graph locations kt = Ok sp_l /\
                np_max (entries sp_l) = Ok (Fin m)) ->
  ~ (m == 0)%Q ->
  exists sp_l n mu,
    shortest_paths kneighbors_graph locations kt = Ok sp_l /\
    square n sp_l /\ (0 <= mu <= 1)%Q /\
    forall i j, (i < n)%nat -> (j < n)%nat ->
      exists d q, get sp_l i j = Fin d /\ get cl i j = Fin q /\
                  (q == d / m - mu)%Q /\ (- mu <= q <= 1 - mu)%Q /\
                  (i = j -> (q == - mu)%Q).
Proof.
  intros H [sp_l [Hl Hm]] Hnz.
  destruct (setup_inv _ _ _ _ _ _ H)
    as [sp_l' [sp_e [mx [Hl' [_ [_ [Hcl _]]]]]]].
  rewrite Hl in Hl'. injection Hl' as <-.
  destruct (shortest_paths_graph_inv _ _ Hl) as [G [_ [_ [_ Hsp]]]].
  destruct (np_max_fin_finite (spm_entries_hops Hsp) Hm) as [Hfin Hmax].
  destruct (cost_matrix_entries (spm_square Hsp) Hfin (spm_entries_hops Hsp)
              Hmax Hnz) as [cost [mu [Hc [Hmu Hget]]]].
  rewrite Hcl in Hc. injection Hc as <-.
  assert (Hpos : (0 < m)%Q).
  { destruct Hmax as [Hin _].
    pose proof (spm_entries_hops Hsp) as Hh. rewrite Forall_forall in Hh.
    destruct (Hh _ Hin) as [E | [q [E Hq]]]; [discriminate |].
    injection E as <-. lra. }
  exists sp_l, (length G), mu.
  split; [exact Hl |]. split; [apply (spm_square Hsp) |].
  split; [exact Hmu |].
  intros i j Hi Hj.
  pose proof (get_in_entries (spm_square Hsp) Hi Hj) as Hin.
  rewrite Forall_forall in Hfin.
  destruct (finite_inv (Hfin _ Hin)) as [d Hd].
  destruct (Hget i j d Hi Hj Hd) as [q [Hq Hval]].
  assert (H0 : (0 <= d)%Q).
  { destruct (spm_hops Hsp Hi Hj) as [E | [d' [E Hd']]]; [congruence |].
    rewrite Hd in E. injection E as <-. exact Hd'. }
  assert (Hle : (d <= m)%Q).
  { destruct Hmax as [_ Hub]. apply Hub. rewrite <- Hd. exact Hin. }
  assert (Hquot : (0 <= d / m <= 1)%Q).
  { split; [apply Qle_shift_div_l | apply Qle_shift_div_r]; lra. }
  exists d, q. repeat (split; [assumption || lra |]).
  intros ->. rewrite (spm_diagonal Hsp Hj) in Hd. injection Hd as <-.
  rewrite Hval. field. exact Hnz.
Qed.

End ReconstructionGraphs.

Lemma shortest_paths_hop_distances_witness :
  shortest_paths KNN.kneighbors_graph line_dge 2 = Ok line_paths /\
  exists G n,
    neighbour_graph KNN.kneighbors_graph line_dge 2 = Ok G /\
    square n line_paths /\
    forall r c, (r < n)%nat -> (c < n)%nat ->
      (forall q, get line_paths r c = Fin q ->
         exists l, walk G n n r c l /\ (q == hop_count l)%Q /\
                   forall l', walk G n n r c l' -> (l <= l')%nat) /\
      (get line_paths r c = PInf <-> forall l, ~ walk G n n r c l).
Proof.
  assert (H : shortest_paths KNN.kneighbors_graph line_dge 2 = Ok line_paths)
    by (vm_compute; reflexivity).
  split; [exact H |].
  exact (@shortest_paths_hop_distances KNN.kneighbors_graph line_dge 2 _ H).
Defined.

Lemma cost_locations_connected_witness :
  result (setup_for_OT_reconstruction KNN.kneighbors_graph "0.0"
            line_dge pairs_locations 2 2) = Ok (line_costs, nan_matrix 4) /\
  exists G n,
    neighbour_graph KNN.kneighbors_graph pairs_locations 2 = Ok G /\
    square n (nan_matrix 4) /\
    (connected G n /\ (2 <= n)%nat -> Forall finite (entries (nan_matrix 4))) /\
    (~ (connected G n /\ (2 <= n)%nat) -> all_nan (nan_matrix 4)).
Proof.
  assert (H : result (setup_for_OT_reconstruction KNN.kneighbors_graph "0.0"
                        line_dge pairs_locations 2 2)
              = Ok (line_costs, nan_matrix 4)) by (vm_compute; reflexivity).
  split; [exact H |].
  exact (@cost_locations_connected KNN.kneighbors_graph "0.0"
           line_dge pairs_locations 2 2 _ _ H).
Defined.

Lemma cost_expression_proper_edge_witness :
  result (setup_for_OT_reconstruction KNN.kneighbors_graph "0.0"
            line_dge pairs_locations 2 2) = Ok (line_costs, nan_matrix 4) /\
  exists G n,
    neighbour_graph KNN.kneighbors_graph line_dge 2 = Ok G /\
    square n line_costs /\
    (has_proper_edge G n -> Forall finite (entries line_costs)) /\
    (~ has_proper_edge G n -> all_nan line_costs).
Proof.
  assert (H : result (setup_for_OT_reconstruction KNN.kneighbors_graph "0.0"
                        line_dge pairs_locations 2 2)
              = Ok (line_costs, nan_matrix 4)) by (vm_compute; reflexivity).
  split; [exact H |].
  exact (@cost_expression_proper_edge KNN.kneighbors_graph "0.0"
           line_dge pairs_locations 2 2 _ _ H).
Defined.

Lemma cost_expression_scaled_distances_witness :
  result (setup_for_OT_reconstruction KNN.kneighbors_graph "0.0"
            line_dge pairs_locations 2 2) = Ok (line_costs, nan_matrix 4) /\
  exists sp_e n m,
    shortest_paths KNN.kneighbors_graph line_dge 2 = Ok sp_e /\
    square n sp_e /\ max_finite m (entries sp_e) /\
    (~ (m == 0)%Q ->
     exists mu, (0 <= mu <= 1)%Q /\
       forall i j, (i < n)%nat -> (j < n)%nat ->
         exists q, get line_costs i j = Fin q /\ (- mu <= q <= 1 - mu)%Q /\
                   (i = j -> (q == - mu)%Q) /\
                   (get sp_e i j = PInf -> (q == 1 - mu)%Q) /\
                   (forall d, get sp_e i j = Fin d -> (q == d / m - mu)%Q)).
Proof.
  assert (H : result (setup_for_OT_reconstruction KNN.kneighbors_graph "0.0"
                        line_dge pairs_locations 2 2)
              = Ok (line_costs, nan_matrix 4)) by (vm_compute; reflexivity).
  split; [exact H |].
  exact (@cost_expression_scaled_distances KNN.kneighbors_graph "0.0"
           line_dge pairs_locations 2 2 _ _ H).
Defined.

Lemma shortest_paths_triangle_witness :
  shortest_paths KNN.kneighbors_graph line_dge 2 = Ok line_paths /\
  get line_paths 0 1 = Fin 1 /\ get line_paths 1 3 = Fin 2 /\
  (0 < length line_paths)%nat /\ (1 < length line_paths)%nat /\
  (3 < length line_paths)%nat /\
  exists q, get line_paths 0 3 = Fin q /\ (q <= 1 + 2)%Q.
Proof.
  assert (H : shortest_paths KNN.kneighbors_graph line_dge 2 = Ok line_paths)
    by (vm_compute; reflexivity).
  assert (Ha : get line_paths 0 1 = Fin 1) by reflexivity.
  assert (Hb : get line_paths 1 3 = Fin 2) by reflexivity.
  assert (Hr : (0 < length line_paths)%nat) by (simpl; lia).
  assert (Hm : (1 < length line_paths)%nat) by (simpl; lia).
  assert (Hc : (3 < length line_paths)%nat) by (simpl; lia).
  repeat (split; [assumption |]).
  exact (@shortest_paths_triangle KNN.kneighbors_graph line_dge 2 _
           0%nat 1%nat 3%nat _ _ H Ha Hb Hr Hm Hc).
Defined.

Lemma cost_locations_scaled_distances_witness :
  result (setup_for_OT_reconstruction KNN.kneighbors_graph "0.0"
            line_dge line_locations 2 2) = Ok (line_costs, line_costs) /\
  (exists sp_l, shortest_paths KNN.kneighbors_graph line_locations 2 = Ok sp_l /\
                np_max (entries sp_l) = Ok (Fin 3)) /\
  ~ (3 == 0)%Q /\
  exists sp_l n mu,
    shortest_paths KNN.kneighbors_graph line_locations 2 = Ok sp_l /\
    square n sp_l /\ (0 <= mu <= 1)%Q /\
    forall i j, (i < n)%nat -> (j < n)%nat ->
      exists d q, get sp_l i j = Fin d /\ get line_costs i j = Fin q /\
                  (q == d / 3 - mu)%Q /\ (- mu <= q <= 1 - mu)%Q /\
                  (i = j -> (q == - mu)%Q).
Proof.
  assert (H : result (setup_for_OT_reconstruction KNN.kneighbors_graph "0.0"
                        line_dge line_locations 2 2)
              = Ok (line_costs, line_costs)) by (vm_compute; reflexivity).
  assert (Hm : exists sp_l,
             shortest_paths KNN.kneighbors_graph line_locations 2 = Ok sp_l /\
             np_max (entries sp_l) = Ok (Fin 3)).
  { exists line_paths. split; vm_compute; reflexivity. }
  assert (Hnz : ~ (3 == 0)%Q) by discriminate.
  repeat (split; [assumption |]).
  exact (@cost_locations_scaled_distances KNN.kneighbors_graph "0.0"
           line_dge line_locations 2 2 _ _ 3%Q H Hm Hnz).
Defined.

(** ** Gene selection: errors, index wrap-around and thresholds *)

Lemma for_each_ext T St (f g : St -> T -> res St) (l : list T) (s : St) :
  (forall s x, f s x = g s x) -> for_each l f s = for_each l g s.
Proof.
  intros H. revert s. induction l as [| x l IH]; intros s; [reflexivity |].
  simpl. rewrite H. destruct (g s x); simpl; [apply IH | reflexivity].
Qed.

Lemma np_index_wrap T (l : list T) (i : Z) :
  (- Z.of_nat (length l) <= i < 0)%Z ->
  np_index l i = np_index l (i + Z.of_nat (length l)).
Proof.
  intros H. unfold np_index. cbv zeta.
  assert ((i <? 0)%Z = true) as -> by (apply Z.ltb_lt; lia).
  assert ((i + Z.of_nat (length l) <? 0)%Z = false) as ->
      by (apply Z.ltb_ge; lia).
  reflexivity.
Qed.

Lemma np_take_raise T (l : list T) (indices : list nat) (e : exn) :
  np_take l indices = Raise e -> e = IndexError.
Proof.
  unfold np_take. intros H. apply mapM_raise in H.
  destruct H as [i [_ Hi]]. destruct (nth_error l i); congruence.
Qed.

Lemma existsb_filter T (f : T -> bool) (l : list T) :
  existsb f l = negb (Nat.eqb (length (filter f l)) 0).
Proof.
  induction l as [| x l IH]; [reflexivity |].
  simpl. destruct (f x); [reflexivity | exact IH].
Qed.

Lemma compress_map_filter T (f : T -> bool) (l : list T) :
  compress (map f l) l = filter f l.
Proof.
  induction l as [| x l IH]; [reflexivity |].
  cbn [map filter]. rewrite compress_cons, IH. reflexivity.
Qed.

Lemma compress_map_snd R P (pos : R -> bool) (rps : list (R * P)) :
  compress (map pos (map fst rps)) (map snd rps)
  = map snd (filter (fun rp => pos (fst rp)) rps).
Proof.
  induction rps as [| rp rps IH]; [reflexivity |].
  cbn [map filter]. rewrite compress_cons, IH.
  destruct (pos (fst rp)); reflexivity.
Qed.

Lemma selection_count R P (pos : R -> bool) (sig : P -> bool)
      (rps : list (R * P)) :
  length (np_where (map sig (compress (map pos (map fst rps)) (map snd rps))))
  = length (filter (fun rp => pos (fst rp) && sig (snd rp)) rps).
Proof.
  set (l := compress (map pos (map fst rps)) (map snd rps)).
  rewrite (@np_where_length _ (map sig l) l)
    by (rewrite length_map; reflexivity).
  rewrite compress_map_filter. unfold l. rewrite compress_map_snd.
  induction rps as [| rp rps IH]; [reflexivity |].
  cbn [filter]. destruct (pos (fst rp)); cbn [andb map filter]; [| exact IH].
  destruct (sig (snd rp)); cbn [length]; rewrite IH; reflexivity.
Qed.

Lemma filter_subseq T (f g : T -> bool) (l : list T) :
  (forall x, f x = true -> g x = true) -> subseq (filter f l) (filter g l).
Proof.
  intros H. induction l as [| x l IH]; [constructor |].
  cbn [filter]. destruct (f x) eqn:Hf.
  - rewrite (H x Hf). apply subseq_keep, IH.
  - destruct (g x); [apply subseq_skip, IH | exact IH].
Qed.

Lemma subseq_map T U (h : T -> U) (l1 l2 : list T) :
  subseq l1 l2 -> subseq (map h l1) (map h l2).
Proof.
  induction 1 as [| x l1 l2 _ IH | x l1 l2 _ IH]; cbn [map];
    [constructor | apply subseq_skip, IH | apply subseq_keep, IH].
Qed.

Lemma leb_trans (x y z : float) :
  Float.leb x y = true -> Float.leb y z = true -> Float.leb x z = true.
Proof.
  unfold Float.leb.
  destruct x as [| | | a], y as [| | | b], z as [| | | c];
    cbn [Float.ltb Float.eqb orb]; try discriminate; try reflexivity.
  rewrite !orb_true_iff, !Qltb_lt, !Qeqb_eq. intros H1 H2.
  destruct (Qlt_le_dec a c) as [Hlt | Hge]; [left; exact Hlt |].
  right. destruct H1, H2; lra.
Qed.

Section GeneSelectionFacts.

Variable pvalue : nat -> coef -> float.

Lemma pearsonr_raise (x y : vector) (e : exn) :
  pearsonr pvalue x y = Raise e -> e = ValueError.
Proof.
  unfold pearsonr.
  destruct (negb (Nat.eqb (length x) (length y))); [congruence |].
  destruct (Nat.ltb (length x) 2); [congruence |].
  destruct (_ || _); [discriminate |].
  destruct (Nat.eqb _ 2); [discriminate |].
  destruct (_ && _); congruence.
Qed.

Lemma genes_loop_raise sdge archetypes archetype (l : list nat) acc e :
  for_each l (genes_body pvalue sdge archetypes archetype) acc = Raise e ->
  e = IndexError \/ e = ValueError.
Proof.
  revert acc. induction l as [| g l IH]; intros acc; [discriminate |].
  simpl. unfold genes_body at 1.
  destruct (np_index archetypes archetype) as [a |] eqn:Ha; simpl.
  - destruct (pearsonr pvalue (nth g sdge []) a) as [rp |] eqn:Hrp; simpl.
    + apply IH.
    + intros [= <-]. right. apply (pearsonr_raise _ _ Hrp).
  - intros [= <-]. left. apply (np_index_raise _ _ Ha).
Qed.

(** The loop over the genes, when the archetype index is valid. *)
Lemma genes_loop_run sdge archetypes archetype a :
  np_index archetypes archetype = Ok a ->
  for_each (seq 0 (length sdge))
           (genes_body pvalue sdge archetypes archetype) ([], [])
  = (rps <-- mapM (fun row => pearsonr pvalue row a) sdge ;;
     Ok (map fst rps, map snd rps))%py.
Proof.
  intros Ha.
  pose proof (mapM_seq_nth (fun row => pearsonr pvalue row a) sdge []) as Hseq.
  cbv beta in Hseq.
  rewrite (@genes_loop pvalue sdge archetypes archetype a _ _ Ha), Hseq.
  reflexivity.
Qed.

(** The result of the function once the loop has produced the statistics
    [stats], whatever the length of [gene_names]. *)
Lemma get_genes_unfold
    sdge gene_names archetypes archetype pval_threshold a stats :
  np_index archetypes archetype = Ok a ->
  mapM (fun row => pearsonr pvalue row a) sdge = Ok stats ->
  get_genes_from_spatial_archetype pvalue sdge gene_names archetypes archetype
    pval_threshold
  = if existsb (is_significant pval_threshold) stats then
      if Nat.eqb (length gene_names) (length sdge)
      then ([], Ok (Some (significant pval_threshold gene_names stats)))
      else ([], Raise IndexError)
    else ([no_genes_message], Ok None).
Proof.
  intros Ha Hstats.
  pose proof (@mapM_length _ _ _ _ _ Hstats) as Hlen.
  unfold get_genes_from_spatial_archetype.
  rewrite (@genes_loop_run sdge archetypes archetype a Ha), Hstats.
  cbn [rbind lift bind fst snd app].
  set (positive := map (fun r => coef_gtb r (coef_of_Q 0)) (map fst stats)).
  set (sig := fun p => Float.leb p pval_threshold).
  assert (Hpos : length positive = length stats)
    by (unfold positive; rewrite !length_map; reflexivity).
  assert (Hcount : length (np_where (map sig (compress positive (map snd stats))))
                   = length (filter (is_significant pval_threshold) stats))
    by (apply (selection_count (fun r => coef_gtb r (coef_of_Q 0)) sig)).
  rewrite existsb_filter, <- Hcount.
  destruct (Nat.eqb (length (np_where (map sig (compress positive (map snd stats))))) 0)
    eqn:Hz; cbn [negb]; [reflexivity |].
  unfold np_mask. rewrite Hpos, Hlen.
  destruct (Nat.eqb_spec (length gene_names) (length sdge)) as [Hn | Hn];
    [| reflexivity].
  cbn [lift bind].
  assert (Hsel : length (compress positive gene_names)
                 = length (map sig (compress positive (map snd stats)))).
  { rewrite length_map. apply compress_length; [lia |].
    rewrite length_map. lia. }
  rewrite (@np_take_where _ _ _ Hsel).
  assert (Htwo : compress (map sig (compress positive (map snd stats)))
                          (compress positive gene_names)
                 = significant pval_threshold gene_names stats).
  { unfold significant, positive.
    apply (@two_stage_filter _ _ _ (fun r => coef_gtb r (coef_of_Q 0)) sig).
    lia. }
  rewrite Htwo. reflexivity.
Qed.

(** The four ways the function can end. *)
Lemma get_genes_outcome sdge gene_names archetypes archetype pval_threshold :
  let run := get_genes_from_spatial_archetype pvalue sdge gene_names
               archetypes archetype pval_threshold in
  run = ([no_genes_message], Ok None) \/
  (exists genes, run = ([], Ok (Some genes))) \/
  run = ([], Raise IndexError) \/ run = ([], Raise ValueError).
Proof.
  cbv zeta. unfold get_genes_from_spatial_archetype.
  destruct (for_each _ _ _) as [[all_corrs all_corrs_p] | e] eqn:Hloop.
  - cbn [lift bind fst snd app].
    destruct (Nat.eqb _ 0); [left; reflexivity |].
    unfold np_mask. destruct (Nat.eqb _ _); cbn [lift bind app].
    + destruct (np_take _ _) as [genes |] eqn:Htake; cbn [lift bind app].
      * right. left. exists genes. reflexivity.
      * apply np_take_raise in Htake. subst. right. right. left. reflexivity.
    + right. right. left. reflexivity.
  - cbn [lift bind]. apply genes_loop_raise in Hloop.
    destruct Hloop as [-> | ->]; right; right; [left | right]; reflexivity.
Qed.

(** What a returned sequence is. *)
Lemma get_genes_some_inv
    sdge gene_names archetypes archetype pval_threshold genes :
  result (get_genes_from_spatial_archetype pvalue sdge gene_names archetypes
            archetype pval_threshold) = Ok (Some genes) ->
  exists a stats,
    np_index archetypes archetype = Ok a /\
    mapM (fun row => pearsonr pvalue row a) sdge = Ok stats /\
    length gene_names = length sdge /\
    existsb (is_significant pval_threshold) stats = true /\
    genes = significant pval_threshold gene_names stats.
Proof.
  intros H.
  destruct (np_index archetypes archetype) as [a |] eqn:Ha.
  - destruct (mapM (fun row => pearsonr pvalue row a) sdge) as [stats |]
      eqn:Hstats.
    + rewrite (@get_genes_unfold sdge gene_names archetypes archetype pval_threshold a stats Ha Hstats) in H.
      exists a, stats.
      destruct (existsb _ stats); [| discriminate H].
      destruct (Nat.eqb_spec (length gene_names) (length sdge)) as [Hn | Hn];
        [| discriminate H].
      injection H as <-. repeat split; assumption.
    + exfalso. unfold get_genes_from_spatial_archetype in H.
      rewrite (@genes_loop_run sdge archetypes archetype a Ha), Hstats in H. discriminate H.
  - exfalso. destruct sdge as [| row sdge].
    + discriminate H.
    + unfold get_genes_from_spatial_archetype in H.
      cbn [length seq for_each] in H. unfold genes_body at 1 in H.
      rewrite Ha in H. discriminate H.
Qed.

Lemma np_index_out_of_range T (l : list T) (i : Z) :
  (i < - Z.of_nat (length l) \/ Z.of_nat (length l) <= i)%Z ->
  np_index l i = Raise IndexError.
Proof.
  intros H. unfold np_index. cbv zeta.
  destruct (Z.ltb_spec i 0) as [Hneg | Hpos].
  - assert (((0 <=? i + Z.of_nat (length l)) &&
             (i + Z.of_nat (length l) <? Z.of_nat (length l)))%Z%bool = false)
      as -> by (apply andb_false_iff; left; apply Z.leb_gt; lia).
    reflexivity.
  - assert (((0 <=? i) && (i <? Z.of_nat (length l)))%Z%bool = false)
      as -> by (apply andb_false_iff; right; apply Z.ltb_ge; lia).
    reflexivity.
Qed.

Lemma significant_length (pval_threshold : float) (gene_names : list string)
      (stats : list (coef * float)) :
  length gene_names = length stats ->
  length (significant pval_threshold gene_names stats)
  = length (filter (is_significant pval_threshold) stats).
Proof.
  unfold significant. rewrite length_map. revert stats.
  induction gene_names as [| n names IH]; intros [| rp stats] Hlen;
    try discriminate Hlen; [reflexivity |].
  cbn [combine filter fst snd]. fold (is_significant pval_threshold rp).
  destruct (is_significant pval_threshold rp);
    cbn [length]; rewrite IH by (simpl in Hlen; lia); reflexivity.
Qed.

Lemma significant_subseq (pval_threshold : float) (gene_names : list string)
      (stats : list (coef * float)) :
  subseq (significant pval_threshold gene_names stats) gene_names.
Proof.
  unfold significant. revert stats.
  induction gene_names as [| n names IH]; intros stats; [constructor |].
  destruct stats as [| rp stats]; [apply subseq_nil_l |].
  cbn [combine filter fst snd].
  destruct (coef_gtb (fst rp) (coef_of_Q 0) && Float.leb (snd rp) pval_threshold);
    cbn [map fst]; [apply subseq_keep | apply subseq_skip]; apply IH.
Qed.

Lemma significant_nonempty (pval_threshold : float) (gene_names : list string)
      (stats : list (coef * float)) :
  length gene_names = length stats ->
  existsb (is_significant pval_threshold) stats = true ->
  significant pval_threshold gene_names stats <> [].
Proof.
  intros Hlen Hex E. rewrite existsb_filter in Hex.
  rewrite <- (significant_length pval_threshold _ _ Hlen), E in Hex.
  discriminate Hex.
Qed.

(** An archetype index out of range is noticed only when there is a gene to
    correlate: without genes the function prints its message and returns
    [None]; with at least one gene it raises an index error and prints
    nothing. *)
Theorem get_genes_invalid_archetype
    sdge gene_names archetypes archetype pval_threshold :
  (archetype < - Z.of_nat (length archetypes)
   \/ Z.of_nat (length archetypes) <= archetype)%Z ->
  get_genes_from_spatial_archetype pvalue sdge gene_names archetypes archetype
    pval_threshold
  = match sdge with
    | [] => ([no_genes_message], Ok None)
    | _ :: _ => ([], Raise IndexError)
    end.
Proof.
  intros H. apply np_index_out_of_range in H.
  destruct sdge as [| row sdge]; [reflexivity |].
  unfold get_genes_from_spatial_archetype.
  cbn [length seq for_each]. unfold genes_body at 1.
  rewrite H. reflexivity.
Qed.

(** A negative archetype index counts from the last archetype. *)
Theorem get_genes_negative_archetype
    sdge gene_names archetypes archetype pval_threshold :
  (- Z.of_nat (length archetypes) <= archetype < 0)%Z ->
  get_genes_from_spatial_archetype pvalue sdge gene_names archetypes archetype
    pval_threshold
  = get_genes_from_spatial_archetype pvalue sdge gene_names archetypes
      (archetype + Z.of_nat (length archetypes)) pval_threshold.
Proof.
  intros H. unfold get_genes_from_spatial_archetype.
  rewrite (@for_each_ext _ _
             (genes_body pvalue sdge archetypes archetype)
             (genes_body pvalue sdge archetypes
                (archetype + Z.of_nat (length archetypes))));
    [reflexivity |].
  intros acc g. unfold genes_body. rewrite (np_index_wrap _ H). reflexivity.
Qed.

(** The length of [gene_names] is checked only when some gene passes the
    selection: with a wrong number of names the function still prints its
    message and returns [None] when no gene is significant, and raises an
    index error otherwise. *)
Theorem get_genes_names_mismatch
    sdge gene_names archetypes archetype pval_threshold a stats :
  np_index archetypes archetype = Ok a ->
  mapM (fun row => pearsonr pvalue row a) sdge = Ok stats ->
  length gene_names <> length sdge ->
  get_genes_from_spatial_archetype pvalue sdge gene_names archetypes archetype
    pval_threshold
  = if existsb (is_significant pval_threshold) stats
    then ([], Raise IndexError)
    else ([no_genes_message], Ok None).
Proof.
  intros Ha Hstats Hn.
  rewrite (@get_genes_unfold sdge gene_names archetypes archetype
             pval_threshold a stats Ha Hstats).
  destruct (Nat.eqb_spec (length gene_names) (length sdge)) as [E | _];
    [contradiction | reflexivity].
Qed.

(** Raising the threshold never loses a gene: when the function returns a
    sequence for a threshold, it returns a sequence for every larger
    threshold, and the first is a subsequence of the second. *)
Theorem get_genes_threshold_monotone
    sdge gene_names archetypes archetype pval_threshold pval_threshold' genes :
  result (get_genes_from_spatial_archetype pvalue sdge gene_names archetypes
            archetype pval_threshold) = Ok (Some genes) ->
  Float.leb pval_threshold pval_threshold' = true ->
  exists genes',
    get_genes_from_spatial_archetype pvalue sdge gene_names archetypes
      archetype pval_threshold' = ([], Ok (Some genes')) /\
    subseq genes genes'.
Proof.
  intros H Hle.
  destruct (get_genes_some_inv _ _ _ _ _ H)
    as [a [stats [Ha [Hstats [Hn [Hex ->]]]]]].
  assert (Hmono : forall rp, is_significant pval_threshold rp = true ->
                             is_significant pval_threshold' rp = true).
  { intros rp. unfold is_significant. rewrite !andb_true_iff.
    intros [Hpos Hp]. split; [exact Hpos |].
    apply (leb_trans _ _ _ Hp Hle). }
  exists (significant pval_threshold' gene_names stats). split.
  - rewrite (@get_genes_unfold sdge gene_names archetypes archetype
               pval_threshold' a stats Ha Hstats).
    assert (existsb (is_significant pval_threshold') stats = true) as ->.
    { apply existsb_exists. apply existsb_exists in Hex.
      destruct Hex as [rp [Hin Hrp]]. exists rp. split; [exact Hin |].
      apply Hmono, Hrp. }
    rewrite Hn, Nat.eqb_refl. reflexivity.
  - unfold significant. apply subseq_map, filter_subseq.
    intros [name rp]. apply Hmono.
Qed.

(** The message is printed exactly when [None] is returned and nothing else
    is ever printed; the only exceptions are index and value errors. *)
Theorem get_genes_message_iff_none
    sdge gene_names archetypes archetype pval_threshold :
  let run := get_genes_from_spatial_archetype pvalue sdge gene_names
               archetypes archetype pval_threshold in
  (fst run = [no_genes_message] <-> result run = Ok None) /\
  (fst run = [no_genes_message] \/ fst run = []) /\
  (forall e, result run = Raise e -> e = IndexError \/ e = ValueError).
Proof.
  cbv zeta.
  destruct (get_genes_outcome sdge gene_names archetypes archetype
              pval_threshold) as [E | [[genes E] | [E | E]]];
    rewrite E; unfold result; cbn [fst snd];
    (split; [split; intros H; (reflexivity || discriminate H) |]);
    (split; [(left; reflexivity) || (right; reflexivity) |]);
    intros e H; try discriminate H; injection H as <-;
    [left | right]; reflexivity.
Qed.

End GeneSelectionFacts.

Lemma get_genes_invalid_archetype_witness :
  (1 < - Z.of_nat (length rising_archetype)
   \/ Z.of_nat (length rising_archetype) <= 1)%Z /\
  get_genes_from_spatial_archetype pvalue_example four_gene_sdge
    four_gene_names rising_archetype 1 (Fin 0)
  = ([], Raise IndexError).
Proof.
  assert (H : (1 < - Z.of_nat (length rising_archetype)
               \/ Z.of_nat (length rising_archetype) <= 1)%Z)
    by (right; simpl; lia).
  split; [exact H |].
  exact (@get_genes_invalid_archetype pvalue_example four_gene_sdge
           four_gene_names rising_archetype 1%Z (Fin 0) H).
Defined.

Lemma get_genes_negative_archetype_witness :
  (- Z.of_nat (length falling_rising_archetypes) <= -1 < 0)%Z /\
  get_genes_from_spatial_archetype pvalue_example three_gene_sdge
    three_gene_names falling_rising_archetypes (-1) (Fin 0)
  = get_genes_from_spatial_archetype pvalue_example three_gene_sdge
      three_gene_names falling_rising_archetypes
      (-1 + Z.of_nat (length falling_rising_archetypes)) (Fin 0).
Proof.
  assert (H : (- Z.of_nat (length falling_rising_archetypes) <= -1 < 0)%Z)
    by (simpl; lia).
  split; [exact H |].
  exact (@get_genes_negative_archetype pvalue_example three_gene_sdge
           three_gene_names falling_rising_archetypes (-1)%Z (Fin 0) H).
Defined.

Lemma get_genes_names_mismatch_witness :
  np_index rising_archetype 0 = Ok [Fin 0; Fin 2; Fin 4] /\
  mapM (fun row => pearsonr pvalue_example row [Fin 0; Fin 2; Fin 4])
       four_gene_sdge = Ok rising_stats /\
  length three_gene_names <> length four_gene_sdge /\
  get_genes_from_spatial_archetype pvalue_example four_gene_sdge
    three_gene_names rising_archetype 0 (Fin 0)
  = if existsb (is_significant (Fin 0)) rising_stats
    then ([], Raise IndexError)
    else ([no_genes_message], Ok None).
Proof.
  assert (H1 : np_index rising_archetype 0 = Ok [Fin 0; Fin 2; Fin 4])
    by reflexivity.
  assert (H2 : mapM (fun row => pearsonr pvalue_example row [Fin 0; Fin 2; Fin 4])
                 four_gene_sdge = Ok rising_stats)
    by (vm_compute; reflexivity).
  assert (H3 : length three_gene_names <> length four_gene_sdge)
    by (simpl; lia).
  repeat (split; [assumption |]).
  exact (@get_genes_names_mismatch pvalue_example four_gene_sdge
           three_gene_names rising_archetype 0%Z (Fin 0) _ _ H1 H2 H3).
Defined.

Lemma get_genes_threshold_monotone_witness :
  result (get_genes_from_spatial_archetype pvalue_example four_gene_sdge
            four_gene_names rising_archetype 0 (Fin 0))
  = Ok (Some ["b"; "c"]%string) /\
  Float.leb (Fin 0) (Fin 1) = true /\
  exists genes',
    get_genes_from_spatial_archetype pvalue_example four_gene_sdge
      four_gene_names rising_archetype 0 (Fin 1) = ([], Ok (Some genes')) /\
    subseq ["b"; "c"]%string genes'.
Proof.
  assert (H : result (get_genes_from_spatial_archetype pvalue_example
                        four_gene_sdge four_gene_names rising_archetype 0 (Fin 0))
              = Ok (Some ["b"; "c"]%string)) by (vm_compute; reflexivity).
  assert (Hle : Float.leb (Fin 0) (Fin 1) = true) by reflexivity.
  repeat (split; [assumption |]).
  exact (@get_genes_threshold_monotone pvalue_example four_gene_sdge
           four_gene_names rising_archetype 0%Z (Fin 0) (Fin 1) _ H Hle).
Defined.

(** ** Related genes: errors and what a returned sequence means *)

Lemma np_max_raise (l : vector) (e : exn) :
  np_max l = Raise e -> l = [] /\ e = ValueError.
Proof. destruct l; simpl; [intros [= <-]; split; reflexivity | discriminate]. Qed.

Lemma np_argmax_raise (l : vector) (e : exn) :
  np_argmax l = Raise e -> l = [] /\ e = ValueError.
Proof. destruct l; simpl; [intros [= <-]; split; reflexivity | discriminate]. Qed.

Lemma first_max_at_nth (l : vector) (i : nat) (m : Q) :
  first_max_at l i m -> (i < length l)%nat /\ nth i l NaN = Fin m.
Proof.
  intros [l1 [l2 [-> [<- _]]]]. split.
  - rewrite length_app. simpl. lia.
  - rewrite app_nth2, Nat.sub_diag by lia. reflexivity.
Qed.

Lemma first_nan_at_nth (l : vector) (i : nat) :
  first_nan_at l i -> (i < length l)%nat /\ nth i l NaN = NaN.
Proof.
  intros [l1 [l2 [-> [<- _]]]]. split.
  - rewrite length_app. simpl. lia.
  - rewrite app_nth2, Nat.sub_diag by lia. reflexivity.
Qed.

Lemma coef_threshold : coef_of_Q (7 # 10) = SignedSquare (Fin (49 # 100)).
Proof. reflexivity. Qed.

Section RelatedGenesFacts.

Variable pvalue : nat -> coef -> float.

Lemma related_loop_raise sdge archetypes gene (l : list nat) acc e :
  for_each l (related_body pvalue sdge archetypes gene) acc = Raise e ->
  e = IndexError \/ e = ValueError.
Proof.
  revert acc. induction l as [| k l IH]; intros acc; [discriminate |].
  cbn [for_each]. unfold related_body at 1.
  destruct (np_index sdge gene) as [row |] eqn:Hrow; cbn [rbind].
  - destruct (pearsonr pvalue row (nth k archetypes [])) as [rp |] eqn:Hrp;
      cbn [rbind].
    + apply IH.
    + intros [= <-]. right. apply (@pearsonr_raise pvalue _ _ _ Hrp).
  - intros [= <-]. left. apply (np_index_raise _ _ Hrow).
Qed.

(** The archetype that the function goes on with, once the correlations of
    the query row with the archetypes are known. *)
Lemma related_choice sdge gene_names archetypes gene pval_threshold row astats :
  np_index sdge gene = Ok row ->
  mapM (fun k => pearsonr pvalue row (nth k archetypes []))
       (seq 0 (length archetypes)) = Ok astats ->
  archetypes <> [] ->
  exists i r p,
    (i < length archetypes)%nat /\
    pearsonr pvalue row (nth i archetypes []) = Ok (r, p) /\
    ((exists s, signed_square r = Fin s /\
        find_spatially_related_genes pvalue sdge gene_names archetypes gene
          pval_threshold
        = if Float.Qltb s (49 # 100)
          then ([no_archetype_message], Ok None)
          else get_genes_from_spatial_archetype pvalue sdge gene_names
                 archetypes (Z.of_nat i) pval_threshold)
     \/
     (signed_square r = NaN /\
      find_spatially_related_genes pvalue sdge gene_names archetypes gene
        pval_threshold
      = get_genes_from_spatial_archetype pvalue sdge gene_names
          archetypes (Z.of_nat i) pval_threshold)).
Proof.
  intros Hrow Hstats Hne.
  pose proof (@mapM_length _ _ _ _ _ Hstats) as Hlen.
  rewrite length_seq in Hlen.
  assert (Hloop : for_each (seq 0 (length archetypes))
                    (related_body pvalue sdge archetypes gene) []
                  = Ok (map fst astats)).
  { rewrite (@related_loop pvalue sdge archetypes gene row _ _ Hrow), Hstats.
    reflexivity. }
  rewrite (@related_unfold pvalue sdge gene_names archetypes gene
             pval_threshold _ Hloop).
  set (corrs := map signed_square (map fst astats)).
  assert (Hclen : length corrs = length archetypes)
    by (unfold corrs; rewrite !length_map; exact Hlen).
  assert (Hcases : Forall (fun x => x = NaN \/ finite x) corrs).
  { unfold corrs. apply Forall_map, Forall_map, Forall_forall.
    intros [r p] Hin.
    destruct (@mapM_in _ _ _ _ _ _ Hstats Hin) as [k [_ Hk]].
    apply (@pearsonr_nan_or_finite pvalue _ _ _ _ Hk). }
  assert (Hnth : forall i, (i < length archetypes)%nat ->
            pearsonr pvalue row (nth i archetypes [])
            = Ok (nth i astats (coef_nan, NaN)) /\
            signed_square (fst (nth i astats (coef_nan, NaN)))
            = nth i corrs NaN).
  { intros i Hi. split.
    - pose proof (@mapM_nth _ _ _ _ _ i 0%nat (coef_nan, NaN) Hstats) as Hn.
      rewrite length_seq, seq_nth in Hn by exact Hi. apply Hn, Hi.
    - unfold corrs. rewrite map_map.
      change NaN with (signed_square (fst (coef_nan, NaN))) at 2.
      rewrite (map_nth (fun rp => signed_square (fst rp))). reflexivity. }
  destruct (nan_or_finite_cases Hcases) as [Hfin | [i Hnan]].
  - assert (Hcne : corrs <> []).
    { intros E. rewrite E in Hclen. destruct archetypes; [congruence |].
      discriminate Hclen. }
    destruct (np_max_argmax_finite Hcne Hfin) as [i [m [Hfirst [Hmax Harg]]]].
    destruct (first_max_at_nth Hfirst) as [Hi Hval].
    rewrite Hclen in Hi. destruct (Hnth i Hi) as [Hp Hss].
    destruct (nth i astats (coef_nan, NaN)) as [r p] eqn:Hrp.
    exists i, r, p. split; [exact Hi |]. split; [exact Hp |].
    left. exists m. split; [cbn [fst] in Hss; congruence |].
    rewrite Hmax, Harg, coef_threshold. reflexivity.
  - destruct (np_max_argmax_nan Hnan) as [Hmax Harg].
    destruct (first_nan_at_nth Hnan) as [Hi Hval].
    rewrite Hclen in Hi. destruct (Hnth i Hi) as [Hp Hss].
    destruct (nth i astats (coef_nan, NaN)) as [r p] eqn:Hrp.
    exists i, r, p. split; [exact Hi |]. split; [exact Hp |].
    right. split; [cbn [fst] in Hss; congruence |].
    rewrite Hmax, Harg. reflexivity.
Qed.

(** A query index out of range raises an index error, unless there is no
    archetype at all: then the maximum of an empty sequence raises a value
    error first. Nothing is printed. *)
Theorem related_genes_invalid_gene
    sdge gene_names archetypes gene pval_threshold :
  (gene < - Z.of_nat (length sdge) \/ Z.of_nat (length sdge) <= gene)%Z ->
  find_spatially_related_genes pvalue sdge gene_names archetypes gene
    pval_threshold
  = match archetypes with
    | [] => ([], Raise ValueError)
    | _ :: _ => ([], Raise IndexError)
    end.
Proof.
  intros H. apply np_index_out_of_range in H.
  destruct archetypes as [| a archetypes]; [reflexivity |].
  unfold find_spatially_related_genes.
  cbn [length seq for_each]. unfold related_body at 1.
  rewrite H. reflexivity.
Qed.

(** A returned sequence is the selection for one archetype whose
    correlation with the query gene is at least 0.7, or undefined: the names,
    in the order of [gene_names], of the genes with a positive coefficient
    and a p-value at most the threshold against that archetype. It is not
    empty and nothing has been printed. *)
Theorem related_genes_returned
    sdge gene_names archetypes gene pval_threshold genes :
  result (find_spatially_related_genes pvalue sdge gene_names archetypes gene
            pval_threshold) = Ok (Some genes) ->
  exists row i r p stats,
    np_index sdge gene = Ok row /\ (i < length archetypes)%nat /\
    pearsonr pvalue row (nth i archetypes []) = Ok (r, p) /\
    (signed_square r = NaN \/
     exists s, signed_square r = Fin s /\ (49 # 100 <= s)%Q) /\
    mapM (fun g => pearsonr pvalue g (nth i archetypes [])) sdge = Ok stats /\
    length gene_names = length sdge /\
    genes = significant pval_threshold gene_names stats /\
    genes <> [] /\ subseq genes gene_names /\
    fst (find_spatially_related_genes pvalue sdge gene_names archetypes gene
           pval_threshold) = [].
Proof.
  intros H.
  destruct archetypes as [| a0 rest] eqn:Earch; [discriminate H |].
  rewrite <- Earch in *.
  assert (Hne : archetypes <> []) by (rewrite Earch; discriminate).
  destruct (np_index sdge gene) as [row |] eqn:Hrow.
  2:{ exfalso. unfold find_spatially_related_genes in H.
      rewrite Earch in H. cbn [length seq for_each] in H.
      unfold related_body at 1 in H. rewrite Hrow in H. discriminate H. }
  destruct (mapM (fun k => pearsonr pvalue row (nth k archetypes []))
                 (seq 0 (length archetypes))) as [astats |] eqn:Hstats.
  2:{ exfalso. unfold find_spatially_related_genes in H.
      rewrite (@related_loop pvalue sdge archetypes gene row _ _ Hrow),
        Hstats in H.
      discriminate H. }
  destruct (@related_choice sdge gene_names archetypes gene pval_threshold
              row astats Hrow Hstats Hne)
    as [i [r [p [Hi [Hp Hcase]]]]].
  assert (Hgo : find_spatially_related_genes pvalue sdge gene_names
                  archetypes gene pval_threshold
                = get_genes_from_spatial_archetype pvalue sdge gene_names
                    archetypes (Z.of_nat i) pval_threshold /\
                (signed_square r = NaN \/
                 exists s, signed_square r = Fin s /\ (49 # 100 <= s)%Q)).
  { destruct Hcase as [[s [Hs E]] | [Hs E]].
    - destruct (Float.Qltb s (49 # 100)) eqn:Hlt.
      + rewrite E in H. discriminate H.
      + split; [exact E |]. right. exists s. split; [exact Hs |].
        apply Qltb_ge, Hlt.
    - split; [exact E |]. left. exact Hs. }
  destruct Hgo as [Hgo Hcorr]. rewrite Hgo in H |- *.
  destruct (@get_genes_some_inv pvalue _ _ _ _ _ _ H)
    as [a [stats [Ha [Hs [Hn [Hex ->]]]]]].
  rewrite (@np_index_ok _ archetypes (Z.of_nat i) []) in Ha by lia.
  rewrite Nat2Z.id in Ha. injection Ha as <-.
  pose proof (@mapM_length _ _ _ _ _ Hs) as Hlen.
  exists row, i, r, p, stats.
  repeat (split; [assumption || reflexivity |]).
  split; [apply significant_nonempty; [lia | exact Hex] |].
  split; [apply significant_subseq |].
  rewrite (@get_genes_unfold pvalue sdge gene_names archetypes (Z.of_nat i)
             pval_threshold (nth i archetypes []) stats);
    [| rewrite (@np_index_ok _ archetypes (Z.of_nat i) []) by lia;
       rewrite Nat2Z.id; reflexivity
     | exact Hs].
  rewrite Hex, Hn, Nat.eqb_refl. reflexivity.
Qed.

(** A query gene with the same value at every location has an undefined
    correlation with every archetype; the test against 0.7 does not fire and
    the function returns the selection for the first archetype. *)
Theorem related_genes_flat_query
    sdge gene_names archetypes gene pval_threshold row :
  np_index sdge gene = Ok row ->
  all_equal row = true -> (2 <= length row)%nat ->
  archetypes <> [] ->
  Forall (fun a => length a = length row) archetypes ->
  find_spatially_related_genes pvalue sdge gene_names archetypes gene
    pval_threshold
  = get_genes_from_spatial_archetype pvalue sdge gene_names archetypes 0
      pval_threshold.
Proof.
  intros Hrow Hconst Hlen Hne Hrect.
  assert (Hstats : mapM (fun k => pearsonr pvalue row (nth k archetypes []))
                        (seq 0 (length archetypes))
                   = Ok (map (fun _ => (coef_nan, NaN)) archetypes)).
  { pose proof (mapM_seq_nth (fun a => pearsonr pvalue row a) archetypes [])
      as Hseq.
    cbv beta in Hseq. rewrite Hseq. apply mapM_ok.
    intros a Ha. rewrite Forall_forall in Hrect.
    apply pearsonr_all_equal;
      [symmetry; apply Hrect, Ha | exact Hlen | exact Hconst]. }
  assert (Hloop : for_each (seq 0 (length archetypes))
                    (related_body pvalue sdge archetypes gene) []
                  = Ok (map fst (map (fun _ : vector => (coef_nan, NaN))
                                     archetypes))).
  { rewrite (@related_loop pvalue sdge archetypes gene row _ _ Hrow), Hstats.
    reflexivity. }
  rewrite (@related_unfold pvalue sdge gene_names archetypes gene
             pval_threshold _ Hloop).
  destruct archetypes as [| a rest]; [congruence |].
  assert (Hfirst : first_nan_at
            (map signed_square
               (map fst (map (fun _ : vector => (coef_nan, NaN))
                             (a :: rest)))) 0).
  { exists [], (map signed_square
                  (map fst (map (fun _ : vector => (coef_nan, NaN)) rest))).
    cbn [map app length fst signed_square coef_nan].
    repeat split. constructor. }
  destruct (np_max_argmax_nan Hfirst) as [Hmax Harg].
  rewrite Hmax, Harg. reflexivity.
Qed.

(** The five ways the function can end: the message of one of the two stages
    with [None], a sequence with nothing printed, or an index or value error
    with nothing printed. *)
Theorem related_genes_outcomes
    sdge gene_names archetypes gene pval_threshold :
  let run := find_spatially_related_genes pvalue sdge gene_names archetypes
               gene pval_threshold in
  run = ([no_archetype_message], Ok None) \/
  run = ([no_genes_message], Ok None) \/
  (exists genes, run = ([], Ok (Some genes))) \/
  run = ([], Raise IndexError) \/ run = ([], Raise ValueError).
Proof.
  cbv zeta.
  destruct (for_each (seq 0 (length archetypes))
              (related_body pvalue sdge archetypes gene) [])
    as [arch_corrs | e] eqn:Hloop.
  - rewrite (@related_unfold pvalue sdge gene_names archetypes gene
               pval_threshold _ Hloop).
    destruct (np_max _) as [best | e] eqn:Hmax.
    + destruct (coef_ltb _ _); [left; reflexivity |].
      destruct (np_argmax _) as [i | e] eqn:Harg.
      * destruct (@get_genes_outcome pvalue sdge gene_names archetypes
                    (Z.of_nat i) pval_threshold) as [E | [E | [E | E]]];
          rewrite ?E; tauto.
      * apply np_argmax_raise in Harg. destruct Harg as [_ ->]. tauto.
    + apply np_max_raise in Hmax. destruct Hmax as [_ ->]. tauto.
  - unfold find_spatially_related_genes. rewrite Hloop. cbn [lift bind].
    apply related_loop_raise in Hloop. destruct Hloop as [-> | ->]; tauto.
Qed.

End RelatedGenesFacts.

Lemma related_genes_invalid_gene_witness :
  (3 < - Z.of_nat (length three_gene_sdge)
   \/ Z.of_nat (length three_gene_sdge) <= 3)%Z /\
  find_spatially_related_genes pvalue_example three_gene_sdge
    three_gene_names falling_rising_archetypes 3 (Fin 0)
  = ([], Raise IndexError).
Proof.
  assert (H : (3 < - Z.of_nat (length three_gene_sdge)
               \/ Z.of_nat (length three_gene_sdge) <= 3)%Z)
    by (right; simpl; lia).
  split; [exact H |].
  exact (@related_genes_invalid_gene pvalue_example three_gene_sdge
           three_gene_names falling_rising_archetypes 3%Z (Fin 0) H).
Defined.

Lemma related_genes_returned_witness :
  result (find_spatially_related_genes pvalue_example three_gene_sdge
            three_gene_names falling_rising_archetypes 0 (Fin 0))
  = Ok (Some ["a"; "b"]%string) /\
  exists row i r p stats,
    np_index three_gene_sdge 0 = Ok row /\
    (i < length falling_rising_archetypes)%nat /\
    pearsonr pvalue_example row (nth i falling_rising_archetypes [])
    = Ok (r, p) /\
    (signed_square r = NaN \/
     exists s, signed_square r = Fin s /\ (49 # 100 <= s)%Q) /\
    mapM (fun g => pearsonr pvalue_example g
                     (nth i falling_rising_archetypes []))
         three_gene_sdge = Ok stats /\
    length three_gene_names = length three_gene_sdge /\
    ["a"; "b"]%string = significant (Fin 0) three_gene_names stats /\
    ["a"; "b"]%string <> [] /\ subseq ["a"; "b"]%string three_gene_names /\
    fst (find_spatially_related_genes pvalue_example three_gene_sdge
           three_gene_names falling_rising_archetypes 0 (Fin 0)) = [].
Proof.
  assert (H : result (find_spatially_related_genes pvalue_example
                        three_gene_sdge three_gene_names
                        falling_rising_archetypes 0 (Fin 0))
              = Ok (Some ["a"; "b"]%string)) by (vm_compute; reflexivity).
  split; [exact H |].
  exact (@related_genes_returned pvalue_example three_gene_sdge
           three_gene_names falling_rising_archetypes 0%Z (Fin 0) _ H).
Defined.

Lemma related_genes_flat_query_witness :
  np_index four_gene_sdge 0 = Ok [Fin 5; Fin 5; Fin 5] /\
  all_equal [Fin 5; Fin 5; Fin 5] = true /\
  (2 <= length [Fin 5; Fin 5; Fin 5])%nat /\
  falling_rising_archetypes <> [] /\
  Forall (fun a : vector => length a = length [Fin 5; Fin 5; Fin 5])
         falling_rising_archetypes /\
  find_spatially_related_genes pvalue_example four_gene_sdge four_gene_names
    falling_rising_archetypes 0 (Fin 0)
  = get_genes_from_spatial_archetype pvalue_example four_gene_sdge
      four_gene_names falling_rising_archetypes 0 (Fin 0).
Proof.
  assert (H1 : np_index four_gene_sdge 0 = Ok [Fin 5; Fin 5; Fin 5])
    by reflexivity.
  assert (H2 : all_equal [Fin 5; Fin 5; Fin 5] = true) by reflexivity.
  assert (H3 : (2 <= length [Fin 5; Fin 5; Fin 5])%nat) by (simpl; lia).
  assert (H4 : falling_rising_archetypes <> []) by discriminate.
  assert (H5 : Forall (fun a : vector => length a = length [Fin 5; Fin 5; Fin 5])
                      falling_rising_archetypes)
    by (repeat constructor).
  repeat (split; [assumption |]).
  exact (@related_genes_flat_query pvalue_example four_gene_sdge
           four_gene_names falling_rising_archetypes 0%Z (Fin 0) _
           H1 H2 H3 H4 H5).
Defined.

(** ** Archetypes: unused clusters, undefined correlations and failures *)

Lemma map_const_seq T (c : T) (a n : nat) :
  map (fun _ => c) (seq a n) = repeat c n.
Proof.
  revert a. induction n as [| n IH]; intros a; [reflexivity |].
  cbn [seq map repeat]. rewrite IH. reflexivity.
Qed.

Lemma mean_axis0_nil (cols : nat) : mean_axis0 cols [] = repeat NaN cols.
Proof. unfold mean_axis0. cbn [column map]. apply map_const_seq. Qed.

Lemma compress_all_false T (mask : list bool) (l : list T) :
  Forall (fun b => b = false) mask -> compress mask l = [].
Proof.
  intros H. revert l. induction H as [| b mask -> _ IH]; intros l;
    [reflexivity |].
  destruct l as [| x l]; [destruct mask; reflexivity |].
  rewrite compress_cons. apply IH.
Qed.

Section ArchetypeFailures.

Variable pvalue : nat -> coef -> float.
Variable fcluster_ward : matrix -> Z -> res (list Z).

Lemma arch_comp_raise sdge clusters x e :
  arch_comp sdge clusters x = Raise e -> e = IndexError.
Proof.
  unfold arch_comp.
  destruct (np_take sdge _) as [rows |] eqn:H; [discriminate |].
  cbn [rbind]. intros [= <-]. apply (np_take_raise _ _ H).
Qed.

Lemma gene_corr_raise sdge archetypes clusters g e :
  gene_corr pvalue sdge archetypes clusters g = Raise e ->
  e = IndexError \/ e = ValueError.
Proof.
  unfold gene_corr.
  destruct (np_index clusters (Z.of_nat g)) as [c |] eqn:Hc; cbn [rbind].
  - destruct (np_index archetypes (c - 1)) as [a |] eqn:Ha; cbn [rbind].
    + destruct (pearsonr pvalue (nth g sdge []) a) as [rp |] eqn:Hrp;
        cbn [rbind]; [discriminate |].
      intros [= <-]. right. apply (@pearsonr_raise pvalue _ _ _ Hrp).
    + intros [= <-]. left. apply (np_index_raise _ _ Ha).
  - intros [= <-]. left. apply (np_index_raise _ _ Hc).
Qed.

(** A cluster id that the clustering routine does not use gives an
    archetype row of NaN, one per column; the function returns all the
    same. *)
Theorem unused_cluster_archetype_nan
    num_clusters sdge archetypes clusters gene_corrs i :
  result (find_spatial_archetypes pvalue fcluster_ward num_clusters sdge)
  = Ok (archetypes, clusters, gene_corrs) ->
  (0 <= i < num_clusters)%Z -> ~ In (i + 1)%Z clusters ->
  nth (Z.to_nat i) archetypes [] = repeat NaN (ncols sdge).
Proof.
  intros Hrun Hi Hunused.
  destruct (@archetypes_inv pvalue fcluster_ward _ _ _ _ _ Hrun)
    as [_ [Harch _]].
  assert (Hk : (Z.to_nat i < Z.to_nat (num_clusters + 1 - 1))%nat) by lia.
  pose proof (@mapM_nth _ _ _ _ _ (Z.to_nat i) 0%Z [] Harch
                ltac:(rewrite py_range_length; exact Hk)) as Hnth.
  rewrite (@py_range_nth 1 (num_clusters + 1) (Z.to_nat i) Hk) in Hnth.
  replace (1 + Z.of_nat (Z.to_nat i))%Z with (i + 1)%Z in Hnth by lia.
  unfold arch_comp in Hnth.
  assert (Hmask : np_where (map (fun c => Z.eqb c (i + 1)) clusters) = []).
  { unfold np_where. apply compress_all_false.
    apply Forall_map, Forall_forall. intros c Hc.
    apply Z.eqb_neq. intros ->. exact (Hunused Hc). }
  rewrite Hmask in Hnth. cbn [np_take mapM rbind] in Hnth.
  rewrite mean_axis0_nil in Hnth. congruence.
Qed.

(** Once the clustering routine has returned, the function can only fail
    with an index error or a value error, and then the closing status line is
    not printed. *)
Theorem archetypes_failures num_clusters sdge clusters e :
  fcluster_ward sdge num_clusters = Ok clusters ->
  result (find_spatial_archetypes pvalue fcluster_ward num_clusters sdge)
  = Raise e ->
  fst (find_spatial_archetypes pvalue fcluster_ward num_clusters sdge)
  = ["Finding gene archetypes ... "%string] /\
  (e = IndexError \/ e = ValueError).
Proof.
  intros Hfc. rewrite (@archetypes_unfold pvalue fcluster_ward), Hfc.
  destruct (mapM (arch_comp sdge clusters) _) as [archetypes | e1] eqn:Harch.
  - destruct (mapM (gene_corr pvalue sdge archetypes clusters) _)
      as [gene_corrs | e2] eqn:Hcorrs; [discriminate |].
    unfold result. cbn [fst snd]. intros [= <-]. split; [reflexivity |].
    destruct (@mapM_raise _ _ _ _ _ Hcorrs) as [g [_ Hgene]].
    apply (gene_corr_raise _ _ _ _ Hgene).
  - unfold result. cbn [fst snd]. intros [= <-]. split; [reflexivity |].
    destruct (@mapM_raise _ _ _ _ _ Harch) as [x [_ Hx]].
    left. apply (arch_comp_raise _ _ _ Hx).
Qed.

End ArchetypeFailures.

Lemma unused_cluster_archetype_nan_witness :
  result (find_spatial_archetypes pvalue_example (labels [1; 2]%Z) 3
            two_gene_sdge)
  = Ok ([[Fin 0; Fin 1; Fin 2]; [Fin 2; Fin 0; Fin 1]; [NaN; NaN; NaN]],
        [1; 2]%Z, [coef_of_Q 1; coef_of_Q 1]) /\
  (0 <= 2 < 3)%Z /\ ~ In (2 + 1)%Z [1; 2]%Z /\
  nth (Z.to_nat 2)
      [[Fin 0; Fin 1; Fin 2]; [Fin 2; Fin 0; Fin 1]; [NaN; NaN; NaN]] []
  = repeat NaN (ncols two_gene_sdge).
Proof.
  assert (H : result (find_spatial_archetypes pvalue_example
                        (labels [1; 2]%Z) 3 two_gene_sdge)
              = Ok ([[Fin 0; Fin 1; Fin 2]; [Fin 2; Fin 0; Fin 1];
                     [NaN; NaN; NaN]],
                    [1; 2]%Z, [coef_of_Q 1; coef_of_Q 1]))
    by (vm_compute; reflexivity).
  assert (Hi : (0 <= 2 < 3)%Z) by lia.
  assert (Hu : ~ In (2 + 1)%Z [1; 2]%Z)
    by (simpl; intros [E | [E | []]]; discriminate E).
  repeat (split; [assumption |]).
  exact (@unused_cluster_archetype_nan pvalue_example (labels [1; 2]%Z)
           3%Z two_gene_sdge _ _ _ 2%Z H Hi Hu).
Defined.

Lemma archetypes_failures_witness :
  labels [1; 1]%Z two_gene_sdge 0%Z = Ok [1; 1]%Z /\
  result (find_spatial_archetypes pvalue_example (labels [1; 1]%Z) 0
            two_gene_sdge) = Raise IndexError /\
  fst (find_spatial_archetypes pvalue_example (labels [1; 1]%Z) 0
         two_gene_sdge)
  = ["Finding gene archetypes ... "%string] /\
  (IndexError = IndexError \/ IndexError = ValueError).
Proof.
  assert (H1 : labels [1; 1]%Z two_gene_sdge 0%Z = Ok [1; 1]%Z)
    by reflexivity.
  assert (H2 : result (find_spatial_archetypes pvalue_example
                         (labels [1; 1]%Z) 0 two_gene_sdge)
               = Raise IndexError) by (vm_compute; reflexivity).
  repeat (split; [assumption |]).
  exact (@archetypes_failures pvalue_example (labels [1; 1]%Z)
           0%Z two_gene_sdge _ _ H1 H2).
Defined.
